(** * PredictedProcess and PredictedProcessesManager

    A shallow embedding of [src/PredictedProcess.ts] (the classes
    [PredictedProcess] and [PredictedProcessesManager]) and the properties of
    its run protocol, of [memoize] and of the batch runner [runAll].

    The program is event driven: it registers closures on Node's
    [ChildProcess] emitters and on [AbortSignal]s, and the outcome of a call
    is whatever those closures do to a promise when the executor or the
    cancellation context fires.  The embedding keeps that structure: a
    [World] is the JavaScript heap (task objects, managers, child processes
    with their listener tables, abort signals, promises, arrays), the
    closures of the source are the constructors of [Listener], with their
    bodies in [call], and the environment acts through [deliver], one
    [Event] at a time.  The executor is free: any event may arrive at any
    time, so a property proved for every trace holds for every behaviour of
    the spawned processes.

    Numbers: task ids and exit codes are JavaScript numbers; they are taken
    integer valued ([Z]), with [null] as [None] for exit codes.

    [spawn] either returns a child process or throws.  It throws for a
    command that Node does not accept (the empty string, a string with a
    NUL character) and for the system errors that Node does not report by
    an 'error' event; the heap holds the answer of the executor, so that a
    property proved for every heap holds whatever the executor refuses.
    Failures to launch that Node reports later arrive as 'error' events. *)

From stdpp Require Import base list strings.
From Stdlib Require Import ZArith Lia DecimalString.

Open Scope string_scope.
Open Scope list_scope.

(** ** Values *)

(** A reference to a heap object: its index in the table of its kind. *)
Abbreviation ref := nat (only parsing).

(** [NodeJS.Signals]: the name of a signal, e.g. ["SIGABRT"]. *)
Abbreviation Signals := string (only parsing).

(** The [Error]s the program creates, one constructor per message template,
    and the executor's own errors, which the program passes on unchanged:
    the system errors, given by their message, and the error with which
    [spawn] refuses a command that is not valid. *)
Inductive Error : Type :=
| AbortSignalAlreadyAborted                      (* run, line 39 *)
| ProcessAlreadyRunning                          (* run, line 44 *)
| ProcessAborted (signal : option Signals)       (* onExit, line 68 *)
| ProcessFailed (code : option Z)                (* onExit, line 70 *)
| ExecutorError (error : string)                 (* 'error' listeners *)
| ERR_INVALID_ARG_VALUE (file : string)          (* thrown by spawn *)
| ProcessExited (id : Z) (code : option Z)       (* runAll, line 216 *)
| AbortSignalTriggered.                          (* runAll, line 227 *)

(** The state a settled promise of type [Promise<void>] is in. *)
Inductive Outcome : Type :=
| Resolved
| Rejected (reason : Error).

(** What the promise returned by [runAll] settles to: it resolves, or it
    rejects with the error built from the collected [errors] (line 241). *)
Inductive BatchOutcome : Type :=
| AllExited
| AtLeastOneFailed (errors : list Error).

(** Template literals: [`${n}`] for a number and for [null].  JavaScript
    prints an integer below 10^21 in absolute value with its decimal
    digits; from there on it prints an exponent form, which is not
    rendered here ([None]). *)
Definition show_number (n : Z) : option string :=
  if (Z.abs n <? 10 ^ 21)%Z then Some (NilZero.string_of_int (Z.to_int n))
  else None.

Definition show_nullable {A} (show : A → option string) (x : option A)
    : option string :=
  match x with Some a => show a | None => Some "null" end.

Definition newline : string := String (Ascii.ascii_of_nat 10) EmptyString.

(** [error.message], where it is rendered.  The message of
    [ERR_INVALID_ARG_VALUE] shows the value received as Node's [inspect]
    prints it; only the one for the empty command is rendered. *)
Definition message (e : Error) : option string :=
  match e with
  | AbortSignalAlreadyAborted => Some "AbortSignal already aborted"
  | ProcessAlreadyRunning => Some "Process is already running"
  | ProcessAborted signal =>
      s ← show_nullable Some signal;
      Some ("Process aborted with signal: " +:+ s)
  | ProcessFailed code =>
      c ← show_nullable show_number code;
      Some ("Process failed with code " +:+ c)
  | ExecutorError error => Some error
  | ERR_INVALID_ARG_VALUE file =>
      if String.eqb file ""
      then Some "The argument 'file' cannot be empty. Received ''"
      else None
  | ProcessExited id code =>
      i ← show_number id;
      c ← show_nullable show_number code;
      Some ("Process " +:+ i +:+ " exited with code " +:+ c)
  | AbortSignalTriggered => Some "AbortSignal triggered"
  end.

(** [errors.map((error) => error.message).join('\n')]. *)
Fixpoint join (sep : string) (l : list string) : string :=
  match l with
  | [] => ""
  | [s] => s
  | s :: l => s +:+ sep +:+ join sep l
  end.

(** The message of the error [runAll] throws (lines 240-241). *)
Definition batch_message (errors : list Error) : option string :=
  messages ← mapM message errors;
  Some ("At least one process has exited with an error:" +:+ newline
          +:+ join newline messages).

(** ** Closures

    Every function the source registers as a listener, with the variables it
    captures. *)
Inductive Listener : Type :=
| onExit (this : ref) (promise : ref)            (* run, lines 58-72 *)
| onAbort (childProcess : ref)                   (* run, lines 79-81 *)
| removeOnAbort (signal : ref) (childProcess : ref)   (* run, lines 85-87 *)
| onError (promise : ref)                        (* lines 91-93, 220-222 *)
| onClose (id : Z) (promise : ref)               (* runAll, lines 212-218;
                                                    [process.id] is readonly *)
| onAbortAll (spawnedProcess : ref) (promise : ref).  (* runAll, 225-228 *)

(** Identity of closures: two closures are the same function object when they
    were created by the same evaluation, which the captured fresh references
    determine. *)
Definition Listener_beq (a b : Listener) : bool :=
  match a, b with
  | onExit t p, onExit t' p' => Nat.eqb t t' && Nat.eqb p p'
  | onAbort c, onAbort c' => Nat.eqb c c'
  | removeOnAbort s c, removeOnAbort s' c' => Nat.eqb s s' && Nat.eqb c c'
  | onError p, onError p' => Nat.eqb p p'
  | onClose i p, onClose i' p' => Z.eqb i i' && Nat.eqb p p'
  | onAbortAll c p, onAbortAll c' p' => Nat.eqb c c' && Nat.eqb p p'
  | _, _ => false
  end.

(** ** The heap *)

(** [class PredictedProcess]. *)
Record PredictedProcess : Type := {
  id : Z;
  command : string;
  _childProcess : option ref;
  _isRunning : bool;
}.

Inductive EventName : Type := exit | close | error.

Definition EventName_beq (a b : EventName) : bool :=
  match a, b with
  | exit, exit | close, close | error, error => true
  | _, _ => false
  end.

(** One entry of an emitter's listener table: [on] or [once]. *)
Record Registration : Type := {
  event : EventName;
  once : bool;
  listener : Listener;
}.

Definition Registration_beq (a b : Registration) : bool :=
  EventName_beq (event a) (event b) && Bool.eqb (once a) (once b)
    && Listener_beq (listener a) (listener b).

(** Node's [ChildProcess], as far as the program sees it: the command it was
    spawned with, its listener table, and the termination requests sent to
    it with [kill]. *)
Record ChildProcess : Type := {
  spawnfile : string;
  listeners : list Registration;
  kills : list Signals;
}.

Record AbortSignal : Type := {
  aborted : bool;
  abort_listeners : list Listener;
}.

(** A promise: pending ([None]) or settled, and the arrays that a
    [.catch((error) => errors.push(error))] reaction pushes its rejection
    reason to. *)
Record Promise : Type := {
  state : option Outcome;
  reactions : list ref;
}.

Record World : Type := {
  tasks : list PredictedProcess;
  managers : list (list ref);     (* [_processes] of each manager *)
  children : list ChildProcess;
  signals : list AbortSignal;
  promises : list Promise;
  arrays : list (list Error);
  executor : string → option string;
    (* the process executor: the system error with which [spawn] refuses a
       command, if it refuses it *)
}.

Definition no_task : PredictedProcess :=
  {| id := 0; command := ""; _childProcess := None; _isRunning := false |}.

(** Field access through a reference.  References are only ever obtained
    from the allocators below, so the defaults are never read. *)
Definition task (w : World) (r : ref) : PredictedProcess :=
  default no_task (tasks w !! r).

Definition manager (w : World) (m : ref) : list ref :=
  default [] (managers w !! m).

Definition promise_state (w : World) (p : ref) : option Outcome :=
  promises w !! p ≫= state.

Definition array (w : World) (a : ref) : list Error :=
  default [] (arrays w !! a).

Definition signal_aborted (w : World) (s : ref) : bool :=
  default false (aborted <$> signals w !! s).

Definition child_kills (w : World) (c : ref) : list Signals :=
  default [] (kills <$> children w !! c).

Definition child_listeners (w : World) (c : ref) : list Registration :=
  default [] (listeners <$> children w !! c).

Definition signal_listeners (w : World) (s : ref) : list Listener :=
  default [] (abort_listeners <$> signals w !! s).

(** *** Updates *)

Definition with_tasks (f : list PredictedProcess → list PredictedProcess)
    (w : World) : World :=
  {| tasks := f (tasks w); managers := managers w; children := children w;
     signals := signals w; promises := promises w; arrays := arrays w;
     executor := executor w |}.

Definition with_managers (f : list (list ref) → list (list ref))
    (w : World) : World :=
  {| tasks := tasks w; managers := f (managers w); children := children w;
     signals := signals w; promises := promises w; arrays := arrays w;
     executor := executor w |}.

Definition with_children (f : list ChildProcess → list ChildProcess)
    (w : World) : World :=
  {| tasks := tasks w; managers := managers w; children := f (children w);
     signals := signals w; promises := promises w; arrays := arrays w;
     executor := executor w |}.

Definition with_signals (f : list AbortSignal → list AbortSignal)
    (w : World) : World :=
  {| tasks := tasks w; managers := managers w; children := children w;
     signals := f (signals w); promises := promises w; arrays := arrays w;
     executor := executor w |}.

Definition with_promises (f : list Promise → list Promise)
    (w : World) : World :=
  {| tasks := tasks w; managers := managers w; children := children w;
     signals := signals w; promises := f (promises w); arrays := arrays w;
     executor := executor w |}.

Definition with_arrays (f : list (list Error) → list (list Error))
    (w : World) : World :=
  {| tasks := tasks w; managers := managers w; children := children w;
     signals := signals w; promises := promises w; arrays := f (arrays w);
     executor := executor w |}.

Definition set_childProcess (this : ref) (c : option ref) : World → World :=
  with_tasks (alter (λ t, {| id := id t; command := command t;
                             _childProcess := c;
                             _isRunning := _isRunning t |}) this).

Definition set_isRunning (this : ref) (b : bool) : World → World :=
  with_tasks (alter (λ t, {| id := id t; command := command t;
                             _childProcess := _childProcess t;
                             _isRunning := b |}) this).

(** ** Promises and arrays *)

(** [new Promise(...)], already settled when the async function throws before
    its first suspension. *)
Definition new_Promise (st : option Outcome) (w : World) : World * ref :=
  (with_promises (λ ps, ps ++ [{| state := st; reactions := [] |}]) w,
   length (promises w)).

(** [errors.push(error)]. *)
Definition push (a : ref) (e : Error) : World → World :=
  with_arrays (alter (λ errors, errors ++ [e]) a).

Definition set_state (p : ref) (o : Outcome) : World → World :=
  with_promises (alter (λ pr, {| state := Some o;
                                 reactions := reactions pr |}) p).

(** [resolve()]: settles the promise if it is pending, does nothing
    otherwise. *)
Definition resolve (p : ref) (w : World) : World :=
  match promises w !! p with
  | Some {| state := None |} => set_state p Resolved w
  | _ => w
  end.

(** [reject(error)]: settles the promise if it is pending and runs its
    [catch] reactions, does nothing otherwise. *)
Definition reject (p : ref) (e : Error) (w : World) : World :=
  match promises w !! p with
  | Some {| state := None; reactions := rs |} =>
      foldl (λ w a, push a e w) (set_state p (Rejected e) w) rs
  | _ => w
  end.

(** [promise.catch((error) => errors.push(error))]: the reaction runs at
    once on a promise that is already rejected. *)
Definition catch (errors : ref) (w : World) (p : ref) : World :=
  match promise_state w p with
  | Some (Rejected e) => push errors e w
  | _ => with_promises (alter (λ pr, {| state := state pr;
                                        reactions := reactions pr ++ [errors]
                                     |}) p) w
  end.

Definition new_array (w : World) : World * ref :=
  (with_arrays (λ l, l ++ [[]]) w, length (arrays w)).

(** ** The executor and the cancellation context *)

(** [spawn] checks the command before it launches anything: Node throws
    [ERR_INVALID_ARG_VALUE] for the empty string and for a string with a
    NUL character. *)
Fixpoint has_NUL (s : string) : bool :=
  match s with
  | EmptyString => false
  | String a s => Ascii.eqb a Ascii.zero || has_NUL s
  end.

Definition invalid_command (cmd : string) : bool :=
  String.eqb cmd "" || has_NUL cmd.

(** What [spawn(command, { shell: true })] throws, if it throws: the
    validation error, or the system error of the executor. *)
Definition spawn_throws (w : World) (cmd : string) : option Error :=
  if invalid_command cmd then Some (ERR_INVALID_ARG_VALUE cmd)
  else ExecutorError <$> executor w cmd.

(** [spawn(command, { shell: true })]: the error thrown, or a new child
    process, with no listener yet. *)
Definition spawn (cmd : string) (w : World) : Error + World * ref :=
  match spawn_throws w cmd with
  | Some err => inl err
  | None =>
      inr (with_children
             (λ cs, cs ++ [{| spawnfile := cmd; listeners := [];
                              kills := [] |}]) w,
           length (children w))
  end.

(** The executor launches the command: [spawn] does not throw. *)
Definition launches (w : World) (cmd : string) : Prop :=
  spawn_throws w cmd = None.

Definition add_registration (c : ref) (r : Registration) : World → World :=
  with_children (alter (λ ch, {| spawnfile := spawnfile ch;
                                 listeners := listeners ch ++ [r];
                                 kills := kills ch |}) c).

(** [emitter.on(event, l)] and [emitter.once(event, l)]. *)
Definition on_ (c : ref) (ev : EventName) (l : Listener) : World → World :=
  add_registration c {| event := ev; once := false; listener := l |}.

Definition once_ (c : ref) (ev : EventName) (l : Listener) : World → World :=
  add_registration c {| event := ev; once := true; listener := l |}.

(** Removes the first entry that [eqb] identifies with [x]. *)
Fixpoint remove_first {A} (eqb : A → A → bool) (x : A) (l : list A) : list A :=
  match l with
  | [] => []
  | y :: l => if eqb x y then l else y :: remove_first eqb x l
  end.

Definition remove_registration (c : ref) (r : Registration) : World → World :=
  with_children (alter (λ ch, {| spawnfile := spawnfile ch;
                                 listeners :=
                                   remove_first Registration_beq r
                                     (listeners ch);
                                 kills := kills ch |}) c).

(** [emitter.removeAllListeners()]. *)
Definition removeAllListeners (c : ref) : World → World :=
  with_children (alter (λ ch, {| spawnfile := spawnfile ch;
                                 listeners := [];
                                 kills := kills ch |}) c).

(** [childProcess.kill(signal)]: a termination request is sent; the process
    reports its exit later, if at all.  [kill()] sends ["SIGTERM"]. *)
Definition kill (c : ref) (sig : Signals) : World → World :=
  with_children (alter (λ ch, {| spawnfile := spawnfile ch;
                                 listeners := listeners ch;
                                 kills := kills ch ++ [sig] |}) c).

(** [new AbortController().signal]. *)
Definition new_AbortSignal (w : World) : World * ref :=
  (with_signals
     (λ ss, ss ++ [{| aborted := false; abort_listeners := [] |}]) w,
   length (signals w)).

(** [signal.addEventListener('abort', l)], for a closure [l] that was just
    created (so it is not registered yet). *)
Definition addEventListener (s : ref) (l : Listener) : World → World :=
  with_signals (alter (λ sg, {| aborted := aborted sg;
                                abort_listeners := abort_listeners sg ++ [l]
                             |}) s).

(** [signal.removeEventListener('abort', l)]. *)
Definition removeEventListener (s : ref) (l : Listener) : World → World :=
  with_signals (alter (λ sg, {| aborted := aborted sg;
                                abort_listeners :=
                                  remove_first Listener_beq l
                                    (abort_listeners sg) |}) s).

(** ** The listeners' bodies *)

(** The arguments an event passes to its listeners. *)
Inductive Args : Type :=
| ExitArgs (code : option Z) (signal : option Signals)
| ErrorArgs (error : string)
| NoArgs.

(** [code === 0]. *)
Definition is_zero (code : option Z) : bool :=
  match code with
  | Some 0%Z => true
  | _ => false
  end.

(** [signal === 'SIGABRT' || signal === null]. *)
Definition is_SIGABRT_or_null (signal : option Signals) : bool :=
  match signal with
  | Some s => String.eqb s "SIGABRT"
  | None => true
  end.

(** Calling a listener. *)
Definition call (l : Listener) (a : Args) (w : World) : World :=
  match l, a with
  | onExit this promise, ExitArgs code signal =>
      (* this._childProcess?.removeAllListeners() *)
      let w := match _childProcess (task w this) with
               | Some c => removeAllListeners c w
               | None => w
               end in
      let w := set_childProcess this None w in
      let w := set_isRunning this false w in
      if is_zero code then resolve promise w
      else if is_SIGABRT_or_null signal
           then reject promise (ProcessAborted signal) w
           else reject promise (ProcessFailed code) w
  | onAbort childProcess, _ => kill childProcess "SIGABRT" w
  | removeOnAbort signal childProcess, _ =>
      removeEventListener signal (onAbort childProcess) w
  | onError promise, ErrorArgs err => reject promise (ExecutorError err) w
  | onClose id promise, ExitArgs code _ =>
      if is_zero code then resolve promise w
      else reject promise (ProcessExited id code) w
  | onAbortAll spawnedProcess promise, _ =>
      let w := kill spawnedProcess "SIGTERM" w in
      reject promise AbortSignalTriggered w
  | _, _ => w
  end.

(** [emitter.emit(event, args)]: Node calls the listeners registered for the
    event at the time of the call, in registration order; a listener removed
    by an earlier one during the same [emit] is still called, and a [once]
    listener is taken out of the table just before it runs. *)
Definition emit (c : ref) (ev : EventName) (a : Args) (w : World) : World :=
  foldl (λ w r,
           let w := if once r then remove_registration c r w else w in
           call (listener r) a w)
        w
        (filter (λ r, EventName_beq (event r) ev = true) (child_listeners w c)).

(** The cancellation context is triggered: the signal becomes aborted and
    its listeners run, once. *)
Definition abort (s : ref) (w : World) : World :=
  if signal_aborted w s then w
  else
    let ls := signal_listeners w s in
    let w := with_signals (alter (λ sg, {| aborted := true;
                                           abort_listeners :=
                                             abort_listeners sg |}) s) w in
    foldl (λ w l, call l NoArgs w) w ls.

(** What the environment does. *)
Inductive Event : Type :=
| Exit (child : ref) (code : option Z) (signal : option Signals)
| Close (child : ref) (code : option Z) (signal : option Signals)
| ErrorEvent (child : ref) (err : string)
| Abort (signal : ref).

Definition deliver (w : World) (e : Event) : World :=
  match e with
  | Exit c code signal => emit c exit (ExitArgs code signal) w
  | Close c code signal => emit c close (ExitArgs code signal) w
  | ErrorEvent c err => emit c error (ErrorArgs err) w
  | Abort s => abort s w
  end.

Definition after (trace : list Event) (w : World) : World :=
  foldl deliver w trace.

(** ** PredictedProcess *)

(** [new PredictedProcess(id, command)]. *)
Definition new_PredictedProcess (i : Z) (cmd : string) (w : World)
    : World * ref :=
  (with_tasks (λ ts, ts ++ [{| id := i; command := cmd;
                               _childProcess := None;
                               _isRunning := false |}]) w,
   length (tasks w)).

(** [signal && signal.aborted]. *)
Definition already_aborted (signal : option ref) (w : World) : bool :=
  match signal with
  | Some s => signal_aborted w s
  | None => false
  end.

(** [PredictedProcess.run] (lines 36-95): the world after the call and the
    promise it returns.  When [spawn] throws, the executor function of the
    promise (lines 50-94) ends there and the promise is rejected with what
    was thrown; line 48 has already set the flag. *)
Definition run (this : ref) (signal : option ref) (w : World) : World * ref :=
  if already_aborted signal w then
    new_Promise (Some (Rejected AbortSignalAlreadyAborted)) w
  else if _isRunning (task w this) then
    new_Promise (Some (Rejected ProcessAlreadyRunning)) w
  else
    let w := set_isRunning this true w in
    let '(w, promise) := new_Promise None w in
    match spawn (command (task w this)) w with
    | inl thrown => (reject promise thrown w, promise)
    | inr (w, childProcess) =>
        let w := set_childProcess this (Some childProcess) w in
        let w := once_ childProcess exit (onExit this promise) w in
        let w := match signal with
                 | Some s =>
                     let w := addEventListener s (onAbort childProcess) w in
                     once_ childProcess exit (removeOnAbort s childProcess) w
                 | None => w
                 end in
        let w := on_ childProcess error (onError promise) w in
        (w, promise)
    end.

(** [PredictedProcess.memoize] (lines 125-134). *)
Definition memoize (this : ref) (w : World) : World * ref :=
  let '(w, memoizedProcess) :=
    new_PredictedProcess (id (task w this)) (command (task w this)) w in
  let w := set_childProcess memoizedProcess None w in
  let w := set_isRunning memoizedProcess false w in
  (w, memoizedProcess).

(** ** PredictedProcessesManager *)

(** [new PredictedProcessesManager(processes)]: the array is copied. *)
Definition new_Manager (processes : list ref) (w : World) : World * ref :=
  (with_managers (λ ms, ms ++ [processes]) w, length (managers w)).

(** [get processes()]: a copy of the array. *)
Definition processes (this : ref) (w : World) : list ref := manager w this.

(** [addProcess] (lines 150-153). *)
Definition addProcess (this : ref) (process : ref) (w : World) : World * ref :=
  (with_managers (alter (λ ps, ps ++ [process]) this) w, this).

(** [removeProcess] (lines 155-158). *)
Definition removeProcess (this : ref) (i : Z) (w : World) : World * ref :=
  (with_managers
     (alter (filter (λ process, id (task w process) ≠ i)) this) w,
   this).

(** [getProcess] (lines 160-162). *)
Definition getProcess (this : ref) (i : Z) (w : World) : option ref :=
  snd <$> list_find (λ process, id (task w process) = i) (processes this w).

(** The body of the [for] loop of [runAll] (lines 208-233), with the array
    [promises] built so far.  The executor function of the promise is an
    [async] function: when [spawn] throws in it, what is thrown rejects the
    promise of that function, which nothing awaits; the promise of line 209
    is left pending, with no listener that could settle it. *)
Definition runAll_spawn (signal : option ref) (st : World * list ref)
    (process : ref) : World * list ref :=
  let '(w, promises) := st in
  let '(w, promise) := new_Promise None w in
  match spawn (command (task w process)) w with
  | inl _ => (w, promises ++ [promise])
  | inr (w, spawnedProcess) =>
      let w := on_ spawnedProcess close
                 (onClose (id (task w process)) promise) w in
      let w := on_ spawnedProcess error (onError promise) w in
      let w := match signal with
               | Some s =>
                   addEventListener s (onAbortAll spawnedProcess promise) w
               | None => w
               end in
      (w, promises ++ [promise])
  end.

(** The locals of a suspended call of [runAll]. *)
Record RunAll : Type := {
  ra_promises : list ref;
  ra_errors : ref;
}.

(** [runAll] (lines 205-243) up to its [await]. *)
Definition runAll (this : ref) (signal : option ref) (w : World)
    : World * RunAll :=
  let '(w, promises) := foldl (runAll_spawn signal) (w, []) (manager w this) in
  let '(w, errors) := new_array w in
  let w := foldl (catch errors) w promises in
  (w, {| ra_promises := promises; ra_errors := errors |}).

Definition is_settled (w : World) (p : ref) : bool :=
  match promise_state w p with
  | Some _ => true
  | None => false
  end.

(** [runAll] after its [await]: [Promise.allSettled] lets the call continue
    once every promise of [promises] has settled; it then throws if [errors]
    is not empty (lines 239-242).  [None]: the call is still suspended. *)
Definition runAll_outcome (r : RunAll) (w : World) : option BatchOutcome :=
  if forallb (is_settled w) (ra_promises r) then
    match array w (ra_errors r) with
    | [] => Some AllExited
    | errors => Some (AtLeastOneFailed errors)
    end
  else None.

(** ** Scenarios *)

Definition empty_world : World :=
  {| tasks := []; managers := []; children := []; signals := [];
     promises := []; arrays := []; executor := λ _, None |}.

(** [const T = new PredictedProcess(i, cmd)] and
    [const K = new AbortController().signal]: task [0] and signal [0]. *)
Definition task_and_signal (i : Z) (cmd : string) : World :=
  let '(w, _) := new_PredictedProcess i cmd empty_world in
  fst (new_AbortSignal w).

(** The optional argument of [run] and [runAll] in the scenarios: the signal
    [0], or nothing. *)
Definition context (withSignal : bool) : option ref :=
  if withSignal then Some 0 else None.

(** [T.run(K)] on a new task: the promise is [0], the child process [0]. *)
Definition running (i : Z) (cmd : string) (withSignal : bool) : World :=
  fst (run 0 (context withSignal) (task_and_signal i cmd)).

(** [const M = T.memoize(); M.run(K)]: [M] is task [1]. *)
Definition memoized_running (i : Z) (cmd : string) (withSignal : bool)
    : World :=
  let '(w, M) := memoize 0 (task_and_signal i cmd) in
  fst (run M (context withSignal) w).

(** ** A batch *)

(** The object [new PredictedProcess(i, cmd)] creates. *)
Definition new_task (i : Z) (cmd : string) : PredictedProcess :=
  {| id := i; command := cmd; _childProcess := None; _isRunning := false |}.

(** A heap with the task objects [ts], one manager (manager [0]) whose
    [_processes] are [procs], and one abort signal (signal [0]) that has not
    been triggered; nothing has run yet. *)
Definition group (ts : list PredictedProcess) (procs : list ref) : World :=
  {| tasks := ts; managers := [procs]; children := [];
     signals := [{| aborted := false; abort_listeners := [] |}];
     promises := []; arrays := []; executor := λ _, None |}.

(** [manager.runAll(K)] on that heap.  The k-th process of the manager gets
    child process [k] and promise [k]; [errors] is array [0]. *)
Definition started (ts : list PredictedProcess) (procs : list ref)
    (withSignal : bool) : World * RunAll :=
  runAll 0 (context withSignal) (group ts procs).

(** [spawn] launches the command of every process of the manager. *)
Class launchable (ts : list PredictedProcess) (procs : list ref) : Prop :=
  launchable_commands :
    Forall (λ process,
              launches (group ts procs) (command (task (group ts procs) process)))
      procs.

(** The heap, the outcome of [runAll] and the collected [errors] once the
    events of [trace] have been delivered, in that order, to the started
    batch. *)
Definition observed (ts : list PredictedProcess) (procs : list ref)
    (withSignal : bool) (trace : list Event) : World :=
  after trace (fst (started ts procs withSignal)).

Definition outcome (ts : list PredictedProcess) (procs : list ref)
    (withSignal : bool) (trace : list Event) : option BatchOutcome :=
  runAll_outcome (snd (started ts procs withSignal))
    (observed ts procs withSignal trace).

Definition errors (ts : list PredictedProcess) (procs : list ref)
    (withSignal : bool) (trace : list Event) : list Error :=
  array (observed ts procs withSignal trace)
    (ra_errors (snd (started ts procs withSignal))).

(** The executor has reported the end of child process [c]: by 'close', or
    by 'error'. *)
Definition reports (c : ref) (e : Event) : bool :=
  match e with
  | Close c' _ _ => Nat.eqb c' c
  | ErrorEvent c' _ => Nat.eqb c' c
  | _ => false
  end.

Definition is_Abort (s : ref) (e : Event) : bool :=
  match e with
  | Abort s' => Nat.eqb s' s
  | _ => false
  end.

(** The rejection reason of a promise, if it is rejected. *)
Definition rejection (o : option Outcome) : option Error :=
  match o with
  | Some (Rejected e) => Some e
  | _ => None
  end.

(** The rejection reason of a promise that was pending before an event and
    is rejected after it. *)
Definition newly_rejected (before after_ : option Outcome) : option Error :=
  match before with
  | None => rejection after_
  | Some _ => None
  end.

(** Why the promise of the k-th process, a task with id [i], is in the state
    it is in: the event of the trace that settled it. *)
Definition explained (withSignal : bool) (trace : list Event) (k : nat)
    (i : Z) (o : option Outcome) : Prop :=
  match o with
  | None => True
  | Some Resolved => ∃ sg, Close k (Some 0%Z) sg ∈ trace
  | Some (Rejected e) =>
      (∃ code sg, Close k code sg ∈ trace ∧ code ≠ Some 0%Z
                  ∧ e = ProcessExited i code)
      ∨ (∃ err, ErrorEvent k err ∈ trace ∧ e = ExecutorError err)
      ∨ (withSignal = true ∧ Abort 0 ∈ trace ∧ e = AbortSignalTriggered)
  end.

(** *** The heap of a batch in closed form

    The definitions of this section are not part of the program: they
    describe the heaps that [started] and [deliver] produce, and are tied to
    the program by the lemmas [started_batch] and [deliver_batch] below.

    A [Slot] is what [runAll] builds for the k-th process, reduced to what
    the events can change of it: the state of its promise and the
    termination requests sent to its child process. *)
Record Slot : Type := {
  s_id : Z;
  s_command : string;
  s_state : option Outcome;
  s_kills : list Signals;
}.

Record Batch : Type := {
  b_slots : list Slot;
  b_errors : list Error;
  b_aborted : bool;
}.

(** The child process of slot [k], with the two listeners of lines 212-222,
    and its promise. *)
Definition slot_child (k : nat) (s : Slot) : ChildProcess :=
  {| spawnfile := s_command s;
     listeners :=
       [{| event := close; once := false; listener := onClose (s_id s) k |};
        {| event := error; once := false; listener := onError k |}];
     kills := s_kills s |}.

Definition slot_promise (rs : nat → list ref) (k : nat) (s : Slot) : Promise :=
  {| state := s_state s; reactions := rs k |}.

(** The heap made of the slots: [rs] gives the reactions of each promise,
    [arrs] are the arrays, [ab] says whether the signal is aborted. *)
Definition batch_world (ts : list PredictedProcess) (procs : list ref)
    (withSignal : bool) (rs : nat → list ref) (arrs : list (list Error))
    (slots : list Slot) (ab : bool) : World :=
  {| tasks := ts; managers := [procs];
     children := imap slot_child slots;
     signals :=
       [{| aborted := ab;
           abort_listeners :=
             if withSignal
             then (λ k, onAbortAll k k) <$> seq 0 (length slots)
             else [] |}];
     promises := imap (slot_promise rs) slots;
     arrays := arrs;
     executor := λ _, None |}.

(** The heap of a batch once [runAll] is suspended: every promise has the
    one [catch] reaction, which pushes to [errors]. *)
Definition batch_heap (ts : list PredictedProcess) (procs : list ref)
    (withSignal : bool) (b : Batch) : World :=
  batch_world ts procs withSignal (λ _, [0]) [b_errors b] (b_slots b)
    (b_aborted b).

(** The reactions of the promises while [runAll] attaches the [catch]
    reactions, after it has done so for the first [k] promises. *)
Definition caught (k : nat) (j : nat) : list ref :=
  if decide (j < k) then [0] else [].

Definition new_slot (ts : list PredictedProcess) (process : ref) : Slot :=
  {| s_id := id (default no_task (ts !! process));
     s_command := command (default no_task (ts !! process));
     s_state := None;
     s_kills := [] |}.

Definition batch_start (ts : list PredictedProcess) (procs : list ref) : Batch :=
  {| b_slots := new_slot ts <$> procs; b_errors := []; b_aborted := false |}.

(** [resolve] and [reject] on the promise of a slot, and [kill] on its child
    process. *)
Definition settle_slot (o : Outcome) (s : Slot) : Slot :=
  match s_state s with
  | None => {| s_id := s_id s; s_command := s_command s;
               s_state := Some o; s_kills := s_kills s |}
  | Some _ => s
  end.

Definition kill_slot (sig : Signals) (s : Slot) : Slot :=
  {| s_id := s_id s; s_command := s_command s;
     s_state := s_state s; s_kills := s_kills s ++ [sig] |}.

(** The error that settling slot [k] with [o] adds to [errors]. *)
Definition rejected_now (slots : list Slot) (k : nat) (o : Outcome)
    : list Error :=
  match slots !! k with
  | Some s =>
      option_list (newly_rejected (s_state s) (s_state (settle_slot o s)))
  | None => []
  end.

(** What the 'close' listener settles the promise with. *)
Definition close_outcome (i : Z) (code : option Z) : Outcome :=
  if is_zero code then Resolved else Rejected (ProcessExited i code).

(** What the abort listener does to a slot. *)
Definition abort_slot (s : Slot) : Slot :=
  settle_slot (Rejected AbortSignalTriggered) (kill_slot "SIGTERM" s).

(** What an event does to the k-th slot, when [ab] says whether the signal
    was aborted before it. *)
Definition slot_step (withSignal ab : bool) (e : Event) (k : nat) (s : Slot)
    : Slot :=
  match e with
  | Close c code _ =>
      if Nat.eqb c k then settle_slot (close_outcome (s_id s) code) s else s
  | ErrorEvent c err =>
      if Nat.eqb c k then settle_slot (Rejected (ExecutorError err)) s else s
  | Abort 0 =>
      if withSignal && negb ab
      then settle_slot (Rejected AbortSignalTriggered) (kill_slot "SIGTERM" s)
      else s
  | _ => s
  end.

Definition batch_step (withSignal : bool) (b : Batch) (e : Event) : Batch :=
  {| b_slots := imap (slot_step withSignal (b_aborted b) e) (b_slots b);
     b_errors :=
       b_errors b
       ++ omap (λ x, x)
            (imap (λ k s, newly_rejected (s_state s)
                            (s_state (slot_step withSignal (b_aborted b) e k s)))
               (b_slots b));
     b_aborted := b_aborted b || is_Abort 0 e |}.

Definition batch_after (withSignal : bool) (trace : list Event) (b : Batch)
    : Batch :=
  foldl (batch_step withSignal) b trace.

(** ** Closed forms for a run, and sequences of actions *)

(** [manager.runAll(K)] when [K] was triggered before the call. *)
Definition started_aborted (ts : list PredictedProcess) (procs : list ref)
    : World * RunAll :=
  runAll 0 (Some 0) (abort 0 (group ts procs)).

(** Setting the [aborted] flag of a signal, as [abort] does before it runs
    the listeners. *)
Definition mark_aborted (s : ref) : World → World :=
  with_signals (alter (λ sg, {| aborted := true;
                                abort_listeners := abort_listeners sg |}) s).

(** The task [this] exists and has no execution in flight. *)
Definition idle (w : World) (this : ref) : Prop :=
  ∃ t, tasks w !! this = Some t ∧ _isRunning t = false.

(** The optional signal is absent, or it exists and has not been
    triggered. *)
Definition live (w : World) (signal : option ref) : Prop :=
  match signal with
  | Some s => ∃ sg, signals w !! s = Some sg ∧ aborted sg = false
  | None => True
  end.

(** The entries [run] makes in the listener table of the child process [c]
    it spawns, for the promise [p] (lines 75, 85 and 91). *)
Definition run_registrations (this : ref) (signal : option ref) (c p : ref)
    : list Registration :=
  {| event := exit; once := true; listener := onExit this p |}
  :: match signal with
     | Some s => [{| event := exit; once := true;
                     listener := removeOnAbort s c |}]
     | None => []
     end
  ++ [{| event := error; once := false; listener := onError p |}].

(** What [onExit] settles the promise with (lines 65-71). *)
Definition exit_outcome (code : option Z) (signal : option Signals) : Outcome :=
  if is_zero code then Resolved
  else if is_SIGABRT_or_null signal then Rejected (ProcessAborted signal)
       else Rejected (ProcessFailed code).

(** Settling a promise that may be settled already. *)
Definition settle (o : option Outcome) (new : Outcome) : option Outcome :=
  match o with
  | None => Some new
  | Some _ => o
  end.

(** The heaps a run of [this] goes through, starting from the heap [w]:
    the task [this] changed by [tk], one more child process with the
    listener table [regs], the listeners of the signal changed by [ls], and
    one more promise, in the state [o].  Tied to the program by the lemmas
    [run_launched], [launched_error] and [launched_exit]. *)
Definition run_heap (w : World) (this : ref) (signal : option ref)
    (tk : PredictedProcess → PredictedProcess) (regs : list Registration)
    (ls : list Listener → list Listener) (o : option Outcome) : World :=
  {| tasks := alter tk this (tasks w);
     managers := managers w;
     children := children w
       ++ [{| spawnfile := command (task w this);
              listeners := regs;
              kills := [] |}];
     signals := match signal with
                | Some s =>
                    alter (λ sg, {| aborted := aborted sg;
                                    abort_listeners :=
                                      ls (abort_listeners sg) |})
                      s (signals w)
                | None => signals w
                end;
     promises := promises w ++ [{| state := o; reactions := [] |}];
     arrays := arrays w;
     executor := executor w |}.

(** The heap after [this.run(signal)] has launched a child process, with
    the state [o] of the returned promise. *)
Definition launched (w : World) (this : ref) (signal : option ref)
    (o : option Outcome) : World :=
  let c := length (children w) in
  run_heap w this signal
    (λ t, {| id := id t; command := command t;
             _childProcess := Some c; _isRunning := true |})
    (run_registrations this signal c (length (promises w)))
    (λ l, l ++ [onAbort c]) o.

(** The heap after [this.run(signal)] when [spawn] has thrown [thrown]: the
    flag is set, the promise is rejected, nothing else has changed. *)
Definition refused (w : World) (this : ref) (thrown : Error) : World :=
  {| tasks := alter (λ t, {| id := id t; command := command t;
                             _childProcess := _childProcess t;
                             _isRunning := true |}) this (tasks w);
     managers := managers w;
     children := children w;
     signals := signals w;
     promises := promises w
       ++ [{| state := Some (Rejected thrown); reactions := [] |}];
     arrays := arrays w;
     executor := executor w |}.

(** The heap after that child process has reported its exit. *)
Definition exited (w : World) (this : ref) (signal : option ref)
    (o : option Outcome) : World :=
  let c := length (children w) in
  run_heap w this signal
    (λ t, {| id := id t; command := command t;
             _childProcess := None; _isRunning := false |})
    []
    (λ l, remove_first Listener_beq (onAbort c) (l ++ [onAbort c])) o.

(** ** Sequences of calls and events *)

(** The invariant of the task objects: a task that holds a child process
    is running.  (The converse fails: when [spawn] throws in [run], the
    task is left running without a child process.) *)
Definition consistent (w : World) : Prop :=
  ∀ this t, tasks w !! this = Some t →
            is_Some (_childProcess t) → _isRunning t = true.

(** What can happen to a heap: a call of a constructor or method of the
    two classes, a new abort signal, or an event from the environment. *)
Inductive Action : Type :=
| do_new (i : Z) (cmd : string)
| do_run (this : ref) (signal : option ref)
| do_memoize (this : ref)
| do_new_Manager (processes : list ref)
| do_addProcess (this process : ref)
| do_removeProcess (this : ref) (i : Z)
| do_runAll (this : ref) (signal : option ref)
| do_new_AbortSignal
| do_event (e : Event).

Definition perform (w : World) (a : Action) : World :=
  match a with
  | do_new i cmd => fst (new_PredictedProcess i cmd w)
  | do_run this signal => fst (run this signal w)
  | do_memoize this => fst (memoize this w)
  | do_new_Manager processes => fst (new_Manager processes w)
  | do_addProcess this process => fst (addProcess this process w)
  | do_removeProcess this i => fst (removeProcess this i w)
  | do_runAll this signal => fst (runAll this signal w)
  | do_new_AbortSignal => fst (new_AbortSignal w)
  | do_event e => deliver w e
  end.

(** ** Promises and the closures that settle them *)

(** The promise whose [resolve] or [reject] a closure holds. *)
Definition settles (l : Listener) : option ref :=
  match l with
  | onExit _ promise | onError promise | onClose _ promise
  | onAbortAll _ promise => Some promise
  | onAbort _ | removeOnAbort _ _ => None
  end.

(** No closure that is registered in the heap can settle the promise
    [p]. *)
Definition out_of_reach (w : World) (p : ref) : Prop :=
  (∀ c r, r ∈ child_listeners w c → settles (listener r) ≠ Some p)
  ∧ (∀ s l, l ∈ signal_listeners w s → settles l ≠ Some p).

(** The closures that are registered in the heap hold promises of the heap
    only. *)
Definition bounded (w : World) : Prop :=
  ∀ p, (length (promises w) <= p)%nat → out_of_reach w p.

(** From [w] to [w'] no listener was added and the promise [p] was not
    touched. *)
Definition shrinks (p : ref) (w w' : World) : Prop :=
  (∀ c, child_listeners w' c ⊆ child_listeners w c)
  ∧ (∀ s, signal_listeners w' s ⊆ signal_listeners w s)
  ∧ promise_state w' p = promise_state w p.

(** No exit listener of the task [this] is registered: no child process
    can report the end of an execution of it. *)
Definition unheld (w : World) (this : ref) : Prop :=
  ∀ c r p, r ∈ child_listeners w c → listener r ≠ onExit this p.

(** ** The outcome of a batch, read off the events

    The definitions of this section follow the description of [runAll], not
    its code; they are compared with the code below. *)

(** The ids of the tasks of the group, in the order of the group. *)
Definition ids (ts : list PredictedProcess) (procs : list ref) : list Z :=
  (λ process, id (task (group ts procs) process)) <$> procs.

(** What an event says of the k-th process of the group, whose task has the
    id [i]: a 'close' with code 0 is its success, a 'close' with another
    code, an 'error' of the executor and the triggering of the signal given
    to [runAll] are its failure; other events do not concern it. *)
Definition report (withSignal : bool) (k : nat) (i : Z) (e : Event)
    : option Outcome :=
  match e with
  | Close c code _ =>
      if Nat.eqb c k
      then Some (match code with
                 | Some 0%Z => Resolved
                 | _ => Rejected (ProcessExited i code)
                 end)
      else None
  | ErrorEvent c err =>
      if Nat.eqb c k then Some (Rejected (ExecutorError err)) else None
  | Abort s =>
      if withSignal && Nat.eqb s 0 then Some (Rejected AbortSignalTriggered)
      else None
  | Exit _ _ _ => None
  end.

(** The fate of the k-th process: the first event that concerns it
    decides. *)
Definition fate (withSignal : bool) (k : nat) (i : Z) (trace : list Event)
    : option Outcome :=
  head (omap (report withSignal k i) trace).

(** The processes that fail at the event [e], after the events [before]:
    their causes, in the order of the group. *)
Definition failures_at (withSignal : bool) (ids : list Z)
    (before : list Event) (e : Event) : list Error :=
  omap (λ x, x)
    (imap (λ k i, match fate withSignal k i before with
                  | None => rejection (report withSignal k i e)
                  | Some _ => None
                  end) ids).

(** The causes of the failures, in the order in which the processes
    fail. *)
Fixpoint causes_from (withSignal : bool) (ids : list Z)
    (before trace : list Event) : list Error :=
  match trace with
  | [] => []
  | e :: trace =>
      failures_at withSignal ids before e
      ++ causes_from withSignal ids (before ++ [e]) trace
  end.

Definition causes (withSignal : bool) (ids : list Z) (trace : list Event)
    : list Error :=
  causes_from withSignal ids [] trace.

(** * Properties *)

(** ** Facts about the heap operations *)

Lemma is_zero_spec code : is_zero code = true ↔ code = Some 0%Z.
Proof.
  destruct code as [[| |]|]; simpl; split; intros; congruence.
Qed.

Lemma is_zero_nonzero (n : Z) : n ≠ 0%Z → is_zero (Some n) = false.
Proof. destruct n; simpl; congruence. Qed.

Lemma is_SIGABRT_or_null_spec signal :
  is_SIGABRT_or_null signal = true ↔ signal = None ∨ signal = Some "SIGABRT".
Proof.
  destruct signal as [s|]; simpl.
  - rewrite String.eqb_eq. split; [intros ->; by right|].
    intros [|]; congruence.
  - split; [by left|done].
Qed.

(** ** Lists *)

Lemma alter_snoc {A} (f : A → A) (l : list A) (x : A) :
  alter f (length l) (l ++ [x]) = l ++ [f x].
Proof.
  rewrite <- (Nat.add_0_r (length l)). by rewrite alter_app_r.
Qed.

Lemma alter_None {A} (f : A → A) (l : list A) (k : nat) :
  l !! k = None → alter f k l = l.
Proof.
  intros Hk. apply list_eq. intros j. rewrite list_lookup_alter.
  destruct (decide (k = j)) as [->|]; [|done]. by rewrite Hk.
Qed.

Lemma alter_middle {A} (f : A → A) (l1 l2 : list A) (x : A) :
  alter f (length l1) (l1 ++ x :: l2) = l1 ++ f x :: l2.
Proof.
  rewrite <- (Nat.add_0_r (length l1)). by rewrite alter_app_r.
Qed.

Lemma imap_alter_single {A} (f : nat → A → A) (l : list A) c :
  (∀ j x, j ≠ c → f j x = x) → imap f l = alter (f c) c l.
Proof.
  intros Hf. apply list_eq. intros j.
  rewrite list_lookup_imap, list_lookup_alter.
  destruct (decide (c = j)) as [->|Hne]; [done|].
  destruct (l !! j) as [x|]; [|done]. cbn. by rewrite Hf.
Qed.

Lemma imap_same {A} (f : nat → A → A) (l : list A) :
  (∀ j x, f j x = x) → imap f l = l.
Proof.
  intros Hf. apply list_eq. intros j. rewrite list_lookup_imap.
  destruct (l !! j) as [x|]; [|done]. cbn. by rewrite Hf.
Qed.

Lemma omap_imap_single {A B} (f : nat → A → option B) (l : list A) : ∀ c,
  (∀ j x, j ≠ c → l !! j = Some x → f j x = None) →
  omap (λ x, x) (imap f l)
  = match l !! c with Some x => option_list (f c x) | None => [] end.
Proof.
  revert f. induction l as [|x l IH]; intros f c Hf; [done|].
  rewrite imap_cons. cbn [omap list_omap].
  destruct c as [|c]; cbn [lookup list_lookup].
  - rewrite (IH (f ∘ S) (length l)).
    + rewrite (proj2 (lookup_ge_None l (length l))) by lia.
      by destruct (f 0 x).
    + intros j y _ Hj. apply (Hf (S j)); done.
  - rewrite (Hf 0 x) by done. apply (IH (f ∘ S) c).
    intros j y Hne Hj. apply (Hf (S j)); [lia|done].
Qed.

Lemma omap_imap_none {A B} (f : nat → A → option B) (l : list A) :
  (∀ j x, l !! j = Some x → f j x = None) →
  omap (λ x, x) (imap f l) = [].
Proof.
  intros Hf. rewrite (omap_imap_single f l (length l)).
  - by rewrite (proj2 (lookup_ge_None l (length l))) by lia.
  - intros j x _. apply Hf.
Qed.

Lemma omap_imap_const {A B} (f : A → option B) (l : list A) :
  omap (λ x, x) (imap (λ _, f) l) = omap f l.
Proof.
  change (λ _ : nat, f) with (const (B:=nat) f).
  rewrite imap_const. induction l as [|x l IH]; [done|].
  cbn. rewrite IH. done.
Qed.

Lemma omap_ext_in {A B} (f g : A → option B) (l : list A) :
  (∀ x, x ∈ l → f x = g x) → omap f l = omap g l.
Proof.
  induction l as [|x l IH]; intros H; [done|]. cbn.
  rewrite (H x) by apply list_elem_of_here.
  rewrite IH; [done|]. intros y Hy. apply H. by apply list_elem_of_further.
Qed.

Lemma omap_imap_seq {A B} (f : nat → A → option B) (l : list A) :
  omap (λ x, x) (imap f l) = omap (λ k, l !! k ≫= f k) (seq 0 (length l)).
Proof.
  induction l as [|x l IH] using rev_ind; [done|].
  rewrite imap_app, length_app, Nat.add_1_r, seq_S, !omap_app, IH.
  f_equal.
  - apply omap_ext_in. intros k Hk. apply elem_of_seq in Hk.
    by rewrite lookup_app_l by lia.
  - cbn. rewrite list_lookup_middle by done. cbn.
    by rewrite Nat.add_0_r.
Qed.

Lemma omap_lookup_seq {A B} (f : A → option B) (l : list A) :
  omap f l = omap (λ k, l !! k ≫= f) (seq 0 (length l)).
Proof. by rewrite <- (omap_imap_const f l), omap_imap_seq. Qed.

(** ** spawn *)

Lemma spawn_launches cmd w :
  launches w cmd →
  spawn cmd w
  = inr (with_children
           (λ cs, cs ++ [{| spawnfile := cmd; listeners := [];
                            kills := [] |}]) w,
         length (children w)).
Proof. unfold launches, spawn. by intros ->. Qed.

Lemma spawn_refuses cmd w err :
  spawn_throws w cmd = Some err → spawn cmd w = inl err.
Proof. unfold spawn. by intros ->. Qed.

(** In the scenarios the executor refuses no command that Node accepts. *)
Lemma launches_scenario i cmd :
  launches (task_and_signal i cmd) cmd ↔ invalid_command cmd = false.
Proof.
  unfold launches, spawn_throws.
  destruct (invalid_command cmd); [done|]. by vm_compute.
Qed.

(** ** A launch *)

Ltac heap_cbv :=
  cbv [on_ once_ add_registration remove_registration removeAllListeners
       kill addEventListener removeEventListener new_Promise new_array
       spawn spawn_throws push set_state set_childProcess set_isRunning mark_aborted
       with_tasks with_managers with_children with_signals with_promises
       with_arrays task manager promise_state array signal_aborted
       child_kills child_listeners signal_listeners already_aborted
       tasks managers children signals promises arrays executor fst snd].

Lemma Listener_beq_refl l : Listener_beq l l = true.
Proof.
  destruct l; cbn; rewrite ?Nat.eqb_refl, ?Z.eqb_refl; done.
Qed.

Lemma Registration_beq_refl r : Registration_beq r r = true.
Proof.
  unfold Registration_beq. rewrite Listener_beq_refl.
  by destruct (event r), (once r).
Qed.

Lemma live_not_aborted w signal :
  live w signal → already_aborted signal w = false.
Proof.
  destruct signal as [s|]; [|done]. intros (sg & Hs & Ha).
  unfold already_aborted, signal_aborted. by rewrite Hs.
Qed.

Ltac heap_cbv' :=
  cbv [on_ once_ add_registration remove_registration removeAllListeners
       kill addEventListener removeEventListener new_Promise new_array
       spawn spawn_throws push set_state set_childProcess set_isRunning mark_aborted
       with_tasks with_managers with_children with_signals with_promises
       with_arrays task manager promise_state array signal_aborted
       child_kills child_listeners signal_listeners already_aborted
       resolve reject run_heap launched exited
       tasks managers children signals promises arrays executor fst snd].

Lemma lookup_snoc_last {A} (l : list A) (x : A) :
  (l ++ [x]) !! length l = Some x.
Proof. by apply list_lookup_middle. Qed.

Lemma spawn_throws_executor w w' cmd :
  executor w' = executor w → spawn_throws w' cmd = spawn_throws w cmd.
Proof. unfold spawn_throws. by intros ->. Qed.

(** [run] spawns the command of the task in a heap that differs from the
    heap of the call by the flag and the new promise. *)
Lemma run_spawn_launches w this t :
  tasks w !! this = Some t →
  let w1 := fst (new_Promise None (set_isRunning this true w)) in
  command (task w1 this) = command (task w this)
  ∧ ∀ cmd, spawn_throws w1 cmd = spawn_throws w cmd.
Proof.
  intros Ht w1. split; [|intros cmd; by apply spawn_throws_executor].
  unfold w1, task, new_Promise, set_isRunning, with_promises, with_tasks.
  cbn [fst tasks]. by rewrite list_lookup_alter, decide_True, Ht.
Qed.

(** A launch: what [run] does when it gets past its two checks and [spawn]
    does not throw. *)
Lemma run_launched w this signal :
  idle w this → live w signal → launches w (command (task w this)) →
  run this signal w = (launched w this signal None, length (promises w)).
Proof.
  intros (t & Ht & Hidle) Hlive Hl. unfold run.
  rewrite (live_not_aborted _ _ Hlive).
  replace (_isRunning (task w this)) with false
    by (unfold task; by rewrite Ht).
  destruct (run_spawn_launches w this t Ht) as [Hc Hs].
  change (new_Promise None (set_isRunning this true w))
    with (fst (new_Promise None (set_isRunning this true w)),
          length (promises w)).
  cbv beta iota zeta. rewrite spawn_launches.
  2:{ unfold launches. by rewrite Hs, Hc. }
  rewrite Hc. clear Hc Hs Hl.
  destruct w as [ts ms cs ss prs ars ex]. cbn [tasks] in Ht.
  destruct signal as [s|]; heap_cbv'.
  - rewrite ?list_lookup_alter, ?decide_True, ?Ht by done. cbn.
    f_equal. f_equal.
    + rewrite list_alter_alter_eq. by apply list_alter_ext.
    + rewrite !alter_snoc. done.
  - rewrite ?list_lookup_alter, ?decide_True, ?Ht by done. cbn.
    f_equal. f_equal.
    + rewrite list_alter_alter_eq. by apply list_alter_ext.
    + rewrite !alter_snoc. done.
Qed.

(** Discharges the side conditions of [run_launched] on a heap that is
    given in full, for a command that [H] says is launched. *)
Ltac launch H :=
  rewrite run_launched;
    [ | eexists; split; vm_compute; reflexivity
      | vm_compute; first [exact I | eexists; split; reflexivity]
      | let H' := fresh in
        pose proof H as H'; vm_compute; vm_compute in H'; exact H' ].

(** A launch that fails: what [run] does when it gets past its two checks
    and [spawn] throws. *)
Lemma run_refused w this signal thrown :
  idle w this → live w signal →
  spawn_throws w (command (task w this)) = Some thrown →
  run this signal w = (refused w this thrown, length (promises w)).
Proof.
  intros (t & Ht & Hidle) Hlive Hl. unfold run.
  rewrite (live_not_aborted _ _ Hlive).
  replace (_isRunning (task w this)) with false
    by (unfold task; by rewrite Ht).
  destruct (run_spawn_launches w this t Ht) as [Hc Hs].
  change (new_Promise None (set_isRunning this true w))
    with (fst (new_Promise None (set_isRunning this true w)),
          length (promises w)).
  cbv beta iota zeta. rewrite (spawn_refuses _ _ thrown) by (by rewrite Hs, Hc).
  destruct w as [ts ms cs ss prs ars ex].
  unfold reject, refused. heap_cbv. rewrite lookup_snoc_last. cbn.
  by rewrite alter_snoc.
Qed.

(** An event of a child process that does not exist reaches no
    listener. *)
Lemma emit_no_child c ev a w : children w !! c = None → emit c ev a w = w.
Proof. intros Hc. unfold emit, child_listeners. by rewrite Hc. Qed.

(** The scenarios, for a command that is launched. *)
Lemma running_launched i cmd withSignal :
  launches (task_and_signal i cmd) cmd →
  running i cmd withSignal
  = launched (task_and_signal i cmd) 0 (context withSignal) None.
Proof.
  intros H. unfold running. by destruct withSignal; launch H.
Qed.

Lemma memoized_running_launched i cmd withSignal :
  launches (task_and_signal i cmd) cmd →
  memoized_running i cmd withSignal
  = launched (fst (memoize 0 (task_and_signal i cmd))) 1
      (context withSignal) None.
Proof.
  intros H. unfold memoized_running.
  replace (memoize 0 (task_and_signal i cmd))
    with (fst (memoize 0 (task_and_signal i cmd)), 1)
    by (vm_compute; reflexivity).
  cbv beta iota zeta. by destruct withSignal; launch H.
Qed.

(** ** PredictedProcess.run *)

(** The exit path of [run] does the cleanup: whatever the exit report, the
    task is idle again, holds no child process, and neither the child
    process nor the signal keeps a listener; a new [run] then launches a
    process. *)
Lemma run_exit_cleans_up i cmd withSignal code signal :
  launches (task_and_signal i cmd) cmd →
  let w := after [Exit 0 code signal] (running i cmd withSignal) in
  _isRunning (task w 0) = false
  ∧ _childProcess (task w 0) = None
  ∧ child_listeners w 0 = []
  ∧ signal_listeners w 0 = []
  ∧ length (children (fst (run 0 (context withSignal) w))) = 2.
Proof.
  intros H. rewrite running_launched by done.
  assert (Hrun : ∀ o,
    let w := after [Exit 0 code signal] (running i cmd withSignal) in
    w = exited (task_and_signal i cmd) 0 (context withSignal) (Some o) →
    _isRunning (task w 0) = false
    ∧ _childProcess (task w 0) = None
    ∧ child_listeners w 0 = []
    ∧ signal_listeners w 0 = []
    ∧ length (children (fst (run 0 (context withSignal) w))) = 2).
  { intros o w ->.
    destruct withSignal; launch H; vm_compute; repeat split; reflexivity. }
  rewrite running_launched in Hrun by done.
  destruct withSignal; apply (Hrun (exit_outcome code signal));
    lazy -[is_zero is_SIGABRT_or_null];
    by destruct (is_zero code), (is_SIGABRT_or_null signal).
Qed.

(** C1, as the code has it: [memoize] keeps no cache.  After [M.run(K)] has
    resolved, a second [M.run(K)] spawns a second child process for the same
    command and returns a pending promise, where the claim has it resolve at
    once without a new process.  The command is any command that [spawn]
    launches, as it must be for the first run to complete. *)
Theorem memoize_run_again_spawns i cmd withSignal :
  launches (task_and_signal i cmd) cmd →
  let w1 := after [Exit 0 (Some 0%Z) None] (memoized_running i cmd withSignal) in
  let '(w2, p2) := run 1 (context withSignal) w1 in
  promise_state w1 0 = Some Resolved
  ∧ length (children w1) = 1
  ∧ length (children w2) = 2
  ∧ spawnfile <$> children w2 !! 1 = Some cmd
  ∧ promise_state w2 p2 = None.
Proof.
  intros H. rewrite memoized_running_launched by done. cbv zeta.
  destruct withSignal; launch H; vm_compute; repeat split; reflexivity.
Qed.

Lemma memoize_run_again_spawns_witness :
  let w1 := after [Exit 0 (Some 0%Z) None] (memoized_running 1 "exit 0" true) in
  let '(w2, p2) := run 1 (context true) w1 in
  promise_state w1 0 = Some Resolved
  ∧ length (children w1) = 1
  ∧ length (children w2) = 2
  ∧ spawnfile <$> children w2 !! 1 = Some "exit 0"
  ∧ promise_state w2 p2 = None.
Proof. apply (memoize_run_again_spawns 1 "exit 0" true). reflexivity. Defined.

(** C2, as the code has it: an exit with code [n ≠ 0] and no signal is
    classified by [signal === null] before the exit code is looked at, so
    [run] rejects with "Process aborted with signal: null", where the claim
    has "Process failed with code n".  The command is any command that
    [spawn] launches, as it must be for a process to exit. *)
Theorem run_nonzero_exit_is_reported_aborted i cmd withSignal (n : Z) :
  launches (task_and_signal i cmd) cmd →
  n ≠ 0%Z →
  promise_state (after [Exit 0 (Some n) None] (running i cmd withSignal)) 0
  = Some (Rejected (ProcessAborted None)).
Proof.
  intros H Hn. rewrite running_launched by done.
  destruct withSignal; lazy -[is_zero];
    rewrite (is_zero_nonzero n Hn); reflexivity.
Qed.

Lemma run_nonzero_exit_is_reported_aborted_witness :
  promise_state (after [Exit 0 (Some 7%Z) None] (running 1 "exit 7" false)) 0
  = Some (Rejected (ProcessAborted None)).
Proof.
  apply (run_nonzero_exit_is_reported_aborted 1 "exit 7" false 7);
    [reflexivity|lia].
Defined.

(** C3, as the code has it: the 'error' listener of [run] only rejects.
    After an executor error the task still holds the child process, the
    child process still has its listeners, the signal still has the abort
    listener, [_isRunning] is still [true], and a new [run] on the same
    instance is rejected with "Process is already running".  The command
    is any command that [spawn] launches: the error is one that the
    executor reports by the 'error' event of the child process. *)
Theorem run_error_path_skips_cleanup i cmd err :
  launches (task_and_signal i cmd) cmd →
  let w1 := after [ErrorEvent 0 err] (running i cmd true) in
  let '(w2, p2) := run 0 (Some 0) w1 in
  promise_state w1 0 = Some (Rejected (ExecutorError err))
  ∧ _isRunning (task w1 0) = true
  ∧ _childProcess (task w1 0) = Some 0
  ∧ length (child_listeners w1 0) = 3
  ∧ signal_listeners w1 0 = [onAbort 0]
  ∧ promise_state w2 p2 = Some (Rejected ProcessAlreadyRunning)
  ∧ children w2 = children w1.
Proof.
  intros H. rewrite running_launched by done.
  vm_compute. repeat split; reflexivity.
Qed.

Lemma run_error_path_skips_cleanup_witness :
  let w1 := after [ErrorEvent 0 "spawn /bin/sh EMFILE"]
              (running 1 "sleep 5" true) in
  let '(w2, p2) := run 0 (Some 0) w1 in
  promise_state w1 0 = Some (Rejected (ExecutorError "spawn /bin/sh EMFILE"))
  ∧ _isRunning (task w1 0) = true
  ∧ _childProcess (task w1 0) = Some 0
  ∧ length (child_listeners w1 0) = 3
  ∧ signal_listeners w1 0 = [onAbort 0]
  ∧ promise_state w2 p2 = Some (Rejected ProcessAlreadyRunning)
  ∧ children w2 = children w1.
Proof.
  apply (run_error_path_skips_cleanup 1 "sleep 5" "spawn /bin/sh EMFILE").
  reflexivity.
Defined.

(** C4, as the code has it: the object [memoize] returns is a plain
    [PredictedProcess], so a second [M.run(K)] while the first is in flight
    is rejected with "Process is already running"; when the process then
    exits with code 0 the first call resolves and the second stays
    rejected.  One process is launched.  The command is any command that
    [spawn] launches, as it must be for an execution to be in flight. *)
Theorem memoize_concurrent_run_rejected i cmd withSignal :
  launches (task_and_signal i cmd) cmd →
  let '(w2, p2) := run 1 (context withSignal)
                     (memoized_running i cmd withSignal) in
  let w3 := after [Exit 0 (Some 0%Z) None] w2 in
  promise_state w2 0 = None
  ∧ promise_state w2 p2 = Some (Rejected ProcessAlreadyRunning)
  ∧ length (children w3) = 1
  ∧ promise_state w3 0 = Some Resolved
  ∧ promise_state w3 p2 = Some (Rejected ProcessAlreadyRunning).
Proof.
  intros H. rewrite memoized_running_launched by done.
  destruct withSignal; vm_compute; repeat split; reflexivity.
Qed.

Lemma memoize_concurrent_run_rejected_witness :
  let '(w2, p2) := run 1 (context true) (memoized_running 1 "sleep 1" true) in
  let w3 := after [Exit 0 (Some 0%Z) None] w2 in
  promise_state w2 0 = None
  ∧ promise_state w2 p2 = Some (Rejected ProcessAlreadyRunning)
  ∧ length (children w3) = 1
  ∧ promise_state w3 0 = Some Resolved
  ∧ promise_state w3 p2 = Some (Rejected ProcessAlreadyRunning).
Proof.
  apply (memoize_concurrent_run_rejected 1 "sleep 1" true). reflexivity.
Defined.

(** C8: when the signal passed to [run] is already aborted, the promise
    [run] returns is rejected at once with "AbortSignal already aborted";
    no child process is spawned and neither the task nor the signal is
    touched.  This holds for every heap and every task, so for every
    command, and for the object [memoize] returns as well. *)
Theorem run_already_aborted (w : World) (this s : ref) :
  signal_aborted w s = true →
  let r := run this (Some s) w in
  promise_state (fst r) (snd r) = Some (Rejected AbortSignalAlreadyAborted)
  ∧ children (fst r) = children w
  ∧ tasks (fst r) = tasks w
  ∧ signals (fst r) = signals w.
Proof.
  intros Hs. unfold run. simpl. rewrite Hs. simpl.
  repeat split. unfold promise_state. simpl.
  by rewrite lookup_app_r, Nat.sub_diag.
Qed.

Lemma run_already_aborted_witness :
  let w := after [Abort 0] (task_and_signal 1 "sleep 5") in
  signal_aborted w 0 = true
  ∧ promise_state (fst (run 0 (Some 0) w)) (snd (run 0 (Some 0) w))
    = Some (Rejected AbortSignalAlreadyAborted)
  ∧ children (fst (run 0 (Some 0) w)) = children w
  ∧ tasks (fst (run 0 (Some 0) w)) = tasks w
  ∧ signals (fst (run 0 (Some 0) w)) = signals w.
Proof.
  split; [reflexivity|].
  apply (run_already_aborted
           (after [Abort 0] (task_and_signal 1 "sleep 5")) 0 0).
  reflexivity.
Defined.

(** What [run] does when the signal is triggered while it is in flight:
    the abort listener requests termination of the child process with
    SIGABRT and leaves the promise pending; the exit report that follows
    decides alone.  With a code other than 0 and the signal SIGABRT or no
    signal [run] rejects with "Process aborted"; with code 0 it resolves;
    with a code other than 0 and another signal it rejects with "Process
    failed". *)
Lemma run_abort_then_exit i cmd code signal :
  launches (task_and_signal i cmd) cmd →
  let w1 := after [Abort 0] (running i cmd true) in
  let w2 := after [Abort 0; Exit 0 code signal] (running i cmd true) in
  child_kills w1 0 = ["SIGABRT"]
  ∧ promise_state w1 0 = None
  ∧ (code ≠ Some 0%Z → signal = None ∨ signal = Some "SIGABRT" →
     promise_state w2 0 = Some (Rejected (ProcessAborted signal)))
  ∧ (code = Some 0%Z → promise_state w2 0 = Some Resolved)
  ∧ (code ≠ Some 0%Z → signal ≠ None → signal ≠ Some "SIGABRT" →
     promise_state w2 0 = Some (Rejected (ProcessFailed code))).
Proof.
  intros H w1 w2. subst w1 w2. rewrite running_launched by done.
  set (w1 := after [Abort 0] _). set (w2 := after [Abort 0; _] _).
  assert (H2 : promise_state w2 0
               = Some (if is_zero code then Resolved
                       else if is_SIGABRT_or_null signal
                            then Rejected (ProcessAborted signal)
                            else Rejected (ProcessFailed code))).
  { unfold w2. lazy -[is_zero is_SIGABRT_or_null].
    by destruct (is_zero code), (is_SIGABRT_or_null signal). }
  split; [by vm_compute|]. split; [by vm_compute|].
  rewrite H2. repeat split.
  - intros Hc Hs. apply is_SIGABRT_or_null_spec in Hs. rewrite Hs.
    destruct (is_zero code) eqn:Hz; [|done]. by apply is_zero_spec in Hz.
  - intros ->. done.
  - intros Hc Hs1 Hs2.
    destruct (is_zero code) eqn:Hz; [by apply is_zero_spec in Hz|].
    destruct (is_SIGABRT_or_null signal) eqn:Hs; [|done].
    apply is_SIGABRT_or_null_spec in Hs. by destruct Hs.
Qed.

(** C9, as the code has it: the signal is triggered while [run] is in
    flight and termination is requested with SIGABRT; the executor then
    reports an exit with code 0 and no signal (here the command handles
    SIGABRT; the same report arrives when the process had ended before the
    request took effect).  [onExit] looks at the exit code first, so [run]
    resolves, where the claim (and the doc comment of [run]) has it
    reject. *)
Theorem run_abort_then_exit_zero_resolves :
  let cmd := "trap : ABRT; sleep 1" in
  let w1 := after [Abort 0] (running 1 cmd true) in
  let w2 := after [Abort 0; Exit 0 (Some 0%Z) None] (running 1 cmd true) in
  signal_aborted w1 0 = true
  ∧ child_kills w1 0 = ["SIGABRT"]
  ∧ promise_state w1 0 = None
  ∧ promise_state w2 0 = Some Resolved.
Proof. vm_compute. repeat split; reflexivity. Qed.

(** ** The manager's collection *)

Lemma removeProcess_processes (w : World) (this : nat) (i : Z) :
  processes this (fst (removeProcess this i w))
  = filter (λ process, id (task w process) ≠ i) (processes this w).
Proof.
  unfold processes, manager, removeProcess. cbn.
  rewrite list_lookup_alter. rewrite decide_True by done.
  by destruct (managers w !! this).
Qed.

(** C10: [removeProcess(id)] returns the manager it was called on (as
    [addProcess] does); afterwards no task of the manager has the given id,
    and the tasks with another id are the same sequence as before, so every
    task with that id is gone and the order of the others is kept; when no
    task has the id, nothing changes.  Task objects and other managers are
    not touched. *)
Theorem removeProcess_spec (w : World) (this : nat) (i : Z) :
  let w' := fst (removeProcess this i w) in
  snd (removeProcess this i w) = this
  ∧ (∀ process, snd (addProcess this process w) = this)
  ∧ (∀ process, process ∈ processes this w' → id (task w' process) ≠ i)
  ∧ filter (λ process, id (task w process) ≠ i) (processes this w')
    = filter (λ process, id (task w process) ≠ i) (processes this w)
  ∧ processes this w' `sublist_of` processes this w
  ∧ ((∀ process, process ∈ processes this w → id (task w process) ≠ i) →
     w' = w)
  ∧ tasks w' = tasks w
  ∧ (∀ m, m ≠ this → processes m w' = processes m w).
Proof.
  intros w'. unfold w'.
  split; [done|]. split; [done|]. split; [|split; [|split; [|split]]].
  - intros process. rewrite removeProcess_processes.
    intros Hin. apply list_elem_of_filter in Hin. by destruct Hin.
  - rewrite removeProcess_processes. by rewrite list_filter_filter_r.
  - rewrite removeProcess_processes. apply sublist_filter.
  - intros Hall. unfold removeProcess, with_managers. cbn.
    destruct w as [ts ms cs ss ps ars]. cbn in *. f_equal.
    apply list_eq. intros m. rewrite list_lookup_alter.
    destruct (decide (this = m)) as [<-|]; [|done].
    unfold processes, manager in Hall. cbn in Hall.
    destruct (ms !! this) as [l|] eqn:Hl; [|done]. cbn. f_equal.
    cbn in Hall. clear Hl. induction l as [|x l IH]; [done|].
    rewrite filter_cons_True.
    + f_equal. apply IH. intros p Hp. apply Hall. by apply list_elem_of_further.
    + apply Hall. apply list_elem_of_here.
  - split; [done|]. intros m Hm. unfold processes, manager, removeProcess.
    cbn. by rewrite list_lookup_alter_ne.
Qed.

Lemma removeProcess_spec_witness :
  let w := fst (new_Manager [0; 1; 2; 1]
             (fst (new_PredictedProcess 5 "c"
               (fst (new_PredictedProcess 7 "b"
                 (fst (new_PredictedProcess 5 "a" empty_world))))))) in
  processes 0 w = [0; 1; 2; 1]
  ∧ processes 0 (fst (removeProcess 0 5%Z w)) = [1; 1]
  ∧ fst (removeProcess 0 9%Z w) = w.
Proof.
  split; [by vm_compute|]. split; [by vm_compute|].
  apply (removeProcess_spec
           (fst (new_Manager [0; 1; 2; 1]
             (fst (new_PredictedProcess 5 "c"
               (fst (new_PredictedProcess 7 "b"
                 (fst (new_PredictedProcess 5 "a" empty_world)))))))) 0 9%Z).
  intros process Hin. apply list_elem_of_In in Hin. vm_compute in Hin.
  destruct Hin as [<-|[<-|[<-|[<-|[]]]]]; vm_compute; discriminate.
Defined.

(** ** PredictedProcessesManager.runAll

    The heap of a started batch has the closed form [batch_heap], and every
    event keeps it in that form, changing the slots as [batch_step] says.
    The properties of [runAll] are then read off the slots. *)

Ltac heap_unfold :=
  unfold on_, once_, add_registration, remove_registration, removeAllListeners,
    kill, addEventListener, removeEventListener, new_Promise, new_array,
    spawn, push, set_state, set_childProcess, set_isRunning,
    with_tasks, with_managers, with_children, with_signals, with_promises,
    with_arrays, task, manager, promise_state, array, signal_aborted,
    child_kills, child_listeners, signal_listeners in *.

Ltac heap_simpl :=
  heap_unfold;
  cbn [tasks managers children signals promises arrays batch_world
       fst snd] in *.

(** A manager without processes. *)
#[global] Instance launchable_nil ts : launchable ts [].
Proof. constructor. Qed.

Section Batch.
Context (ts : list PredictedProcess) (procs : list ref) (withSignal : bool).

Local Abbreviation bw := (batch_world ts procs withSignal).

(** One turn of the [for] loop adds one slot, when [spawn] launches the
    command. *)
Lemma runAll_spawn_batch slots process :
  launches (group ts procs) (command (task (group ts procs) process)) →
  runAll_spawn (context withSignal)
    (bw (λ _, []) [] slots false, seq 0 (length slots)) process
  = (bw (λ _, []) [] (slots ++ [new_slot ts process]) false,
     seq 0 (length (slots ++ [new_slot ts process]))).
Proof.
  intros Hl. unfold runAll_spawn.
  change (new_Promise None (bw (λ _, []) [] slots false))
    with (fst (new_Promise None (bw (λ _, []) [] slots false)),
          length (promises (bw (λ _, []) [] slots false))).
  cbv beta iota zeta. rewrite spawn_launches by exact Hl.
  heap_simpl.
  rewrite !length_imap, length_app, Nat.add_1_r, seq_S. cbn [length].
  f_equal.
  assert (Hp : imap (slot_promise (λ _, [])) slots
                 ++ [{| state := None; reactions := [] |}]
               = imap (slot_promise (λ _, [])) (slots ++ [new_slot ts process])).
  { by rewrite imap_app. }
  destruct withSignal; cbn [context]; heap_simpl; unfold batch_world;
    rewrite Hp; f_equal.
  - rewrite <- (length_imap slot_child slots) at 1 2.
    rewrite !alter_snoc, imap_app. cbn. by rewrite Nat.add_0_r.
  - cbn. by rewrite length_app, Nat.add_1_r, seq_S, fmap_app.
  - rewrite <- (length_imap slot_child slots) at 1 2.
    rewrite !alter_snoc, imap_app. cbn. by rewrite Nat.add_0_r.
Qed.

(** The [for] loop adds one slot per process, in order. *)
Lemma runAll_loop_batch ps : ∀ slots,
  Forall (λ process,
            launches (group ts procs)
              (command (task (group ts procs) process))) ps →
  foldl (runAll_spawn (context withSignal))
    (bw (λ _, []) [] slots false, seq 0 (length slots)) ps
  = (bw (λ _, []) [] (slots ++ (new_slot ts <$> ps)) false,
     seq 0 (length (slots ++ (new_slot ts <$> ps)))).
Proof.
  induction ps as [|p ps IH]; intros slots Hl; cbn [foldl fmap list_fmap].
  - by rewrite app_nil_r.
  - apply Forall_cons in Hl. destruct Hl as [Hp Hl].
    rewrite runAll_spawn_batch, IH by done. by rewrite <- app_assoc.
Qed.

(** Attaching the [catch] reaction to the next promise, which is
    pending. *)
Lemma catch_batch slots k :
  Forall (λ s, s_state s = None) slots →
  k < length slots →
  catch 0 (bw (caught k) [[]] slots false) k
  = bw (caught (S k)) [[]] slots false.
Proof.
  intros Hs Hk. unfold catch. heap_simpl.
  rewrite list_lookup_imap.
  destruct (lookup_lt_is_Some_2 slots k Hk) as [s Hks]. rewrite Hks. cbn.
  rewrite (proj1 (Forall_lookup _ _) Hs k s Hks).
  unfold batch_world. f_equal. apply list_eq. intros j.
  rewrite list_lookup_alter, !list_lookup_imap.
  unfold caught. destruct (decide (k = j)) as [->|Hne].
  - rewrite Hks. cbn. unfold slot_promise. cbn.
    rewrite decide_False by lia. rewrite decide_True by lia. done.
  - destruct (slots !! j) as [s'|]; [|done]. cbn. unfold slot_promise.
    do 2 f_equal. repeat case_decide; try done; lia.
Qed.

Lemma catch_loop_batch slots : ∀ m k,
  Forall (λ s, s_state s = None) slots →
  (k + m <= length slots)%nat →
  foldl (catch 0) (bw (caught k) [[]] slots false) (seq k m)
  = bw (caught (k + m)) [[]] slots false.
Proof.
  induction m as [|m IH]; intros k Hs Hk; cbn [seq foldl].
  - by rewrite Nat.add_0_r.
  - rewrite catch_batch by (done || lia). rewrite IH by (done || lia).
    by rewrite Nat.add_succ_r.
Qed.

(** The heap [runAll] leaves when it suspends: one pending slot per process
    of the manager, promise [k] for the k-th, and an empty [errors]. *)
Lemma started_batch `{!launchable ts procs} :
  started ts procs withSignal
  = (batch_heap ts procs withSignal
       {| b_slots := new_slot ts <$> procs; b_errors := [];
          b_aborted := false |},
     {| ra_promises := seq 0 (length procs); ra_errors := 0 |}).
Proof.
  unfold started, runAll.
  change (manager (group ts procs) 0) with procs.
  replace (group ts procs) with (bw (λ _, []) [] [] false)
    by (by destruct withSignal).
  pose proof (runAll_loop_batch procs [] launchable_commands) as H.
  cbn [length seq] in H.
  rewrite H. rewrite app_nil_l. clear H.
  unfold new_array. heap_simpl. 
  set (slots := new_slot ts <$> procs).
  assert (Hs : Forall (λ s, s_state s = None) slots).
  { apply Forall_fmap, Forall_true. done. }
  pose proof (catch_loop_batch slots (length slots) 0 Hs (le_n _)) as H.
  replace (bw (caught 0) [[]] slots false) with
    (bw (λ _, []) [[]] slots false) in H.
  2:{ unfold batch_world. f_equal. }
  f_equal.
  - etransitivity; [exact H|].
    unfold batch_heap, batch_world. cbn [b_slots b_errors b_aborted].
    f_equal. apply imap_ext. intros j s Hj.
    unfold slot_promise, caught. f_equal.
    rewrite decide_True; [done|]. by apply lookup_lt_Some in Hj.
  - f_equal. unfold slots. by rewrite length_fmap.
Qed.

Local Abbreviation bh := (batch_heap ts procs withSignal).

Lemma promises_alter (f : Slot → Slot) k slots :
  imap (slot_promise (λ _, [0])) (alter f k slots)
  = alter (λ pr, {| state := default (state pr) (s_state ∘ f <$> slots !! k);
                    reactions := reactions pr |}) k
      (imap (slot_promise (λ _, [0])) slots).
Proof.
  apply list_eq. intros j.
  repeat (rewrite list_lookup_imap || rewrite list_lookup_alter).
  destruct (decide (k = j)) as [->|]; [|done].
  by destruct (slots !! j).
Qed.

(** Settling promise [k]: nothing happens if it is settled already;
    otherwise its state is set and, for a rejection, the reason is pushed
    to [errors]. *)
Lemma settle_batch (k : nat) o slots errs ab :
  (match promises (bw (λ _, [0]) [errs] slots ab) !! k with
   | Some {| state := None; reactions := rs |} =>
       foldl (λ w a, match o with
                     | Rejected e => push a e w
                     | Resolved => w
                     end)
         (set_state k o (bw (λ _, [0]) [errs] slots ab)) rs
   | _ => bw (λ _, [0]) [errs] slots ab
   end)
  = bw (λ _, [0]) [errs ++ rejected_now slots k o]
      (alter (settle_slot o) k slots) ab.
Proof.
  unfold rejected_now. heap_simpl. rewrite list_lookup_imap.
  destruct (slots !! k) as [s|] eqn:Hk; rewrite ?Hk; cbn -[settle_slot].
  - destruct (s_state s) as [o'|] eqn:Hs; cbn -[settle_slot].
    + assert (Hset : settle_slot o s = s) by (unfold settle_slot; by rewrite Hs).
      rewrite ?Hset, ?Hs. cbn. rewrite app_nil_r.
      replace (alter (settle_slot o) k slots) with slots; [done|].
      apply list_eq. intros j. rewrite list_lookup_alter.
      destruct (decide (k = j)) as [->|]; [|done].
      rewrite Hk. cbn. by rewrite Hset.
    + assert (Hset : s_state (settle_slot o s) = Some o)
        by (unfold settle_slot; by rewrite Hs).
      assert (Hsl : imap (slot_promise (λ _, [0]))
                      (alter (settle_slot o) k slots)
                    = alter (λ pr, {| state := Some o;
                                      reactions := reactions pr |}) k
                        (imap (slot_promise (λ _, [0])) slots)).
      { rewrite promises_alter. apply list_alter_ext; [|done].
        intros pr _. rewrite Hk. cbn. by rewrite Hset. }
      assert (Hch : imap slot_child (alter (settle_slot o) k slots)
                    = imap slot_child slots).
      { apply list_eq. intros j. rewrite !list_lookup_imap, list_lookup_alter.
        destruct (decide (k = j)) as [->|]; [|done].
        rewrite Hk. cbn. unfold settle_slot. by rewrite Hs. }
      rewrite Hset.
      destruct o as [|e]; cbn; heap_simpl; unfold batch_world;
        rewrite Hsl, Hch, length_alter; [by rewrite app_nil_r|done].
  - by rewrite app_nil_r, alter_None.
Qed.

Lemma resolve_batch (k : nat) slots errs ab :
  resolve k (bw (λ _, [0]) [errs] slots ab)
  = bw (λ _, [0]) [errs ++ rejected_now slots k Resolved]
      (alter (settle_slot Resolved) k slots) ab.
Proof.
  rewrite <- settle_batch. unfold resolve.
  destruct (promises _ !! k) as [[[o|] rs]|]; try done.
  by induction rs.
Qed.

Lemma reject_batch (k : nat) e slots errs ab :
  reject k e (bw (λ _, [0]) [errs] slots ab)
  = bw (λ _, [0]) [errs ++ rejected_now slots k (Rejected e)]
      (alter (settle_slot (Rejected e)) k slots) ab.
Proof. by rewrite <- settle_batch. Qed.

Lemma kill_batch (k : nat) sig slots errs ab :
  kill k sig (bw (λ _, [0]) [errs] slots ab)
  = bw (λ _, [0]) [errs] (alter (kill_slot sig) k slots) ab.
Proof.
  heap_simpl. unfold batch_world. rewrite length_alter. f_equal.
  - apply list_eq. intros j.
    rewrite !list_lookup_alter, !list_lookup_imap, !list_lookup_alter.
    destruct (decide (k = j)) as [->|]; [|done].
    by destruct (slots !! j).
  - apply list_eq. intros j.
    rewrite !list_lookup_imap, !list_lookup_alter.
    destruct (decide (k = j)) as [->|]; [|done].
    by destruct (slots !! j).
Qed.

(** An event that changes no slot. *)
Lemma batch_step_idle b e :
  (∀ k s, slot_step withSignal (b_aborted b) e k s = s) →
  batch_step withSignal b e
  = {| b_slots := b_slots b; b_errors := b_errors b;
       b_aborted := b_aborted b || is_Abort 0 e |}.
Proof.
  intros H. unfold batch_step. f_equal.
  - by apply imap_same.
  - rewrite omap_imap_none; [by rewrite app_nil_r|].
    intros j x _. rewrite H. by destruct (s_state x) as [[]|].
Qed.

Lemma settle_slot_settled o s o' :
  s_state s = Some o' → settle_slot o s = s.
Proof. intros H. unfold settle_slot. by rewrite H. Qed.

(** An event that settles the promise of slot [c] with [o s]. *)
Lemma batch_step_settle b e c (o : Slot → Outcome) :
  (∀ k s, slot_step withSignal (b_aborted b) e k s
          = if Nat.eqb c k then settle_slot (o s) s else s) →
  is_Abort 0 e = false →
  batch_step withSignal b e
  = {| b_slots := alter (λ s, settle_slot (o s) s) c (b_slots b);
       b_errors := b_errors b
         ++ match b_slots b !! c with
            | Some s => rejected_now (b_slots b) c (o s)
            | None => []
            end;
       b_aborted := b_aborted b |}.
Proof.
  intros H Ha. unfold batch_step. rewrite Ha, orb_false_r. f_equal.
  - rewrite (imap_alter_single _ _ c).
    + apply list_alter_ext; [|done]. intros s _. by rewrite H, Nat.eqb_refl.
    + intros j s Hne. rewrite H.
      by rewrite (proj2 (Nat.eqb_neq c j)) by done.
  - f_equal. rewrite (omap_imap_single _ _ c).
    + unfold rejected_now. destruct (b_slots b !! c) as [s|]; [|done].
      by rewrite H, Nat.eqb_refl.
    + intros j s Hne _. rewrite H.
      rewrite (proj2 (Nat.eqb_neq c j)) by done.
      by destruct (s_state s) as [[]|].
Qed.

(** The listeners an event of child process [c] reaches. *)
Lemma emit_batch_heap (c : nat) ev a b :
  emit c ev a (bh b)
  = match b_slots b !! c with
    | Some s =>
        match ev with
        | exit => bh b
        | close => call (onClose (s_id s) c) a (bh b)
        | error => call (onError c) a (bh b)
        end
    | None => bh b
    end.
Proof.
  unfold emit, child_listeners. unfold batch_heap at 2. unfold batch_world at 1.
  cbn [children]. rewrite list_lookup_imap.
  destruct (b_slots b !! c) as [s|]; [|done].
  by destruct ev.
Qed.

(** The abort listeners, run one after the other: each kills the child
    process of its slot and rejects its promise. *)
Lemma abort_fold todo : ∀ done_ errs,
  foldl (λ w l, call l NoArgs w)
    (bw (λ _, [0]) [errs] (done_ ++ todo) true)
    ((λ k, onAbortAll k k) <$> seq (length done_) (length todo))
  = bw (λ _, [0])
      [errs ++ omap (λ s, newly_rejected (s_state s)
                            (s_state (abort_slot s))) todo]
      (done_ ++ (abort_slot <$> todo)) true.
Proof.
  induction todo as [|s todo IH]; intros done_ errs.
  - cbn. by rewrite !app_nil_r.
  - cbn [length seq fmap list_fmap foldl call].
    rewrite kill_batch, reject_batch, !alter_middle.
    unfold rejected_now. rewrite list_lookup_middle by done.
    replace (done_ ++ settle_slot (Rejected AbortSignalTriggered)
                        (kill_slot "SIGTERM" s) :: todo)
      with ((done_ ++ [abort_slot s]) ++ todo)
      by (by rewrite <- app_assoc).
    replace (S (length done_)) with (length (done_ ++ [abort_slot s]))
      by (rewrite length_app; cbn; lia).
    rewrite IH. rewrite <- !app_assoc. cbn [app omap list_omap].
    do 2 f_equal.
    change (s_state (settle_slot (Rejected AbortSignalTriggered)
                       (kill_slot "SIGTERM" s)))
      with (s_state (abort_slot s)).
    change (s_state (kill_slot "SIGTERM" s)) with (s_state s).
    by destruct (newly_rejected (s_state s) (s_state (abort_slot s))).
Qed.

End Batch.

(** The heap after an event is the heap of the batch after the event. *)
Lemma deliver_batch ts procs withSignal b e :
  deliver (batch_heap ts procs withSignal b) e
  = batch_heap ts procs withSignal (batch_step withSignal b e).
Proof.
  destruct e as [c code sg|c code sg|c err|[|s]]; cbn [deliver].
  - rewrite emit_batch_heap, batch_step_idle by done.
    rewrite orb_false_r. destruct b. by destruct (_ !! c).
  - rewrite emit_batch_heap.
    rewrite (batch_step_settle _ b _ c (λ s, close_outcome (s_id s) code))
      by done.
    destruct (b_slots b !! c) as [s|] eqn:Hc.
    + cbn [call]. unfold batch_heap, close_outcome.
      cbn [b_slots b_errors b_aborted].
      destruct (is_zero code).
      * rewrite resolve_batch. do 2 f_equal.
      * rewrite reject_batch. f_equal.
        apply list_alter_ext; [|done]. intros s' Hs'. congruence.
    + rewrite alter_None by done. rewrite app_nil_r. by destruct b.
  - rewrite emit_batch_heap.
    rewrite (batch_step_settle _ b _ c (λ _, Rejected (ExecutorError err)))
      by done.
    destruct (b_slots b !! c) as [s|] eqn:Hc.
    + cbn [call]. unfold batch_heap. cbn [b_slots b_errors b_aborted].
      by rewrite reject_batch.
    + rewrite alter_None by done. rewrite app_nil_r. by destruct b.
  - unfold abort. destruct b as [slots errs ab].
    unfold batch_heap. cbn [b_slots b_errors b_aborted].
    change (signal_aborted
              (batch_world ts procs withSignal (λ _, [0]) [errs] slots ab) 0)
      with ab.
    destruct ab.
    + rewrite batch_step_idle; [done|].
      intros k s. cbn. by rewrite andb_false_r.
    + destruct withSignal.
      * pose proof (abort_fold ts procs true slots [] errs) as H.
        cbn [app length] in H.
        etransitivity; [exact H|].
        unfold batch_step. cbn [b_slots b_errors b_aborted is_Abort].
        cbn [slot_step andb negb]. rewrite omap_imap_const.
        replace (imap (slot_step true false (Abort 0)) slots)
          with (abort_slot <$> slots)
          by (rewrite <- imap_const; by apply imap_ext).
        done.
      * by rewrite batch_step_idle by done.
  - rewrite batch_step_idle by done. rewrite orb_false_r.
    destruct b. reflexivity.
Qed.

(** ** Traces of a batch *)

Lemma after_batch ts procs withSignal trace : ∀ b,
  after trace (batch_heap ts procs withSignal b)
  = batch_heap ts procs withSignal (batch_after withSignal trace b).
Proof.
  induction trace as [|e trace IH]; intros b; [done|].
  cbn [after batch_after foldl]. rewrite deliver_batch. apply IH.
Qed.

Lemma observed_batch ts procs `{!launchable ts procs} withSignal trace :
  observed ts procs withSignal trace
  = batch_heap ts procs withSignal
      (batch_after withSignal trace (batch_start ts procs)).
Proof.
  unfold observed. rewrite (started_batch ts procs _). cbn [fst]. apply after_batch.
Qed.

Lemma batch_after_snoc withSignal trace e b :
  batch_after withSignal (trace ++ [e]) b
  = batch_step withSignal (batch_after withSignal trace b) e.
Proof. unfold batch_after. by rewrite foldl_snoc. Qed.

(** *** Reading the heap of a batch *)

Lemma promise_state_batch ts procs withSignal b (k : nat) :
  promise_state (batch_heap ts procs withSignal b) k
  = b_slots b !! k ≫= s_state.
Proof.
  unfold promise_state, batch_heap, batch_world. cbn [promises].
  rewrite list_lookup_imap. by destruct (b_slots b !! k).
Qed.

Lemma child_kills_batch ts procs withSignal b (k : nat) :
  child_kills (batch_heap ts procs withSignal b) k
  = default [] (s_kills <$> b_slots b !! k).
Proof.
  unfold child_kills, batch_heap, batch_world. cbn [children].
  rewrite list_lookup_imap. by destruct (b_slots b !! k).
Qed.

(** *** What a step preserves *)

Lemma slot_step_id withSignal ab e k s :
  s_id (slot_step withSignal ab e k s) = s_id s.
Proof.
  destruct e as [c code sg|c code sg|c err|[|z]]; cbn; try done.
  - destruct (Nat.eqb c k); [|done]. unfold settle_slot.
    by destruct (s_state s).
  - destruct (Nat.eqb c k); [|done]. unfold settle_slot.
    by destruct (s_state s).
  - destruct (withSignal && negb ab); [|done]. unfold settle_slot. cbn.
    by destruct (s_state s).
Qed.

Lemma slot_step_settled withSignal ab e k s o :
  s_state s = Some o → s_state (slot_step withSignal ab e k s) = Some o.
Proof.
  intros Hs.
  destruct e as [c code sg|c code sg|c err|[|z]]; cbn; try done.
  - destruct (Nat.eqb c k); [|done]. by rewrite (settle_slot_settled _ _ o).
  - destruct (Nat.eqb c k); [|done]. by rewrite (settle_slot_settled _ _ o).
  - destruct (withSignal && negb ab); [|done]. unfold settle_slot. cbn.
    by rewrite Hs.
Qed.

Lemma batch_step_lookup withSignal b e (k : nat) :
  b_slots (batch_step withSignal b e) !! k
  = slot_step withSignal (b_aborted b) e k <$> b_slots b !! k.
Proof. unfold batch_step. cbn [b_slots]. apply list_lookup_imap. Qed.

Lemma batch_after_aborted withSignal trace b :
  b_aborted (batch_after withSignal trace b)
  = b_aborted b || existsb (is_Abort 0) trace.
Proof.
  induction trace as [|e trace IH] using rev_ind.
  - cbn. by rewrite orb_false_r.
  - rewrite batch_after_snoc. cbn [batch_step b_aborted].
    rewrite IH, existsb_app. cbn. by rewrite orb_false_r, orb_assoc.
Qed.

Lemma is_Abort_elem trace :
  existsb (is_Abort 0) trace = true ↔ Abort 0 ∈ trace.
Proof.
  rewrite existsb_exists. split.
  - intros ([c code sg|c code sg|c err|[|z]] & Hin & He); try done.
    by apply list_elem_of_In.
  - intros Hin. exists (Abort 0). split; [by apply list_elem_of_In|done].
Qed.

(** *** The slots after a trace *)

(** After any trace, slot [k] still belongs to the k-th process of the
    manager, and the state of its promise is explained by an event of the
    trace. *)
Lemma batch_after_slot ts procs withSignal trace (k : nat) :
  k < length procs →
  ∃ s, b_slots (batch_after withSignal trace (batch_start ts procs)) !! k
       = Some s
       ∧ s_id <$> (Some s) = (λ p, id (default no_task (ts !! p))) <$> procs !! k
       ∧ explained withSignal trace k (s_id s) (s_state s).
Proof.
  intros Hk. induction trace as [|e trace IH] using rev_ind.
  - cbn. rewrite list_lookup_fmap.
    destruct (lookup_lt_is_Some_2 procs k Hk) as [p Hp]. rewrite Hp. cbn.
    by eexists.
  - destruct IH as (s & Hs & Hid & Hex).
    rewrite batch_after_snoc, batch_step_lookup, Hs. cbn [fmap option_fmap option_map].
    eexists. split; [done|]. rewrite slot_step_id. split; [done|].
    set (ab := b_aborted _).
    assert (Hmono : ∀ o, explained withSignal trace k (s_id s) o →
                         explained withSignal (trace ++ [e]) k (s_id s) o).
    { intros [[|r]|]; cbn; [| |done].
      - intros [sg H]. exists sg. apply elem_of_app. by left.
      - intros [(code & sg & H & ?)|[(err & H & ?)|(? & H & ?)]].
        + left. exists code, sg. split; [|done]. apply elem_of_app. by left.
        + right. left. exists err. split; [|done]. apply elem_of_app. by left.
        + right. right. split; [done|]. split; [|done].
          apply elem_of_app. by left. }
    destruct (s_state s) as [o|] eqn:Hst.
    { rewrite (slot_step_settled _ _ _ _ _ o Hst). by apply Hmono. }
    assert (Hlast : e ∈ trace ++ [e]).
    { apply elem_of_app. right. by apply list_elem_of_singleton. }
    destruct e as [c code sg|c code sg|c err|[|z]]; cbn [slot_step];
      rewrite ?Hst; try done.
    + destruct (Nat.eqb_spec c k) as [->|]; [|by rewrite Hst].
      unfold settle_slot, close_outcome. rewrite Hst. cbn [s_state].
      destruct (is_zero code) eqn:Hz; cbn.
      * apply is_zero_spec in Hz. subst code. by exists sg.
      * left. exists code, sg. split; [done|]. split; [|done].
        intros ->. done.
    + destruct (Nat.eqb_spec c k) as [->|]; [|by rewrite Hst].
      unfold settle_slot. rewrite Hst. cbn. right. left. by exists err.
    + destruct withSignal, ab; cbn [andb negb]; rewrite ?Hst; try done.
      unfold settle_slot. cbn. rewrite Hst. cbn. right. right. done.
Qed.

(** *** The collected errors *)

(** A step adds to [errors] the rejections it causes, and nothing else. *)
Lemma rejections_step (f : nat → Slot → Slot) (slots : list Slot) :
  (∀ k s o, s_state s = Some o → s_state (f k s) = Some o) →
  omap (λ s, rejection (s_state s)) (imap f slots)
  ≡ₚ omap (λ s, rejection (s_state s)) slots
     ++ omap (λ x, x)
          (imap (λ k s, newly_rejected (s_state s) (s_state (f k s))) slots).
Proof.
  revert f. induction slots as [|s slots IH]; intros f Hf; [done|].
  rewrite !imap_cons. cbn [omap list_omap].
  specialize (IH (f ∘ S) (λ k, Hf (S k))).
  destruct (s_state s) as [o|] eqn:Hs.
  - rewrite (Hf 0 s o Hs). cbn [newly_rejected].
    destruct (rejection (Some o)); [|done].
    cbn. by apply Permutation_skip.
  - cbn [rejection newly_rejected].
    destruct (rejection (s_state (f 0 s))) as [e|]; [|done].
    rewrite IH. apply Permutation_middle.
Qed.

(** [errors] holds the rejection reasons of the rejected promises, each
    once. *)
Lemma batch_after_errors ts procs withSignal trace :
  let b := batch_after withSignal trace (batch_start ts procs) in
  b_errors b ≡ₚ omap (λ s, rejection (s_state s)) (b_slots b).
Proof.
  induction trace as [|e trace IH] using rev_ind.
  - cbn. induction procs; [done|]. done.
  - cbn zeta in *. rewrite batch_after_snoc.
    set (b := batch_after withSignal trace (batch_start ts procs)) in *.
    unfold batch_step. cbn [b_errors b_slots].
    rewrite rejections_step, IH; [done|].
    intros k s o. apply slot_step_settled.
Qed.

Lemma batch_after_length ts procs withSignal trace :
  length (b_slots (batch_after withSignal trace (batch_start ts procs)))
  = length procs.
Proof.
  induction trace as [|e trace IH] using rev_ind.
  - cbn. by rewrite length_fmap.
  - rewrite batch_after_snoc. unfold batch_step. cbn [b_slots].
    by rewrite length_imap.
Qed.

(** *** Observations *)

Lemma observed_promise_state ts procs `{!launchable ts procs} withSignal trace
    (k : nat) :
  promise_state (observed ts procs withSignal trace) k
  = b_slots (batch_after withSignal trace (batch_start ts procs)) !! k
      ≫= s_state.
Proof. by rewrite (observed_batch ts procs), promise_state_batch. Qed.

Lemma errors_batch ts procs `{!launchable ts procs} withSignal trace :
  errors ts procs withSignal trace
  = b_errors (batch_after withSignal trace (batch_start ts procs)).
Proof.
  unfold errors. rewrite (observed_batch ts procs), (started_batch ts procs _). done.
Qed.

Lemma outcome_spec ts procs `{!launchable ts procs} withSignal trace :
  outcome ts procs withSignal trace
  = if forallb (is_settled (observed ts procs withSignal trace))
         (seq 0 (length procs))
    then match errors ts procs withSignal trace with
         | [] => Some AllExited
         | es => Some (AtLeastOneFailed es)
         end
    else None.
Proof. unfold outcome, errors, runAll_outcome. by rewrite (started_batch ts procs _). Qed.

Lemma outcome_settled ts procs `{!launchable ts procs} withSignal trace
    (k : nat) :
  outcome ts procs withSignal trace ≠ None →
  k < length procs →
  promise_state (observed ts procs withSignal trace) k ≠ None.
Proof.
  rewrite (outcome_spec ts procs). intros Ho Hk.
  destruct (forallb _ _) eqn:Hall; [|done].
  rewrite forallb_forall in Hall.
  specialize (Hall k). unfold is_settled in Hall.
  destruct (promise_state _ k); [done|].
  discriminate Hall. apply in_seq. lia.
Qed.

Lemma errors_rejections ts procs `{!launchable ts procs} withSignal trace :
  errors ts procs withSignal trace
  ≡ₚ omap (λ k, rejection
                  (promise_state (observed ts procs withSignal trace) k))
       (seq 0 (length procs)).
Proof.
  rewrite (errors_batch ts procs), batch_after_errors, omap_lookup_seq.
  rewrite batch_after_length.
  erewrite omap_ext_in; [done|]. intros k _. cbn.
  rewrite (observed_promise_state ts procs). by destruct (_ !! k).
Qed.

Lemma observed_explained ts procs `{!launchable ts procs} withSignal trace
    (k : nat) :
  k < length procs →
  ∃ p, procs !! k = Some p
       ∧ explained withSignal trace k (id (default no_task (ts !! p)))
           (promise_state (observed ts procs withSignal trace) k).
Proof.
  intros Hk.
  destruct (batch_after_slot ts procs withSignal trace k Hk)
    as (s & Hs & Hid & Hex).
  destruct (lookup_lt_is_Some_2 procs k Hk) as [p Hp]. exists p.
  split; [done|]. rewrite (observed_promise_state ts procs), Hs. cbn.
  rewrite Hp in Hid. cbn in Hid. by injection Hid as <-.
Qed.

Lemma observed_snoc ts procs withSignal trace e :
  observed ts procs withSignal (trace ++ [e])
  = deliver (observed ts procs withSignal trace) e.
Proof. unfold observed, after. by rewrite foldl_snoc. Qed.

Lemma explained_reports withSignal trace k i o :
  explained withSignal trace k i (Some o) →
  withSignal = false ∨ Abort 0 ∉ trace →
  existsb (reports k) trace = true.
Proof.
  intros Hex Hno. apply existsb_exists.
  destruct o as [|e]; cbn in Hex.
  - destruct Hex as [sg H]. exists (Close k (Some 0%Z) sg).
    split; [by apply list_elem_of_In|]. cbn. apply Nat.eqb_refl.
  - destruct Hex as [(code & sg & H & _)|[(err & H & _)|(Hw & H & _)]].
    + exists (Close k code sg).
      split; [by apply list_elem_of_In|]. cbn. apply Nat.eqb_refl.
    + exists (ErrorEvent k err).
      split; [by apply list_elem_of_In|]. cbn. apply Nat.eqb_refl.
    + destruct Hno as [Hno|Hno]; [congruence|done].
Qed.

Lemma rejected_in_errors ts procs `{!launchable ts procs} withSignal trace
    (k : nat) e :
  k < length procs →
  promise_state (observed ts procs withSignal trace) k = Some (Rejected e) →
  e ∈ errors ts procs withSignal trace.
Proof.
  intros Hk Hr. rewrite (errors_rejections ts procs). apply list_elem_of_omap.
  exists k. split; [|by rewrite Hr]. apply elem_of_seq. lia.
Qed.

(** ** Promises out of reach

    A promise that no registered closure can settle stays as it is, whatever
    the environment does: no event adds a listener. *)

Lemma shrinks_refl p w : shrinks p w w.
Proof. by split; [|split]. Qed.

Lemma shrinks_trans p w1 w2 w3 :
  shrinks p w1 w2 → shrinks p w2 w3 → shrinks p w1 w3.
Proof.
  intros (Hc & Hs & Hp) (Hc' & Hs' & Hp'). split; [|split].
  - intros c x Hx. by apply Hc, Hc'.
  - intros s x Hx. by apply Hs, Hs'.
  - congruence.
Qed.

Lemma shrinks_same p w w' :
  children w' = children w → signals w' = signals w →
  promises w' = promises w → shrinks p w w'.
Proof.
  intros Hc Hs Hp. unfold shrinks, child_listeners, signal_listeners,
    promise_state. by rewrite Hc, Hs, Hp.
Qed.

Lemma out_of_reach_shrinks p w w' :
  shrinks p w w' → out_of_reach w p → out_of_reach w' p.
Proof.
  intros (Hc & Hs & _) [Hwc Hws]. split.
  - intros c r Hr. by apply (Hwc c), Hc.
  - intros s l Hl. by apply (Hws s), Hs.
Qed.

Lemma remove_first_subseteq {A} (eqb : A → A → bool) (x : A) (l : list A) :
  remove_first eqb x l ⊆ l.
Proof.
  induction l as [|y l IH]; [done|]. cbn. destruct (eqb x y).
  - intros z Hz. by apply list_elem_of_further.
  - intros z Hz. apply elem_of_cons in Hz. destruct Hz as [->|Hz].
    + apply list_elem_of_here.
    + by apply list_elem_of_further, IH.
Qed.

(** A change of the listener table of one child process that adds
    nothing. *)
Lemma shrinks_children p w (f : ChildProcess → ChildProcess) (c : nat) :
  (∀ ch, listeners (f ch) ⊆ listeners ch) →
  shrinks p w (with_children (alter f c) w).
Proof.
  intros Hf. split; [|by split].
  intros c'. unfold child_listeners, with_children. cbn [children].
  rewrite list_lookup_alter.
  destruct (decide (c = c')) as [->|]; [|done].
  destruct (children w !! c') as [ch|]; [|done]. apply Hf.
Qed.

Lemma shrinks_signals p w (f : AbortSignal → AbortSignal) (s : nat) :
  (∀ sg, abort_listeners (f sg) ⊆ abort_listeners sg) →
  shrinks p w (with_signals (alter f s) w).
Proof.
  intros Hf. split; [done|split; [|done]].
  intros s'. unfold signal_listeners, with_signals. cbn [signals].
  rewrite list_lookup_alter.
  destruct (decide (s = s')) as [->|]; [|done].
  destruct (signals w !! s') as [sg|]; [|done]. apply Hf.
Qed.

Lemma shrinks_set_state p q o w :
  q ≠ p → shrinks p w (set_state q o w).
Proof.
  intros Hq. split; [done|split; [done|]].
  unfold promise_state, set_state, with_promises. cbn [promises].
  by rewrite list_lookup_alter_ne.
Qed.

Lemma shrinks_resolve p q w : q ≠ p → shrinks p w (resolve q w).
Proof.
  intros Hq. unfold resolve.
  destruct (promises w !! q) as [[[o|] rs]|]; try apply shrinks_refl.
  by apply shrinks_set_state.
Qed.

Lemma shrinks_reject p q e w : q ≠ p → shrinks p w (reject q e w).
Proof.
  intros Hq. unfold reject.
  destruct (promises w !! q) as [[[o|] rs]|]; try apply shrinks_refl.
  apply (shrinks_trans p _ (set_state q (Rejected e) w));
    [by apply shrinks_set_state|].
  generalize (set_state q (Rejected e) w). clear.
  induction rs as [|a rs IH]; intros w; [apply shrinks_refl|].
  cbn [foldl]. eapply shrinks_trans; [|apply IH]. by apply shrinks_same.
Qed.

(** A closure that does not hold the promise does not touch it, and adds no
    listener. *)
Lemma call_shrinks p l a w :
  settles l ≠ Some p → shrinks p w (call l a w).
Proof.
  intros Hl. destruct l as [this q|c|s c|q|i q|c q]; cbn in Hl.
  - assert (Hq : q ≠ p) by congruence.
    destruct a as [code signal|err|]; cbn [call]; try apply shrinks_refl.
    set (w1 := match _childProcess (task w this) with
               | Some c => removeAllListeners c w
               | None => w
               end).
    assert (H1 : shrinks p w w1).
    { unfold w1. destruct (_childProcess (task w this)) as [c|];
        [|apply shrinks_refl].
      apply shrinks_children. intros ch x Hx. by apply not_elem_of_nil in Hx. }
    assert (H2 : shrinks p w (set_isRunning this false
                                (set_childProcess this None w1))).
    { eapply shrinks_trans; [exact H1|]. by apply shrinks_same. }
    destruct (is_zero code); [|destruct (is_SIGABRT_or_null signal)];
      (eapply shrinks_trans; [exact H2|]);
      by apply shrinks_resolve || by apply shrinks_reject.
  - cbn [call]. destruct a; by apply shrinks_children.
  - cbn [call]. destruct a; apply shrinks_signals; intros sg;
      apply remove_first_subseteq.
  - assert (Hq : q ≠ p) by congruence.
    destruct a as [code signal|err|]; cbn [call]; try apply shrinks_refl.
    by apply shrinks_reject.
  - assert (Hq : q ≠ p) by congruence.
    destruct a as [code signal|err|]; cbn [call]; try apply shrinks_refl.
    destruct (is_zero code);
      by apply shrinks_resolve || by apply shrinks_reject.
  - assert (Hq : q ≠ p) by congruence.
    assert (H : shrinks p w (reject q AbortSignalTriggered
                               (kill c "SIGTERM" w))).
    { apply (shrinks_trans p w (kill c "SIGTERM" w));
        [by apply shrinks_children|by apply shrinks_reject]. }
    by destruct a.
Qed.

Lemma emit_shrinks p c ev a w :
  out_of_reach w p → shrinks p w (emit c ev a w).
Proof.
  intros [Hw _]. unfold emit.
  assert (Hrs : ∀ r, r ∈ filter (λ r, EventName_beq (event r) ev = true)
                           (child_listeners w c) →
                     settles (listener r) ≠ Some p).
  { intros r Hr. apply list_elem_of_filter in Hr. apply (Hw c), Hr. }
  revert Hrs. generalize (filter (λ r, EventName_beq (event r) ev = true)
                            (child_listeners w c)).
  intros rs. clear Hw. revert w.
  induction rs as [|r rs IH]; intros w0 Hrs; [apply shrinks_refl|].
  cbn [foldl]. eapply shrinks_trans; [|apply IH].
  - eapply shrinks_trans; [|apply call_shrinks, Hrs, list_elem_of_here].
    destruct (once r); [|apply shrinks_refl].
    apply shrinks_children. intros ch. apply remove_first_subseteq.
  - intros r' Hr'. by apply Hrs, list_elem_of_further.
Qed.

Lemma abort_shrinks p s w :
  out_of_reach w p → shrinks p w (abort s w).
Proof.
  intros [_ Hw]. unfold abort.
  destruct (signal_aborted w s); [apply shrinks_refl|].
  specialize (Hw s). revert Hw. generalize (signal_listeners w s).
  intros ls Hls.
  eapply shrinks_trans;
    [by apply (shrinks_signals p w
                 (λ sg, {| aborted := true;
                           abort_listeners := abort_listeners sg |}) s)|].
  generalize (with_signals
                (alter (λ sg, {| aborted := true;
                                 abort_listeners := abort_listeners sg |}) s)
                w).
  induction ls as [|l ls IH]; intros w0; [apply shrinks_refl|].
  cbn [foldl]. eapply shrinks_trans; [|apply IH].
  - apply call_shrinks, Hls, list_elem_of_here.
  - intros l' Hl'. by apply Hls, list_elem_of_further.
Qed.

Lemma deliver_shrinks p w e :
  out_of_reach w p → shrinks p w (deliver w e).
Proof.
  intros Hw. destruct e; cbn [deliver];
    by apply emit_shrinks || by apply abort_shrinks.
Qed.

(** Whatever the events, a promise out of reach stays out of reach and in
    the state it is in. *)
Lemma after_out_of_reach p trace : ∀ w,
  out_of_reach w p →
  out_of_reach (after trace w) p
  ∧ promise_state (after trace w) p = promise_state w p.
Proof.
  induction trace as [|e trace IH]; intros w Hw; [done|].
  cbn [after foldl].
  pose proof (deliver_shrinks p w e Hw) as Hs.
  destruct (IH (deliver w e)) as [Hr Hp];
    [by eapply out_of_reach_shrinks|].
  split; [done|]. unfold after in Hp. rewrite Hp. apply Hs.
Qed.

(** ** runAll when [spawn] throws *)

#[global] Instance launches_dec w cmd : Decision (launches w cmd).
Proof. unfold launches. apply _. Defined.

#[global] Instance launchable_dec ts procs : Decision (launchable ts procs).
Proof. unfold launchable. apply _. Defined.

(** One turn of the [for] loop: one more promise, pending; the only
    listeners it adds hold that promise, and it adds none when [spawn]
    throws. *)
Lemma runAll_spawn_spec signal w (ps : list nat) process :
  let p := length (promises w) in
  let r := runAll_spawn signal (w, ps) process in
  snd r = ps ++ [p]
  ∧ tasks (fst r) = tasks w
  ∧ executor (fst r) = executor w
  ∧ promises (fst r) = promises w ++ [{| state := None; reactions := [] |}]
  ∧ (∀ c x, x ∈ child_listeners (fst r) c →
       x ∈ child_listeners w c
       ∨ (launches w (command (task w process))
          ∧ settles (listener x) = Some p))
  ∧ (∀ s l, l ∈ signal_listeners (fst r) s →
       l ∈ signal_listeners w s
       ∨ (launches w (command (task w process)) ∧ settles l = Some p)).
Proof.
  intros p r. unfold r, runAll_spawn.
  change (new_Promise None w) with (fst (new_Promise None w), p).
  cbv beta iota zeta.
  change (task (fst (new_Promise None w)) process) with (task w process).
  unfold spawn.
  change (spawn_throws (fst (new_Promise None w)) (command (task w process)))
    with (spawn_throws w (command (task w process))).
  destruct (spawn_throws w (command (task w process))) as [err|] eqn:Hs;
    cbv beta iota zeta; cbn [fst snd].
  - do 4 (split; [done|]). split; intros ? ? H; by left.
  - assert (Hl : launches w (command (task w process))) by exact Hs.
    clear Hs. split; [done|]. do 3 (split; [by destruct signal|]).
    subst p. destruct w as [ts ms cs ss prs ars ex]. split.
    + intros c x. unfold child_listeners.
      destruct signal as [s0|]; heap_cbv; rewrite !alter_snoc;
        (destruct (decide (c < length cs)) as [Hlt|Hge];
         [rewrite lookup_app_l by done; by left|]);
        rewrite lookup_app_r by lia;
        (destruct (c - length cs) as [|n]; cbn;
         [|intros Hx; by apply not_elem_of_nil in Hx]);
        intros Hx; right; (split; [exact Hl|]);
        apply elem_of_cons in Hx; (destruct Hx as [->|Hx]; [done|]);
        apply list_elem_of_singleton in Hx; by subst x.
    + intros s l. destruct signal as [s0|]; [|by left].
      unfold signal_listeners. heap_cbv. rewrite list_lookup_alter.
      destruct (decide (s0 = s)) as [->|]; [|by left].
      destruct (ss !! s) as [sg|]; cbn; [|by left].
      intros Hx. apply elem_of_app in Hx. destruct Hx as [Hx|Hx]; [by left|].
      apply list_elem_of_singleton in Hx. subst l. right. by split.
Qed.

(** The [for] loop in any heap: the promise of a process whose [spawn]
    throws is pending and out of reach. *)
Lemma runAll_loop_spec signal procs : ∀ w (ps : list nat),
  bounded w →
  let r := foldl (runAll_spawn signal) (w, ps) procs in
  bounded (fst r)
  ∧ snd r = ps ++ seq (length (promises w)) (length procs)
  ∧ tasks (fst r) = tasks w
  ∧ executor (fst r) = executor w
  ∧ (∀ q, q < length (promises w) → out_of_reach w q →
          out_of_reach (fst r) q
          ∧ promise_state (fst r) q = promise_state w q)
  ∧ (∀ j process, procs !! j = Some process →
       ¬ launches w (command (task w process)) →
       out_of_reach (fst r) (length (promises w) + j)
       ∧ promise_state (fst r) (length (promises w) + j) = None).
Proof.
  induction procs as [|process procs IH]; intros w ps Hb; cbn [foldl].
  { cbn [fst snd length seq]. rewrite app_nil_r.
    do 4 (split; [done|]). split; [by intros|].
    intros j process Hj. by rewrite lookup_nil in Hj. }
  destruct (runAll_spawn_spec signal w ps process)
    as (Hps & Hts & Hex & Hprs & Hcl & Hsl).
  destruct (runAll_spawn signal (w, ps) process) as [w1 ps1].
  cbn [fst snd] in *.
  assert (Hlen : length (promises w1) = S (length (promises w))).
  { rewrite Hprs, length_app. cbn. lia. }
  assert (Hkeep : ∀ q, q ≠ length (promises w) → out_of_reach w q →
                       out_of_reach w1 q).
  { intros q Hq [Hwc Hws]. split.
    - intros c x Hx. destruct (Hcl c x Hx) as [Hin|[_ Hp]];
        [by apply (Hwc c)|]. rewrite Hp. congruence.
    - intros s l Hl. destruct (Hsl s l Hl) as [Hin|[_ Hp]];
        [by apply (Hws s)|]. rewrite Hp. congruence. }
  assert (Hb1 : bounded w1).
  { intros q Hq. apply Hkeep; [lia|]. apply Hb. lia. }
  destruct (IH w1 ps1 Hb1) as (Hb' & Hps' & Hts' & Hex' & Hold & Hnew).
  split; [done|]. split.
  { rewrite Hps', Hps, Hlen, <- app_assoc. done. }
  split; [congruence|]. split; [congruence|]. split.
  - intros q Hq Hout.
    destruct (Hold q) as [Ho Hp]; [lia|apply Hkeep; [lia|done]|].
    split; [done|]. rewrite Hp. unfold promise_state.
    by rewrite Hprs, lookup_app_l.
  - intros [|j] process' Hj Hno; cbn in Hj.
    + injection Hj as <-. rewrite Nat.add_0_r.
      assert (Hout : out_of_reach w1 (length (promises w))).
      { destruct (Hb (length (promises w))) as [Hwc Hws]; [lia|]. split.
        - intros c x Hx. destruct (Hcl c x Hx) as [Hin|[Hl _]];
            [by apply (Hwc c)|done].
        - intros s l Hl. destruct (Hsl s l Hl) as [Hin|[Hl' _]];
            [by apply (Hws s)|done]. }
      destruct (Hold (length (promises w))) as [Ho Hp]; [lia|done|].
      split; [done|]. rewrite Hp. unfold promise_state.
      by rewrite Hprs, lookup_snoc_last.
    + replace (length (promises w) + S j) with (length (promises w1) + j)
        by lia.
      apply (Hnew j process'); [done|].
      unfold launches, task, spawn_throws in *. by rewrite Hts, Hex.
Qed.

Lemma catch_shrinks p a w (q : nat) : shrinks p w (catch a w q).
Proof.
  unfold catch. destruct (promise_state w q) as [[|e]|].
  - split; [done|split; [done|]].
    unfold promise_state, with_promises. cbn [promises].
    rewrite list_lookup_alter. destruct (decide (q = p)) as [->|]; [|done].
    by destruct (promises w !! p).
  - by apply shrinks_same.
  - split; [done|split; [done|]].
    unfold promise_state, with_promises. cbn [promises].
    rewrite list_lookup_alter. destruct (decide (q = p)) as [->|]; [|done].
    by destruct (promises w !! p).
Qed.

(** [runAll] in any heap whose closures hold promises of the heap only:
    when [spawn] throws for the j-th process of the manager, the promise
    made for it is one of those [runAll] awaits, and it is pending and out
    of reach. *)
Lemma runAll_unlaunched this signal w j process :
  bounded w →
  manager w this !! j = Some process →
  ¬ launches w (command (task w process)) →
  let r := runAll this signal w in
  let p := length (promises w) + j in
  p ∈ ra_promises (snd r)
  ∧ out_of_reach (fst r) p
  ∧ promise_state (fst r) p = None.
Proof.
  intros Hb Hj Hno r p. unfold r, runAll.
  destruct (runAll_loop_spec signal (manager w this) w [] Hb)
    as (_ & Hps & _ & _ & _ & Hnew).
  destruct (Hnew j process Hj Hno) as [Hout Hp].
  destruct (foldl (runAll_spawn signal) (w, []) (manager w this))
    as [w1 ps]. cbn [fst snd app] in *. subst ps.
  unfold new_array. cbn [fst snd ra_promises].
  split.
  { apply elem_of_seq. apply lookup_lt_Some in Hj. unfold p. lia. }
  assert (H : ∀ qs w0, shrinks p w0 (foldl (catch (length (arrays w1))) w0 qs)).
  { induction qs as [|q qs IH]; intros w0; [apply shrinks_refl|].
    cbn [foldl]. eapply shrinks_trans; [apply catch_shrinks|apply IH]. }
  set (w2 := with_arrays (λ l, l ++ [[]]) w1).
  assert (H2 : shrinks p w1 w2) by (by apply shrinks_same).
  pose proof (shrinks_trans p _ _ _ H2
                (H (seq (length (promises w)) (length (manager w this))) w2))
    as Hs.
  split; [by eapply out_of_reach_shrinks|].
  destruct Hs as (_ & _ & ->). done.
Qed.

(** Then [runAll] never settles. *)
Lemma runAll_unlaunched_pending this signal w j process trace :
  bounded w →
  manager w this !! j = Some process →
  ¬ launches w (command (task w process)) →
  runAll_outcome (snd (runAll this signal w))
    (after trace (fst (runAll this signal w))) = None.
Proof.
  intros Hb Hj Hno.
  destruct (runAll_unlaunched this signal w j process Hb Hj Hno)
    as (Hin & Hout & Hp).
  destruct (after_out_of_reach _ trace _ Hout) as [_ Hp'].
  unfold runAll_outcome.
  destruct (forallb _ _) eqn:Hall; [|done].
  rewrite forallb_forall in Hall.
  specialize (Hall _ (proj1 (list_elem_of_In _ _) Hin)).
  unfold is_settled in Hall. by rewrite Hp', Hp in Hall.
Qed.

Lemma bounded_group ts procs : bounded (group ts procs).
Proof.
  intros p _. split.
  - intros c r Hr. by apply not_elem_of_nil in Hr.
  - intros [|s] l Hl; by apply not_elem_of_nil in Hl.
Qed.

(** A process of the group whose command [spawn] does not launch. *)
Lemma unlaunchable_process ts procs :
  ¬ launchable ts procs →
  ∃ j process, procs !! j = Some process
    ∧ ¬ launches (group ts procs) (command (task (group ts procs) process)).
Proof.
  intros Hno. unfold launchable in Hno.
  apply not_Forall_Exists in Hno; [|apply _].
  apply Exists_exists in Hno. destruct Hno as (process & Hin & Hp).
  apply list_elem_of_lookup in Hin. destruct Hin as [j Hj].
  by exists j, process.
Qed.

(** When [spawn] throws for a process of the group, [runAll] never
    settles. *)
Lemma outcome_unlaunched ts procs withSignal trace :
  ¬ launchable ts procs → outcome ts procs withSignal trace = None.
Proof.
  intros Hno. destruct (unlaunchable_process ts procs Hno)
    as (j & process & Hj & Hp).
  unfold outcome, observed, started.
  apply (runAll_unlaunched_pending 0 _ (group ts procs) j process);
    [apply bounded_group|exact Hj|exact Hp].
Qed.

(** The first triggering of the signal given to [runAll]. *)
Lemma observed_abort ts procs `{!launchable ts procs} trace (k : nat) :
  Abort 0 ∉ trace →
  k < length procs →
  child_kills (observed ts procs true (trace ++ [Abort 0])) k
  = child_kills (observed ts procs true trace) k ++ ["SIGTERM"]
  ∧ promise_state (observed ts procs true (trace ++ [Abort 0])) k
    = match promise_state (observed ts procs true trace) k with
      | None => Some (Rejected AbortSignalTriggered)
      | Some o => Some o
      end.
Proof.
  intros Hno Hk.
  rewrite !(observed_batch ts procs), !child_kills_batch, !promise_state_batch.
  rewrite batch_after_snoc, batch_step_lookup, batch_after_aborted.
  destruct (batch_after_slot ts procs true trace k Hk) as (s & -> & _).
  assert (Hab : existsb (is_Abort 0) trace = false).
  { destruct (existsb _ trace) eqn:H; [|done].
    by apply is_Abort_elem in H. }
  rewrite Hab. cbn. unfold settle_slot. cbn.
  destruct (s_state s) eqn:Hst; cbn; by rewrite ?Hst.
Qed.

Lemma observed_settled_snoc ts procs `{!launchable ts procs} withSignal trace e
    (k : nat) o :
  promise_state (observed ts procs withSignal trace) k = Some o →
  promise_state (observed ts procs withSignal (trace ++ [e])) k = Some o.
Proof.
  rewrite !(observed_promise_state ts procs), batch_after_snoc, batch_step_lookup.
  destruct (b_slots _ !! k) as [s|]; [|done]. cbn.
  apply slot_step_settled.
Qed.

(** A promise of the batch that is settled keeps its outcome. *)
Lemma observed_settled_later ts procs `{!launchable ts procs} withSignal trace
    (k : nat) o later :
  promise_state (observed ts procs withSignal trace) k = Some o →
  promise_state (observed ts procs withSignal (trace ++ later)) k = Some o.
Proof.
  intros Ho. induction later as [|e later IH] using rev_ind.
  - by rewrite app_nil_r.
  - rewrite app_assoc. by apply observed_settled_snoc.
Qed.

(** Once the signal given to [runAll] has been triggered, every promise of
    the batch is settled. *)
Lemma observed_aborted_settled ts procs `{!launchable ts procs} trace (k : nat)
    :
  Abort 0 ∈ trace →
  k < length procs →
  promise_state (observed ts procs true trace) k ≠ None.
Proof.
  intros Hin Hk. induction trace as [|e trace IH] using rev_ind.
  - by apply not_elem_of_nil in Hin.
  - destruct (existsb (is_Abort 0) trace) eqn:Hbefore.
    + apply is_Abort_elem in Hbefore. specialize (IH Hbefore).
      destruct (promise_state (observed ts procs true trace) k) as [o|] eqn:Ho;
        [|done].
      by rewrite (observed_settled_snoc _ _ _ _ e k o Ho).
    + assert (Hno : Abort 0 ∉ trace).
      { intros H. apply is_Abort_elem in H. congruence. }
      apply elem_of_app in Hin. destruct Hin as [Hin|Hin]; [done|].
      apply list_elem_of_singleton in Hin. subst e.
      destruct (observed_abort ts procs trace k Hno Hk) as [_ ->].
      by destruct (promise_state (observed ts procs true trace) k).
Qed.

(** An event appends to [errors] the reasons of the promises it rejects, in
    the order of the processes. *)
Lemma errors_snoc ts procs `{!launchable ts procs} withSignal trace e :
  errors ts procs withSignal (trace ++ [e])
  = errors ts procs withSignal trace
    ++ omap (λ k, newly_rejected
                    (promise_state (observed ts procs withSignal trace) k)
                    (promise_state
                       (observed ts procs withSignal (trace ++ [e])) k))
         (seq 0 (length procs)).
Proof.
  rewrite !(errors_batch ts procs), batch_after_snoc.
  pose proof (batch_after_length ts procs withSignal trace) as Hlen.
  set (b := batch_after withSignal trace (batch_start ts procs)) in *.
  unfold batch_step at 1. cbn [b_errors]. f_equal.
  rewrite omap_imap_seq, Hlen.
  apply omap_ext_in. intros k _.
  rewrite !(observed_promise_state ts procs), batch_after_snoc, batch_step_lookup.
  fold b. by destruct (b_slots b !! k).
Qed.

(** Once [runAll] has settled, later events do not change its outcome: the
    promise it returned settles once. *)
Lemma outcome_stable ts procs `{!launchable ts procs} withSignal trace o :
  ∀ later,
  outcome ts procs withSignal trace = Some o →
  outcome ts procs withSignal (trace ++ later) = Some o.
Proof.
  induction later as [|e later IH] using rev_ind; intros Ho.
  - by rewrite app_nil_r.
  - specialize (IH Ho). rewrite app_assoc.
    set (tr := trace ++ later) in *. clearbody tr. clear Ho.
    rewrite (outcome_spec ts procs) in *.
    destruct (forallb _ (seq 0 (length procs))) eqn:Hall; [|done].
    rewrite forallb_forall in Hall.
    assert (Hset : ∀ k, k < length procs →
              ∃ o', promise_state (observed ts procs withSignal tr) k
                    = Some o').
    { intros k Hk. specialize (Hall k). unfold is_settled in Hall.
      destruct (promise_state _ k) as [o'|]; [by exists o'|].
      discriminate Hall. apply in_seq. lia. }
    replace (forallb (is_settled (observed ts procs withSignal (tr ++ [e])))
               (seq 0 (length procs))) with true.
    + rewrite (errors_snoc ts procs).
      replace (omap _ (seq 0 (length procs))) with (@nil Error);
        [by rewrite app_nil_r|].
      symmetry. clear IH Hall.
      assert (Hnone : ∀ n : nat, (n <= length procs)%nat →
                omap (λ k, newly_rejected
                  (promise_state (observed ts procs withSignal tr) k)
                  (promise_state (observed ts procs withSignal (tr ++ [e])) k))
                  (seq 0 n) = []).
      { induction n as [|n IHn]; intros Hn; [done|].
        rewrite seq_S, omap_app, IHn by lia. cbn.
        destruct (Hset n) as [o' ->]; [lia|]. done. }
      by apply Hnone.
    + symmetry. apply forallb_forall. intros k Hk. apply in_seq in Hk.
      destruct (Hset k) as [o' Ho']; [lia|].
      unfold is_settled.
      by rewrite (observed_settled_snoc _ _ _ _ e k o' Ho').
Qed.

Lemma forallb_false {A} (f : A → bool) (l : list A) :
  forallb f l = false → ∃ x, x ∈ l ∧ f x = false.
Proof.
  induction l as [|x l IH]; [done|]. cbn.
  destruct (f x) eqn:Hx.
  - intros H. destruct (IH H) as (y & Hy & Hfy). exists y.
    split; [by apply list_elem_of_further|done].
  - intros _. exists x. split; [apply list_elem_of_here|done].
Qed.

(** *** The fate of a process *)

Lemma fate_snoc withSignal k i trace e :
  fate withSignal k i (trace ++ [e])
  = match fate withSignal k i trace with
    | Some o => Some o
    | None => report withSignal k i e
    end.
Proof.
  unfold fate. rewrite omap_app.
  destruct (omap (report withSignal k i) trace) as [|o l]; [|done].
  cbn. by destruct (report withSignal k i e).
Qed.

Lemma fate_aborted withSignal k i trace :
  fate withSignal k i trace = None → withSignal = true →
  existsb (is_Abort 0) trace = false.
Proof.
  intros Hf ->. induction trace as [|e trace IH] using rev_ind; [done|].
  rewrite fate_snoc in Hf. rewrite existsb_app. cbn [existsb].
  destruct (fate true k i trace); [done|]. rewrite IH by done.
  destruct e as [c code sg|c code sg|c err|[|s]]; try done.
Qed.

Lemma close_outcome_report i code :
  close_outcome i code
  = match code with
    | Some 0%Z => Resolved
    | _ => Rejected (ProcessExited i code)
    end.
Proof. unfold close_outcome. by destruct code as [[| |]|]. Qed.

(** The state of the promise of a slot is the fate of its process. *)
Lemma batch_after_fate ts procs withSignal trace (k : nat) :
  k < length procs →
  ∃ s, b_slots (batch_after withSignal trace (batch_start ts procs)) !! k
       = Some s
       ∧ ids ts procs !! k = Some (s_id s)
       ∧ s_state s = fate withSignal k (s_id s) trace.
Proof.
  intros Hk. induction trace as [|e trace IH] using rev_ind.
  - cbn. unfold ids. rewrite !list_lookup_fmap.
    destruct (lookup_lt_is_Some_2 procs k Hk) as [p Hp]. rewrite Hp. cbn.
    by eexists.
  - destruct IH as (s & Hs & Hid & Hst).
    rewrite batch_after_snoc, batch_step_lookup, Hs.
    cbn [fmap option_fmap option_map].
    eexists. split; [done|]. rewrite slot_step_id. split; [done|].
    rewrite fate_snoc, <- Hst, batch_after_aborted. cbn [batch_start b_aborted orb].
    destruct (s_state s) as [o|] eqn:Ho.
    { by apply slot_step_settled. }
    destruct e as [c code sg|c code sg|c err|[|z]]; cbn [slot_step report];
      rewrite ?Ho; try done.
    + destruct (Nat.eqb c k); [|done].
      unfold settle_slot. rewrite Ho. cbn. by rewrite close_outcome_report.
    + destruct (Nat.eqb c k); [|done].
      unfold settle_slot. by rewrite Ho.
    + destruct withSignal; cbn [andb Nat.eqb]; [|done].
      rewrite (fate_aborted true k (s_id s) trace) by done.
      cbn. unfold settle_slot. cbn. by rewrite Ho.
    + by rewrite andb_false_r.
Qed.

Lemma observed_fate ts procs `{!launchable ts procs} withSignal trace
    (k : nat) i :
  ids ts procs !! k = Some i →
  promise_state (observed ts procs withSignal trace) k
  = fate withSignal k i trace.
Proof.
  intros Hi.
  assert (Hk : k < length procs).
  { apply lookup_lt_Some in Hi. unfold ids in Hi.
    by rewrite length_fmap in Hi. }
  destruct (batch_after_fate ts procs withSignal trace k Hk)
    as (s & Hs & Hid & Hst).
  rewrite (observed_promise_state ts procs), Hs. cbn.
  rewrite Hst. congruence.
Qed.

(** *** The causes *)

Lemma causes_from_snoc withSignal is_ trace e : ∀ before,
  causes_from withSignal is_ before (trace ++ [e])
  = causes_from withSignal is_ before trace
    ++ failures_at withSignal is_ (before ++ trace) e.
Proof.
  induction trace as [|e' trace IH]; intros before; cbn.
  - by rewrite !app_nil_r.
  - rewrite IH, <- !app_assoc. done.
Qed.

Lemma errors_causes ts procs `{!launchable ts procs} withSignal trace :
  errors ts procs withSignal trace = causes withSignal (ids ts procs) trace.
Proof.
  induction trace as [|e trace IH] using rev_ind.
  - rewrite (errors_batch ts procs). done.
  - rewrite (errors_snoc ts procs), IH. unfold causes.
    rewrite causes_from_snoc. f_equal. cbn [app].
    unfold failures_at. rewrite omap_imap_seq.
    replace (length (ids ts procs)) with (length procs)
      by (unfold ids; by rewrite length_fmap).
    apply omap_ext_in. intros k Hk. apply elem_of_seq in Hk.
    destruct (lookup_lt_is_Some_2 (ids ts procs) k) as [i Hi].
    { unfold ids. rewrite length_fmap. lia. }
    rewrite !(observed_fate ts procs _ _ k i Hi), fate_snoc, Hi. cbn.
    by destruct (fate withSignal k i trace).
Qed.

(** C5, as stated, fails: with one process in the group and no event from
    the executor at all, triggering the signal rejects the promise of the
    process with "AbortSignal triggered", and [runAll] rejects. *)
Lemma runAll_abort_settles_without_exit :
  let ts := [new_task 1 "sleep 5"] in
  promise_state (observed ts [0] true []) 0 = None
  ∧ promise_state (observed ts [0] true [Abort 0]) 0
    = Some (Rejected AbortSignalTriggered)
  ∧ outcome ts [0] true [Abort 0]
    = Some (AtLeastOneFailed [AbortSignalTriggered])
  ∧ existsb (reports 0) [Abort 0] = false.
Proof. vm_compute. repeat split; reflexivity. Qed.

(** C5, amended, for a group whose commands [spawn] launches: when the
    signal given to [runAll] is triggered for the first time, termination is
    requested ([kill()]) of every process whose promise is still pending,
    and that promise is rejected at once with "AbortSignal triggered" and
    stays so whatever the process reports afterwards; a promise that is
    already settled keeps its outcome. *)
Theorem runAll_abort_effect ts procs trace (k : nat) :
  launchable ts procs →
  Abort 0 ∉ trace →
  k < length procs →
  let w := observed ts procs true trace in
  let w' := observed ts procs true (trace ++ [Abort 0]) in
  match promise_state w k with
  | None =>
      child_kills w' k = child_kills w k ++ ["SIGTERM"]
      ∧ ∀ later,
          promise_state (observed ts procs true (trace ++ Abort 0 :: later)) k
          = Some (Rejected AbortSignalTriggered)
  | Some o =>
      ∀ later,
        promise_state (observed ts procs true (trace ++ Abort 0 :: later)) k
        = Some o
  end.
Proof.
  intros Hl Hno Hk w w'.
  destruct (observed_abort ts procs trace k Hno Hk) as [Hkill Hp].
  fold w w' in Hkill, Hp.
  assert (Hlater : ∀ o later, promise_state w' k = Some o →
            promise_state (observed ts procs true (trace ++ Abort 0 :: later)) k
            = Some o).
  { intros o later Ho. rewrite (cons_middle (Abort 0)), app_assoc.
    by apply observed_settled_later. }
  destruct (promise_state w k) as [o|].
  - intros later. by apply Hlater.
  - split; [done|]. intros later. by apply Hlater.
Qed.

Lemma runAll_abort_effect_witness :
  let ts := [new_task 1 "exit 0"; new_task 2 "sleep 5"] in
  let trace := [Close 0 (Some 0%Z) None] in
  let w := observed ts [0; 1] true trace in
  let w' := observed ts [0; 1] true (trace ++ [Abort 0]) in
  promise_state w 1 = None
  ∧ child_kills w' 1 = child_kills w 1 ++ ["SIGTERM"]
  ∧ promise_state
      (observed ts [0; 1] true (trace ++ [Abort 0; Close 1 (Some 0%Z) None])) 1
    = Some (Rejected AbortSignalTriggered).
Proof.
  assert (H := runAll_abort_effect
                 [new_task 1 "exit 0"; new_task 2 "sleep 5"] [0; 1]
                 [Close 0 (Some 0%Z) None] 1).
  cbv zeta in H.
  assert (Hp : promise_state
                 (observed [new_task 1 "exit 0"; new_task 2 "sleep 5"] [0; 1]
                    true [Close 0 (Some 0%Z) None]) 1 = None)
    by (vm_compute; reflexivity).
  rewrite Hp in H. split; [exact Hp|].
  destruct H as [Hkill Hlater].
  - repeat constructor.
  - intros Hin. apply is_Abort_elem in Hin. discriminate Hin.
  - cbn. lia.
  - split; [exact Hkill|]. apply (Hlater [Close 1 (Some 0%Z) None]).
Defined.

(** C6, as stated, fails: with two processes, of which the first closes
    with code 1 and the second is still running, triggering the signal
    settles [runAll] although the executor has reported nothing for the
    second process; its termination has only been requested. *)
Lemma runAll_abort_settles_before_close :
  let ts := [new_task 1 "exit 1"; new_task 2 "sleep 5"] in
  let trace := [Close 0 (Some 1%Z) None; Abort 0] in
  outcome ts [0; 1] true trace
  = Some (AtLeastOneFailed [ProcessExited 1 (Some 1%Z); AbortSignalTriggered])
  ∧ existsb (reports 1) trace = false
  ∧ child_kills (observed ts [0; 1] true trace) 1 = ["SIGTERM"].
Proof. vm_compute. repeat split; reflexivity. Qed.

(** C6, amended: unless the signal given to it is triggered, [runAll]
    settles only after the executor has reported, by 'close' or by 'error',
    for every process of the group: one failing process does not settle it
    while another has not reported.  Whenever [runAll] resolves, every
    process has closed with code 0.  When the signal is triggered for the
    first time, [runAll] is settled at that moment, whatever the processes
    do afterwards: it keeps the outcome it had if it had settled before, and
    is otherwise rejected with the causes collected up to then.  When
    [spawn] throws for a process of the group, [runAll] never settles. *)
Theorem runAll_waits_for_all ts procs withSignal trace :
  (outcome ts procs withSignal trace = Some AllExited →
   ∀ k, k < length procs → ∃ sg, Close k (Some 0%Z) sg ∈ trace)
  ∧ (withSignal = false ∨ Abort 0 ∉ trace →
     outcome ts procs withSignal trace ≠ None →
     ∀ k, k < length procs → existsb (reports k) trace = true)
  ∧ (launchable ts procs → withSignal = true →
     ∀ before later, trace = before ++ Abort 0 :: later → Abort 0 ∉ before →
       outcome ts procs withSignal trace
       = match outcome ts procs withSignal before with
         | Some o => Some o
         | None =>
             Some (AtLeastOneFailed
                     (errors ts procs withSignal (before ++ [Abort 0])))
         end)
  ∧ (¬ launchable ts procs → outcome ts procs withSignal trace = None).
Proof.
  split; [|split; [|split]].
  - intros Ho k Hk.
    destruct (decide (launchable ts procs)) as [Hl|Hl];
      [|by rewrite outcome_unlaunched in Ho].
    assert (Hs : outcome ts procs withSignal trace ≠ None) by congruence.
    pose proof (outcome_settled _ _ _ _ k Hs Hk) as Hset.
    destruct (observed_explained ts procs withSignal trace k Hk)
      as (p & _ & Hex).
    destruct (promise_state _ k) as [[|e]|] eqn:Hst; [done| |done].
    pose proof (rejected_in_errors _ _ _ _ k e Hk Hst) as Hin.
    rewrite (outcome_spec ts procs) in Ho.
    destruct (forallb _ _); [|done].
    destruct (errors ts procs withSignal trace); [|done].
    by apply not_elem_of_nil in Hin.
  - intros Hno Hs k Hk.
    destruct (decide (launchable ts procs)) as [Hl|Hl];
      [|by rewrite outcome_unlaunched in Hs].
    pose proof (outcome_settled _ _ _ _ k Hs Hk) as Hset.
    destruct (observed_explained ts procs withSignal trace k Hk)
      as (p & _ & Hex).
    destruct (promise_state _ k) as [o|]; [|done].
    by eapply explained_reports.
  - intros Hl -> before later -> Hno.
    rewrite (cons_middle (Abort 0)), app_assoc.
    destruct (outcome ts procs true before) as [o|] eqn:Hbefore.
    { rewrite <- app_assoc. by apply (outcome_stable ts procs). }
    apply (outcome_stable ts procs).
    rewrite (outcome_spec ts procs) in Hbefore |- *.
    replace (forallb (is_settled (observed ts procs true (before ++ [Abort 0])))
               (seq 0 (length procs))) with true.
    + destruct (forallb _ _) eqn:Hall in Hbefore;
        [by destruct (errors ts procs true before)|].
      apply forallb_false in Hall. destruct Hall as (k & Hk & Hpending).
      apply elem_of_seq in Hk. unfold is_settled in Hpending.
      destruct (observed_abort ts procs before k Hno) as [_ Hp]; [lia|].
      destruct (promise_state (observed ts procs true before) k); [done|].
      pose proof (rejected_in_errors ts procs true _ k _ ltac:(lia) Hp) as Hin.
      destruct (errors ts procs true (before ++ [Abort 0])); [|done].
      by apply not_elem_of_nil in Hin.
    + symmetry. apply forallb_forall. intros k Hk. apply in_seq in Hk.
      unfold is_settled.
      assert (Hin : Abort 0 ∈ before ++ [Abort 0]).
      { apply elem_of_app. right. by apply list_elem_of_singleton. }
      pose proof (observed_aborted_settled ts procs _ k Hin) as Hset.
      destruct (promise_state _ k); [done|]. exfalso. apply Hset; [lia|done].
  - apply outcome_unlaunched.
Qed.

Lemma runAll_waits_for_all_witness :
  let ts := [new_task 1 "exit 0"; new_task 2 "exit 1"] in
  let trace := [Close 1 (Some 1%Z) None; Close 0 (Some 0%Z) None] in
  outcome ts [0; 1] false trace ≠ None
  ∧ ∀ k, k < 2 → existsb (reports k) trace = true.
Proof.
  split; [discriminate|].
  apply (proj1 (proj2 (runAll_waits_for_all
                  [new_task 1 "exit 0"; new_task 2 "exit 1"] [0; 1] false
                  [Close 1 (Some 1%Z) None; Close 0 (Some 0%Z) None]))).
  - by left.
  - discriminate.
Defined.

(** C7, as stated, fails: the cause that cancellation leaves in [errors] is
    the same whatever the task, so no reading of a cause recovers the task
    it belongs to. *)
Lemma runAll_abort_cause_names_no_task :
  ¬ ∃ culprit : Error → Z,
      ∀ (i : Z) (e : Error),
        outcome [new_task i "sleep 5"] [0] true [Abort 0]
        = Some (AtLeastOneFailed [e]) →
        culprit e = i.
Proof.
  intros [culprit H].
  pose proof (H 1%Z AbortSignalTriggered eq_refl) as H1.
  pose proof (H 2%Z AbortSignalTriggered eq_refl) as H2.
  congruence.
Qed.

(** C7, amended, for a group whose commands [spawn] launches.  The promise
    of a process is settled by the first event that concerns the process: a
    'close' resolves it for the code 0 and rejects it for any other code, an
    executor error rejects it, and so does the triggering of the signal.
    [errors] holds exactly one cause per process that fails in this way and
    none for a process that succeeds, in the order in which the processes
    fail (those that fail by the same cancellation in the order of the
    group).  The cause of a 'close' carries the id of the task and the
    code; the cause of an executor error is that error and the cause of a
    cancellation is "AbortSignal triggered": those two do not identify the
    task.  [runAll] is pending as long as a process has no fate; once every
    process has one, it resolves when there is no cause and rejects with
    the error built from the causes otherwise.  For [exit 0, exit 1, exit 0]
    and no cancellation there is one cause, with the id of the second
    task, in whatever order the three processes close. *)
Theorem runAll_errors_spec ts procs withSignal trace :
  launchable ts procs →
  let w := observed ts procs withSignal trace in
  (∀ k i, ids ts procs !! k = Some i →
          promise_state w k = fate withSignal k i trace)
  ∧ errors ts procs withSignal trace = causes withSignal (ids ts procs) trace
  ∧ errors ts procs withSignal trace
    ≡ₚ omap (λ x, x)
         (imap (λ k i, rejection (fate withSignal k i trace)) (ids ts procs))
  ∧ (∀ k i e, ids ts procs !! k = Some i →
       fate withSignal k i trace = Some (Rejected e) →
       e ∈ errors ts procs withSignal trace)
  ∧ ((∃ k i, ids ts procs !! k = Some i ∧ fate withSignal k i trace = None) →
     outcome ts procs withSignal trace = None)
  ∧ ((∀ k i, ids ts procs !! k = Some i →
             fate withSignal k i trace ≠ None) →
     outcome ts procs withSignal trace
     = match causes withSignal (ids ts procs) trace with
       | [] => Some AllExited
       | es => Some (AtLeastOneFailed es)
       end)
  ∧ (∀ i1 i2 i3 closes,
       closes ≡ₚ [Close 0 (Some 0%Z) None; Close 1 (Some 1%Z) None;
                  Close 2 (Some 0%Z) None] →
       outcome [new_task i1 "exit 0"; new_task i2 "exit 1";
                new_task i3 "exit 0"] [0; 1; 2] false closes
       = Some (AtLeastOneFailed [ProcessExited i2 (Some 1%Z)])).
Proof.
  intros Hl w.
  assert (Hlen : length (ids ts procs) = length procs).
  { unfold ids. by rewrite length_fmap. }
  assert (Hfate : ∀ k i, ids ts procs !! k = Some i →
            promise_state w k = fate withSignal k i trace).
  { intros k i Hi. by apply observed_fate. }
  split; [exact Hfate|]. split; [by apply errors_causes|].
  split; [|split; [|split; [|split]]].
  - rewrite (errors_rejections ts procs), omap_imap_seq, Hlen.
    erewrite omap_ext_in; [done|]. intros k Hk. apply elem_of_seq in Hk.
    destruct (lookup_lt_is_Some_2 (ids ts procs) k) as [i Hi]; [lia|].
    rewrite Hi. cbn. fold w. by rewrite (Hfate k i Hi).
  - intros k i e Hi Hf.
    apply (rejected_in_errors ts procs withSignal trace k).
    + apply lookup_lt_Some in Hi. lia.
    + fold w. by rewrite (Hfate k i Hi).
  - intros (k & i & Hi & Hf). rewrite (outcome_spec ts procs).
    destruct (forallb _ _) eqn:Hall; [|done].
    rewrite forallb_forall in Hall. specialize (Hall k).
    unfold is_settled in Hall. fold w in Hall.
    rewrite (Hfate k i Hi), Hf in Hall. discriminate Hall.
    apply in_seq. apply lookup_lt_Some in Hi. lia.
  - intros Hall. rewrite (outcome_spec ts procs), <- (errors_causes ts procs).
    replace (forallb (is_settled (observed ts procs withSignal trace))
               (seq 0 (length procs))) with true; [done|].
    symmetry. apply forallb_forall. intros k Hk. apply in_seq in Hk.
    destruct (lookup_lt_is_Some_2 (ids ts procs) k) as [i Hi]; [lia|].
    unfold is_settled. fold w. rewrite (Hfate k i Hi).
    specialize (Hall k i Hi). by destruct (fate withSignal k i trace).
  - intros i1 i2 i3 closes Hperm.
    symmetry in Hperm. apply permutations_Permutation in Hperm.
    vm_compute in Hperm. apply list_elem_of_In in Hperm.
    repeat (destruct Hperm as [<-|Hperm]; [vm_compute; reflexivity|]).
    destruct Hperm.
Qed.

Lemma runAll_errors_spec_witness :
  let ts := [new_task 1 "exit 0"; new_task 2 "exit 1"; new_task 3 "exit 0"] in
  let trace := [Close 2 (Some 0%Z) None; Close 1 (Some 1%Z) None;
                Close 0 (Some 0%Z) None] in
  launchable ts [0; 1; 2]
  ∧ errors ts [0; 1; 2] false trace = [ProcessExited 2 (Some 1%Z)]
  ∧ outcome ts [0; 1; 2] false trace
    = Some (AtLeastOneFailed [ProcessExited 2 (Some 1%Z)]).
Proof.
  assert (Hl : launchable
                 [new_task 1 "exit 0"; new_task 2 "exit 1";
                  new_task 3 "exit 0"] [0; 1; 2])
    by (repeat constructor).
  split; [exact Hl|].
  destruct (runAll_errors_spec
              [new_task 1 "exit 0"; new_task 2 "exit 1"; new_task 3 "exit 0"]
              [0; 1; 2] false
              [Close 2 (Some 0%Z) None; Close 1 (Some 1%Z) None;
               Close 0 (Some 0%Z) None] Hl)
    as (_ & Herrors & _ & _ & _ & Houtcome & _).
  split; [exact Herrors|]. apply Houtcome.
  intros [|[|[|k]]] i Hi; vm_compute in Hi; [discriminate..|done].
Defined.

(** The message of the error [runAll] throws in the scenario of the three
    tasks, with the ids 1, 2 and 3. *)
Lemma runAll_three_tasks_message :
  batch_message
    (errors [new_task 1 "exit 0"; new_task 2 "exit 1"; new_task 3 "exit 0"]
       [0; 1; 2] false
       [Close 0 (Some 0%Z) None; Close 1 (Some 1%Z) None;
        Close 2 (Some 0%Z) None])
  = Some ("At least one process has exited with an error:" +:+ newline
            +:+ "Process 2 exited with code 1").
Proof. vm_compute. reflexivity. Qed.

(** * Further properties of the two classes *)

(** ** The manager's collection, continued *)

Lemma find_filter {A} (P Q : A → Prop) `{∀ x, Decision (P x)}
    `{∀ x, Decision (Q x)} (l : list A) :
  (∀ x, P x → Q x) →
  snd <$> list_find P (filter Q l) = snd <$> list_find P l.
Proof.
  intros HPQ. induction l as [|x l IH]; [done|].
  destruct (decide (Q x)) as [HQ|HQ].
  - rewrite filter_cons_True by done. cbn.
    destruct (decide (P x)); [done|].
    destruct (list_find P (filter Q l)) as [[]|],
      (list_find P l) as [[]|]; cbn in *; congruence.
  - rewrite filter_cons_False by done. cbn.
    destruct (decide (P x)) as [HP|]; [by apply HPQ in HP|].
    rewrite IH. by destruct (list_find P l) as [[]|].
Qed.

Lemma processes_addProcess (w : World) (this process : nat) :
  is_Some (managers w !! this) →
  processes this (fst (addProcess this process w))
  = processes this w ++ [process].
Proof.
  intros [ps Hps]. unfold processes, manager, addProcess. cbn.
  rewrite list_lookup_alter, decide_True by done. by rewrite Hps.
Qed.

(** X1: [getProcess(id)] returns the first task of the manager, in its
    order, whose id is the given one, and [undefined] exactly when no task
    of the manager has that id. *)
Theorem getProcess_spec (w : World) (this : nat) (i : Z) :
  (getProcess this i w = None
   ↔ ∀ process, process ∈ processes this w → id (task w process) ≠ i)
  ∧ (∀ process,
       getProcess this i w = Some process
       ↔ ∃ k, processes this w !! k = Some process
              ∧ id (task w process) = i
              ∧ ∀ j q, j < k → processes this w !! j = Some q →
                       id (task w q) ≠ i).
Proof.
  unfold getProcess. split.
  - rewrite fmap_None, list_find_None, Forall_forall. done.
  - intros process. rewrite fmap_Some. split.
    + intros ([k q] & Hfind & ->). apply list_find_Some in Hfind.
      destruct Hfind as (Hk & Hid & Hfirst). exists k. cbn.
      split; [done|]. split; [done|]. intros j q' Hj Hq'. by eapply Hfirst.
    + intros (k & Hk & Hid & Hfirst). exists (k, process). split; [|done].
      apply list_find_Some. split; [done|]. split; [done|].
      intros j q' Hq' Hj. by eapply Hfirst.
Qed.

(** X2: [addProcess] appends the task at the end of the manager's list,
    whatever is in it (duplicates are kept).  A lookup by id afterwards
    still finds what it found before; only when it found nothing does it
    find the added task, if that has the id. *)
Theorem addProcess_getProcess (w : World) (this process : nat) (i : Z) :
  is_Some (managers w !! this) →
  let w' := fst (addProcess this process w) in
  processes this w' = processes this w ++ [process]
  ∧ tasks w' = tasks w
  ∧ getProcess this i w'
    = match getProcess this i w with
      | Some found => Some found
      | None => if decide (id (task w process) = i) then Some process
                else None
      end.
Proof.
  intros Hm w'. unfold w'. split; [by apply processes_addProcess|].
  split; [done|]. unfold getProcess at 1.
  rewrite processes_addProcess by done.
  change (task (addProcess this process w).1) with (task w).
  unfold getProcess.
  destruct (list_find _ (processes this w)) as [[k q]|] eqn:Hfind; cbn.
  - by rewrite (list_find_app_l _ _ _ _ _ Hfind).
  - rewrite list_find_app_r by done. cbn.
    by destruct (decide (id (task w process) = i)).
Qed.

Lemma addProcess_getProcess_witness :
  let w := fst (new_Manager [0]
             (fst (new_PredictedProcess 7 "b"
               (fst (new_PredictedProcess 5 "a" empty_world))))) in
  getProcess 0 7%Z w = None
  ∧ getProcess 0 7%Z (fst (addProcess 0 1 w)) = Some 1
  ∧ getProcess 0 5%Z (fst (addProcess 0 1 w)) = Some 0.
Proof.
  split; [by vm_compute|].
  pose proof (addProcess_getProcess
    (fst (new_Manager [0]
       (fst (new_PredictedProcess 7 "b"
          (fst (new_PredictedProcess 5 "a" empty_world)))))) 0 1) as H.
  split.
  - destruct (H 7%Z) as (_ & _ & ->); [by eexists|]. by vm_compute.
  - destruct (H 5%Z) as (_ & _ & ->); [by eexists|]. by vm_compute.
Defined.

(** X3: after [removeProcess(id)] a lookup of that id finds nothing, and a
    lookup of any other id finds what it found before. *)
Theorem removeProcess_getProcess (w : World) (this : nat) (i j : Z) :
  let w' := fst (removeProcess this i w) in
  getProcess this i w' = None
  ∧ (j ≠ i → getProcess this j w' = getProcess this j w).
Proof.
  intros w'. unfold w', getProcess.
  rewrite removeProcess_processes.
  change (task (removeProcess this i w).1) with (task w). split.
  - rewrite fmap_None, list_find_None, Forall_forall.
    intros p Hp. apply list_elem_of_filter in Hp. by destruct Hp.
  - intros Hne. apply find_filter. intros p Hp. congruence.
Qed.

Lemma removeProcess_getProcess_witness :
  let w := fst (new_Manager [0; 1]
             (fst (new_PredictedProcess 7 "b"
               (fst (new_PredictedProcess 5 "a" empty_world))))) in
  getProcess 0 5%Z w = Some 0
  ∧ getProcess 0 5%Z (fst (removeProcess 0 5%Z w)) = None
  ∧ getProcess 0 7%Z (fst (removeProcess 0 5%Z w)) = getProcess 0 7%Z w.
Proof.
  split; [by vm_compute|].
  pose proof (removeProcess_getProcess
    (fst (new_Manager [0; 1]
       (fst (new_PredictedProcess 7 "b"
          (fst (new_PredictedProcess 5 "a" empty_world)))))) 0 5%Z 7%Z) as H.
  destruct H as [H1 H2]. split; [exact H1|]. apply H2. discriminate.
Defined.

Lemma removeProcess_world (w : World) (this : nat) (i : Z) :
  fst (removeProcess this i w)
  = with_managers
      (alter (filter (λ process, id (task w process) ≠ i)) this) w.
Proof. done. Qed.

(** X4: removing an id twice is the same as removing it once, removals of
    two ids can be done in either order, and removing an id commutes with
    adding a task that has another id. *)
Theorem removeProcess_compose (w : World) (this process : nat) (i j : Z) :
  fst (removeProcess this i (fst (removeProcess this i w)))
  = fst (removeProcess this i w)
  ∧ fst (removeProcess this j (fst (removeProcess this i w)))
    = fst (removeProcess this i (fst (removeProcess this j w)))
  ∧ (id (task w process) ≠ i →
     fst (removeProcess this i (fst (addProcess this process w)))
     = fst (addProcess this process (fst (removeProcess this i w)))).
Proof.
  rewrite !removeProcess_world. unfold addProcess, with_managers, task.
  cbn [tasks managers children signals promises arrays executor fst].
  split; [|split].
  - f_equal. rewrite list_alter_alter_eq. apply list_alter_ext; [|done].
    intros ps _. cbn. by rewrite list_filter_filter_r.
  - f_equal. rewrite !list_alter_alter_eq. apply list_alter_ext; [|done].
    intros ps _. cbn. rewrite !list_filter_filter.
    apply list_filter_iff. tauto.
  - intros Hne. f_equal. rewrite !list_alter_alter_eq.
    apply list_alter_ext; [|done]. intros ps _. cbn.
    by rewrite filter_app, filter_cons_True, filter_nil.
Qed.

Lemma removeProcess_compose_witness :
  let w := fst (new_Manager [0; 1]
             (fst (new_PredictedProcess 7 "b"
               (fst (new_PredictedProcess 5 "a" empty_world))))) in
  processes 0 (fst (removeProcess 0 5 (fst (addProcess 0 1 w)))) = [1; 1]
  ∧ fst (removeProcess 0 5 (fst (addProcess 0 1 w)))
    = fst (addProcess 0 1 (fst (removeProcess 0 5 w))).
Proof.
  split; [by vm_compute|].
  apply (removeProcess_compose
    (fst (new_Manager [0; 1]
       (fst (new_PredictedProcess 7 "b"
          (fst (new_PredictedProcess 5 "a" empty_world)))))) 0 1 5%Z 0%Z).
  vm_compute. discriminate.
Defined.

(** ** runAll, continued *)

(** X5: when [spawn] launches the command of every process of the manager,
    [runAll] spawns one child process per entry of the manager's list, in
    the order of the list and with the command of the entry's task (a task
    that is in the list twice is launched twice), whether or not the task
    is running; it returns with every promise pending and nothing killed,
    registers one abort listener per process on the signal it was given,
    and neither it nor any later event touches the task objects or spawns
    anything more. *)
Theorem runAll_launches_each ts procs withSignal :
  launchable ts procs →
  let w := fst (started ts procs withSignal) in
  spawnfile <$> children w
  = (λ process, command (task (group ts procs) process)) <$> procs
  ∧ ra_promises (snd (started ts procs withSignal)) = seq 0 (length procs)
  ∧ (∀ k, k < length procs →
       promise_state w k = None ∧ child_kills w k = [])
  ∧ length (signal_listeners w 0) = (if withSignal then length procs else 0)
  ∧ ∀ trace,
      tasks (observed ts procs withSignal trace) = ts
      ∧ length (children (observed ts procs withSignal trace)) = length procs.
Proof.
  intros Hl w. unfold w. rewrite (started_batch ts procs _).
  cbn [fst snd ra_promises].
  split; [|split; [done|split; [|split]]].
  - unfold batch_heap, batch_world. cbn [children b_slots].
    apply list_eq. intros k.
    rewrite !list_lookup_fmap, list_lookup_imap, list_lookup_fmap.
    by destruct (procs !! k).
  - intros k Hk. rewrite promise_state_batch, child_kills_batch.
    cbn [b_slots]. rewrite list_lookup_fmap.
    destruct (lookup_lt_is_Some_2 procs k Hk) as [p ->]. done.
  - unfold signal_listeners, batch_heap, batch_world. cbn.
    destruct withSignal; [|done].
    by rewrite !length_fmap, length_seq.
  - intros trace. rewrite (observed_batch ts procs).
    unfold batch_heap, batch_world. cbn [tasks children]. split; [done|].
    by rewrite length_imap, batch_after_length.
Qed.

Lemma runAll_launches_each_witness :
  let ts := [new_task 1 "sleep 5"; new_task 2 "exit 0"] in
  let w := fst (started ts [1; 0; 1] true) in
  spawnfile <$> children w = ["exit 0"; "sleep 5"; "exit 0"]
  ∧ length (signal_listeners w 0) = 3.
Proof.
  destruct (runAll_launches_each
              [new_task 1 "sleep 5"; new_task 2 "exit 0"] [1; 0; 1] true)
    as (H1 & _ & _ & H2 & _).
  - repeat constructor.
  - split; [exact H1|exact H2].
Defined.

(** X6: on a manager without tasks [runAll] spawns nothing and resolves at
    once, and stays resolved whatever happens afterwards. *)
Theorem runAll_empty ts withSignal trace :
  outcome ts [] withSignal trace = Some AllExited
  ∧ children (observed ts [] withSignal trace) = [].
Proof.
  split.
  - rewrite (outcome_spec ts []). cbn [length seq forallb].
    pose proof (errors_rejections ts [] withSignal trace) as H.
    cbn in H. apply Permutation_nil_r in H. by rewrite H.
  - apply length_zero_iff_nil.
    rewrite (observed_batch ts []). unfold batch_heap, batch_world. cbn [children].
    by rewrite length_imap, batch_after_length.
Qed.

Lemma settled_errors_snoc ts procs `{!launchable ts procs} withSignal trace e :
  outcome ts procs withSignal trace ≠ None →
  errors ts procs withSignal (trace ++ [e]) = errors ts procs withSignal trace.
Proof.
  intros Ho. rewrite (errors_snoc ts procs).
  assert (Hnone : ∀ n : nat, (n <= length procs)%nat →
            omap (λ k, newly_rejected
              (promise_state (observed ts procs withSignal trace) k)
              (promise_state (observed ts procs withSignal (trace ++ [e])) k))
              (seq 0 n) = []).
  { induction n as [|n IHn]; intros Hn; [done|].
    rewrite seq_S, omap_app, IHn by lia. cbn.
    pose proof (outcome_settled ts procs withSignal trace n Ho) as Hs.
    destruct (promise_state (observed ts procs withSignal trace) n);
      [done|]. exfalso. apply Hs; [lia|done]. }
  rewrite Hnone by done. by rewrite app_nil_r.
Qed.

(** X7: the promise [runAll] returns settles once: after it has settled, no
    event changes its outcome or adds an error to [errors]. *)
Theorem runAll_settles_once ts procs withSignal trace o later :
  outcome ts procs withSignal trace = Some o →
  outcome ts procs withSignal (trace ++ later) = Some o
  ∧ errors ts procs withSignal (trace ++ later)
    = errors ts procs withSignal trace.
Proof.
  intros Ho.
  destruct (decide (launchable ts procs)) as [Hl|Hl];
    [|by rewrite outcome_unlaunched in Ho].
  split; [by apply (outcome_stable ts procs)|].
  induction later as [|e later IH] using rev_ind.
  - by rewrite app_nil_r.
  - rewrite app_assoc, (settled_errors_snoc ts procs); [done|].
    by rewrite (outcome_stable ts procs _ _ o later Ho).
Qed.

Lemma runAll_settles_once_witness :
  let ts := [new_task 1 "exit 1"; new_task 2 "exit 0"] in
  let trace := [Close 0 (Some 1%Z) None; Close 1 (Some 0%Z) None] in
  let later := [Abort 0; Close 1 (Some 3%Z) None; ErrorEvent 0 "late"] in
  outcome ts [0; 1] true trace
  = Some (AtLeastOneFailed [ProcessExited 1 (Some 1%Z)])
  ∧ outcome ts [0; 1] true (trace ++ later)
    = Some (AtLeastOneFailed [ProcessExited 1 (Some 1%Z)])
  ∧ errors ts [0; 1] true (trace ++ later) = errors ts [0; 1] true trace.
Proof.
  split; [by vm_compute|].
  apply (runAll_settles_once
           [new_task 1 "exit 1"; new_task 2 "exit 0"] [0; 1] true
           [Close 0 (Some 1%Z) None; Close 1 (Some 0%Z) None]
           (AtLeastOneFailed [ProcessExited 1 (Some 1%Z)])
           [Abort 0; Close 1 (Some 3%Z) None; ErrorEvent 0 "late"]).
  by vm_compute.
Defined.

(** A promise that is still pending has seen no event that settles it. *)
Lemma pending_unreported ts procs `{!launchable ts procs} withSignal trace
    (k : nat) :
  k < length procs →
  promise_state (observed ts procs withSignal trace) k = None →
  existsb (reports k) trace = false.
Proof.
  intros Hk. induction trace as [|e trace IH] using rev_ind; [done|].
  rewrite existsb_app. cbn [existsb]. rewrite orb_false_r.
  destruct (promise_state (observed ts procs withSignal trace) k) as [o|]
    eqn:Hbefore.
  { by rewrite (observed_settled_snoc _ _ _ _ e k o Hbefore). }
  rewrite IH by done. cbn [orb].
  rewrite !(observed_promise_state ts procs) in *.
  rewrite batch_after_snoc, batch_step_lookup.
  destruct (batch_after_slot ts procs withSignal trace k Hk) as (s & Hs & _).
  rewrite Hs in *. cbn in Hbefore. cbn [fmap option_fmap option_map mbind option_bind].
  destruct e as [c code sg|c code sg|c err|z]; cbn [reports slot_step]; try done.
  - destruct (Nat.eqb c k); [|done].
    unfold settle_slot. rewrite Hbefore. done.
  - destruct (Nat.eqb c k); [|done].
    unfold settle_slot. rewrite Hbefore. done.
Qed.

(** X8: when every process of the group was launched and has closed, no
    'close' carried a code other than 0, the executor raised no error and
    the signal given to [runAll] was not triggered, [runAll] resolves. *)
Theorem runAll_all_succeed ts procs withSignal trace :
  launchable ts procs →
  (∀ k, k < length procs → existsb (reports k) trace = true) →
  (∀ c code sg, Close c code sg ∈ trace → code = Some 0%Z) →
  (∀ c err, ErrorEvent c err ∉ trace) →
  (withSignal = true → Abort 0 ∉ trace) →
  outcome ts procs withSignal trace = Some AllExited.
Proof.
  intros Hl Hall Hzero Hnoerr Hnoabort.
  assert (Hres : ∀ k, k < length procs →
            promise_state (observed ts procs withSignal trace) k
            = Some Resolved).
  { intros k Hk.
    destruct (observed_explained ts procs withSignal trace k Hk)
      as (p & _ & Hex).
    destruct (promise_state _ k) as [[|e]|] eqn:Hst; [done| |].
    - destruct Hex as [(code & sg & H & Hc & _)|[(err & H & _)|(Hw & H & _)]].
      + by apply Hzero in H.
      + by apply Hnoerr in H.
      + by apply Hnoabort in H.
    - apply (pending_unreported ts procs) in Hst; [|done].
      rewrite Hall in Hst; done. }
  rewrite (outcome_spec ts procs).
  replace (forallb (is_settled (observed ts procs withSignal trace))
             (seq 0 (length procs))) with true.
  - pose proof (errors_rejections ts procs withSignal trace) as Hperm.
    replace (omap _ (seq 0 (length procs))) with (@nil Error) in Hperm.
    + apply Permutation_nil_r in Hperm. by rewrite Hperm.
    + symmetry. clear Hperm.
      assert (Hnone : ∀ n : nat, (n <= length procs)%nat →
                omap (λ k, rejection
                  (promise_state (observed ts procs withSignal trace) k))
                  (seq 0 n) = []).
      { induction n as [|n IHn]; intros Hn; [done|].
        rewrite seq_S, omap_app, IHn by lia. cbn. by rewrite Hres by lia. }
      by apply Hnone.
  - symmetry. apply forallb_forall. intros k Hk. apply in_seq in Hk.
    unfold is_settled. by rewrite Hres by lia.
Qed.

Lemma runAll_all_succeed_witness :
  outcome [new_task 1 "exit 0"; new_task 2 "true"] [0; 1] true
    [Close 1 (Some 0%Z) None; Exit 0 (Some 0%Z) None; Close 0 (Some 0%Z) None]
  = Some AllExited.
Proof.
  apply runAll_all_succeed.
  - repeat constructor.
  - intros [|[|k]] Hk; [reflexivity..|cbn in Hk; lia].
  - intros c code sg H. apply list_elem_of_In in H.
    destruct H as [H|[H|[H|[]]]]; congruence.
  - intros c err H. apply list_elem_of_In in H.
    destruct H as [H|[H|[H|[]]]]; congruence.
  - intros _ H. apply list_elem_of_In in H.
    destruct H as [H|[H|[H|[]]]]; congruence.
Defined.

(** [runAll] never reads the [aborted] flag of a signal. *)
Lemma runAll_spawn_mark_aborted signal s w (ps : list nat) process :
  runAll_spawn signal (mark_aborted s w, ps) process
  = (mark_aborted s (fst (runAll_spawn signal (w, ps) process)),
     snd (runAll_spawn signal (w, ps) process)).
Proof.
  destruct w as [ts ms cs ss prs ars ex].
  unfold runAll_spawn. heap_cbv.
  destruct (if invalid_command _ then _ else _); [done|].
  destruct signal as [s'|]; heap_cbv; [|done].
  do 2 f_equal.
  destruct (decide (s' = s)) as [->|Hne].
  - rewrite !list_alter_alter_eq. by apply list_alter_ext.
  - by rewrite list_alter_alter_ne.
Qed.

Lemma runAll_loop_mark_aborted signal s procs : ∀ w (ps : list nat),
  foldl (runAll_spawn signal) (mark_aborted s w, ps) procs
  = (mark_aborted s (fst (foldl (runAll_spawn signal) (w, ps) procs)),
     snd (foldl (runAll_spawn signal) (w, ps) procs)).
Proof.
  induction procs as [|p procs IH]; intros w ps; [done|].
  cbn [foldl]. rewrite runAll_spawn_mark_aborted, IH.
  by destruct (runAll_spawn signal (w, ps) p).
Qed.

Lemma catch_mark_aborted s a w (p : nat) :
  catch a (mark_aborted s w) p = mark_aborted s (catch a w p).
Proof.
  destruct w as [ts ms cs ss prs ars ex].
  unfold catch. heap_cbv.
  by destruct (prs !! p) as [[[[]|]]|].
Qed.

Lemma catch_loop_mark_aborted s a ps : ∀ w,
  foldl (catch a) (mark_aborted s w) ps
  = mark_aborted s (foldl (catch a) w ps).
Proof.
  induction ps as [|p ps IH]; intros w; [done|].
  cbn [foldl]. by rewrite catch_mark_aborted, IH.
Qed.

Lemma runAll_mark_aborted this signal s w :
  runAll this signal (mark_aborted s w)
  = (mark_aborted s (fst (runAll this signal w)),
     snd (runAll this signal w)).
Proof.
  unfold runAll.
  change (manager (mark_aborted s w) this) with (manager w this).
  rewrite runAll_loop_mark_aborted.
  destruct (foldl (runAll_spawn signal) (w, []) (manager w this))
    as [w1 ps]. cbn [fst snd].
  unfold new_array.
  change (with_arrays (λ l, l ++ [[]]) (mark_aborted s w1))
    with (mark_aborted s (with_arrays (λ l, l ++ [[]]) w1)).
  change (length (arrays (mark_aborted s w1))) with (length (arrays w1)).
  by rewrite catch_loop_mark_aborted.
Qed.

Lemma started_aborted_batch ts procs `{!launchable ts procs} :
  started_aborted ts procs
  = (batch_heap ts procs true
       {| b_slots := new_slot ts <$> procs; b_errors := [];
          b_aborted := true |},
     {| ra_promises := seq 0 (length procs); ra_errors := 0 |}).
Proof.
  unfold started_aborted.
  change (abort 0 (group ts procs)) with (mark_aborted 0 (group ts procs)).
  rewrite runAll_mark_aborted.
  pose proof (started_batch ts procs true) as H. unfold started in H.
  cbn [context] in H. rewrite H. done.
Qed.

(** With the signal already aborted, the abort listeners never run: the
    slots evolve as without a signal. *)
Lemma batch_after_aborted_same trace : ∀ b b',
  b_slots b = b_slots b' → b_errors b = b_errors b' → b_aborted b = true →
  b_slots (batch_after true trace b) = b_slots (batch_after false trace b')
  ∧ b_errors (batch_after true trace b) = b_errors (batch_after false trace b').
Proof.
  induction trace as [|e trace IH]; intros b b' Hs He Ha; [done|].
  cbn [batch_after foldl]. apply IH.
  - unfold batch_step. cbn [b_slots]. rewrite Hs, Ha. apply imap_ext.
    intros k s _. by destruct e as [| | |[|]].
  - unfold batch_step. cbn [b_errors]. rewrite Hs, He, Ha.
    rewrite (imap_ext
      (λ k s, newly_rejected (s_state s) (s_state (slot_step true true e k s)))
      (λ k s, newly_rejected (s_state s)
                (s_state (slot_step false (b_aborted b') e k s))));
      [done|].
    intros k s _. by destruct e as [| | |[|]].
  - unfold batch_step. cbn [b_aborted]. by rewrite Ha.
Qed.

(** X9: [runAll] does not look at [signal.aborted].  Called with a signal
    that is already aborted, on a group whose commands [spawn] launches, it
    launches every process all the same, never kills one, and the
    per-process promises, the collected errors and its outcome are, after
    any events, those of a call without a signal. *)
Theorem runAll_ignores_aborted_signal ts procs trace :
  launchable ts procs →
  let w := after trace (fst (started_aborted ts procs)) in
  let r := snd (started_aborted ts procs) in
  length (children w) = length procs
  ∧ (∀ k, promise_state w k
          = promise_state (observed ts procs false trace) k)
  ∧ (∀ k, child_kills w k = [])
  ∧ array w (ra_errors r) = errors ts procs false trace
  ∧ runAll_outcome r w = outcome ts procs false trace.
Proof.
  intros Hl w r. unfold w, r. clear w r.
  rewrite (started_aborted_batch ts procs). cbn [fst snd].
  rewrite after_batch.
  set (b1 := {| b_slots := new_slot ts <$> procs; b_errors := [];
                b_aborted := true |}).
  destruct (batch_after_aborted_same trace b1 (batch_start ts procs))
    as [Hs He]; [done..|].
  assert (Hps : ∀ k, promise_state
                       (batch_heap ts procs true (batch_after true trace b1)) k
                     = promise_state (observed ts procs false trace) k).
  { intros k.
    by rewrite promise_state_batch, (observed_promise_state ts procs), Hs. }
  assert (Herr : array (batch_heap ts procs true (batch_after true trace b1)) 0
                 = errors ts procs false trace).
  { rewrite (errors_batch ts procs), <- He. done. }
  split; [|split; [done|split; [|split; [done|]]]].
  - unfold batch_heap, batch_world. cbn [children].
    by rewrite length_imap, Hs, batch_after_length.
  - intros k. rewrite child_kills_batch, Hs.
    destruct (b_slots (batch_after false trace (batch_start ts procs)) !! k)
      as [s|] eqn:Hk; [|done]. cbn.
    clear Hs He Hps Herr. revert s Hk.
    induction trace as [|e trace IH] using rev_ind; intros s Hk.
    + cbn in Hk. rewrite list_lookup_fmap in Hk.
      destruct (procs !! k); [|done]. by injection Hk as <-.
    + rewrite batch_after_snoc, batch_step_lookup in Hk.
      destruct (b_slots (batch_after false trace (batch_start ts procs)) !! k)
        as [s0|]; [|done].
      cbn in Hk. injection Hk as <-. specialize (IH s0 eq_refl).
      destruct e as [c code sg|c code sg|c err|[|z]]; cbn [slot_step andb];
        try done.
      * destruct (Nat.eqb c k); [|done]. unfold settle_slot.
        by destruct (s_state s0).
      * destruct (Nat.eqb c k); [|done]. unfold settle_slot.
        by destruct (s_state s0).
  - rewrite (outcome_spec ts procs). unfold runAll_outcome. cbn [ra_promises ra_errors].
    rewrite Herr.
    replace (forallb (is_settled
               (batch_heap ts procs true (batch_after true trace b1)))
               (seq 0 (length procs)))
      with (forallb (is_settled (observed ts procs false trace))
              (seq 0 (length procs))); [done|].
    induction (seq 0 (length procs)) as [|k l IHl]; [done|].
    cbn [forallb]. rewrite IHl. unfold is_settled at 1 3. by rewrite Hps.
Qed.

Lemma runAll_ignores_aborted_signal_witness :
  let ts := [new_task 1 "sleep 5"; new_task 2 "exit 1"] in
  let trace := [Close 1 (Some 1%Z) None; Abort 0] in
  let w := after trace (fst (started_aborted ts [0; 1])) in
  length (children w) = 2
  ∧ runAll_outcome (snd (started_aborted ts [0; 1])) w
    = outcome ts [0; 1] false trace.
Proof.
  destruct (runAll_ignores_aborted_signal
              [new_task 1 "sleep 5"; new_task 2 "exit 1"] [0; 1]
              [Close 1 (Some 1%Z) None; Abort 0])
    as (H1 & _ & _ & _ & H2).
  - repeat constructor.
  - split; [exact H1|exact H2].
Defined.

(** ** PredictedProcess.run in any heap, continued *)

(** *** The heap operations on the heap of a run *)

Lemma run_heap_task w this signal tk regs ls o t :
  tasks w !! this = Some t →
  task (run_heap w this signal tk regs ls o) this = tk t.
Proof.
  intros Ht. unfold task, run_heap. cbn [tasks].
  by rewrite list_lookup_alter, decide_True, Ht.
Qed.

Lemma run_heap_listeners w this signal tk regs ls o :
  child_listeners (run_heap w this signal tk regs ls o) (length (children w))
  = regs.
Proof.
  unfold child_listeners, run_heap. cbn [children].
  by rewrite lookup_snoc_last.
Qed.

Lemma run_heap_remove_registration w this signal tk regs ls o r :
  remove_registration (length (children w)) r
    (run_heap w this signal tk regs ls o)
  = run_heap w this signal tk (remove_first Registration_beq r regs) ls o.
Proof.
  destruct w as [ts ms cs ss prs ars]. heap_cbv'. by rewrite alter_snoc.
Qed.

Lemma run_heap_removeAllListeners w this signal tk regs ls o :
  removeAllListeners (length (children w))
    (run_heap w this signal tk regs ls o)
  = run_heap w this signal tk [] ls o.
Proof.
  destruct w as [ts ms cs ss prs ars]. heap_cbv'. by rewrite alter_snoc.
Qed.

Lemma run_heap_set_childProcess w this signal tk regs ls o x :
  set_childProcess this x (run_heap w this signal tk regs ls o)
  = run_heap w this signal
      (λ t, {| id := id (tk t); command := command (tk t);
               _childProcess := x; _isRunning := _isRunning (tk t) |})
      regs ls o.
Proof.
  destruct w as [ts ms cs ss prs ars]. heap_cbv'.
  by rewrite list_alter_alter_eq.
Qed.

Lemma run_heap_set_isRunning w this signal tk regs ls o b :
  set_isRunning this b (run_heap w this signal tk regs ls o)
  = run_heap w this signal
      (λ t, {| id := id (tk t); command := command (tk t);
               _childProcess := _childProcess (tk t); _isRunning := b |})
      regs ls o.
Proof.
  destruct w as [ts ms cs ss prs ars]. heap_cbv'.
  by rewrite list_alter_alter_eq.
Qed.

Lemma run_heap_resolve w this signal tk regs ls o :
  resolve (length (promises w)) (run_heap w this signal tk regs ls o)
  = run_heap w this signal tk regs ls (settle o Resolved).
Proof.
  destruct w as [ts ms cs ss prs ars]. heap_cbv'.
  rewrite lookup_snoc_last. destruct o; [done|]. by rewrite alter_snoc.
Qed.

Lemma run_heap_reject w this signal tk regs ls o e :
  reject (length (promises w)) e (run_heap w this signal tk regs ls o)
  = run_heap w this signal tk regs ls (settle o (Rejected e)).
Proof.
  destruct w as [ts ms cs ss prs ars]. heap_cbv'.
  rewrite lookup_snoc_last. destruct o; [done|]. cbn [foldl].
  by rewrite alter_snoc.
Qed.

Lemma run_heap_removeEventListener w this s tk regs ls o l :
  removeEventListener s l (run_heap w this (Some s) tk regs ls o)
  = run_heap w this (Some s) tk regs
      (λ x, remove_first Listener_beq l (ls x)) o.
Proof.
  destruct w as [ts ms cs ss prs ars]. heap_cbv'.
  by rewrite list_alter_alter_eq.
Qed.

Lemma run_heap_ext w this signal tk tk' regs ls ls' o :
  (∀ t, tk t = tk' t) → (∀ l, ls l = ls' l) →
  run_heap w this signal tk regs ls o = run_heap w this signal tk' regs ls' o.
Proof.
  intros Htk Hls. unfold run_heap. f_equal.
  - apply list_alter_ext; [|done]. intros t _. apply Htk.
  - destruct signal as [s|]; [|done]. apply list_alter_ext; [|done].
    intros sg _. by rewrite Hls.
Qed.

(** The executor reports an error for the child process of a run. *)
Lemma launched_error w this signal o err :
  deliver (launched w this signal o) (ErrorEvent (length (children w)) err)
  = launched w this signal (settle o (Rejected (ExecutorError err))).
Proof.
  unfold launched, deliver, emit. rewrite run_heap_listeners.
  replace (filter (λ r, EventName_beq (event r) error = true)
             (run_registrations this signal (length (children w))
                (length (promises w))))
    with [{| event := error; once := false;
             listener := onError (length (promises w)) |}]
    by (by destruct signal).
  cbn [foldl once listener call]. apply run_heap_reject.
Qed.

(** The child process of a run reports its exit. *)
Lemma launched_exit w this signal o code sg :
  is_Some (tasks w !! this) →
  deliver (launched w this signal o) (Exit (length (children w)) code sg)
  = exited w this signal (settle o (exit_outcome code sg)).
Proof.
  intros [t Ht]. unfold launched, exited, deliver, emit.
  rewrite run_heap_listeners.
  assert (Hsettle : ∀ tk regs ls,
    (if is_zero code
     then resolve (length (promises w)) (run_heap w this signal tk regs ls o)
     else if is_SIGABRT_or_null sg
          then reject (length (promises w)) (ProcessAborted sg)
                 (run_heap w this signal tk regs ls o)
          else reject (length (promises w)) (ProcessFailed code)
                 (run_heap w this signal tk regs ls o))
    = run_heap w this signal tk regs ls (settle o (exit_outcome code sg))).
  { intros tk regs ls. unfold exit_outcome.
    destruct (is_zero code); [apply run_heap_resolve|].
    destruct (is_SIGABRT_or_null sg); apply run_heap_reject. }
  destruct signal as [s|].
  - replace (filter (λ r, EventName_beq (event r) exit = true)
               (run_registrations this (Some s) (length (children w))
                  (length (promises w))))
      with [{| event := exit; once := true;
               listener := onExit this (length (promises w)) |};
            {| event := exit; once := true;
               listener := removeOnAbort s (length (children w)) |}] by done.
    cbn [foldl once listener]. rewrite run_heap_remove_registration.
    cbn [call]. rewrite (run_heap_task _ _ _ _ _ _ _ t Ht).
    cbn [_childProcess]. rewrite run_heap_removeAllListeners.
    rewrite run_heap_set_childProcess, run_heap_set_isRunning, Hsettle.
    rewrite run_heap_remove_registration. cbn [remove_first].
    rewrite run_heap_removeEventListener. by apply run_heap_ext.
  - replace (filter (λ r, EventName_beq (event r) exit = true)
               (run_registrations this None (length (children w))
                  (length (promises w))))
      with [{| event := exit; once := true;
               listener := onExit this (length (promises w)) |}] by done.
    cbn [foldl once listener]. rewrite run_heap_remove_registration.
    cbn [call]. rewrite (run_heap_task _ _ _ _ _ _ _ t Ht).
    cbn [_childProcess]. rewrite run_heap_removeAllListeners.
    rewrite run_heap_set_childProcess, run_heap_set_isRunning, Hsettle.
    reflexivity.
Qed.

Lemma launched_idle_live w this signal o :
  live w signal →
  already_aborted signal (launched w this signal o) = false.
Proof.
  destruct signal as [s|]; [|done]. intros (sg & Hs & Ha).
  unfold already_aborted, signal_aborted, launched, run_heap. cbn [signals].
  by rewrite list_lookup_alter, decide_True, Hs.
Qed.

Lemma exited_idle w this signal o :
  is_Some (tasks w !! this) → idle (exited w this signal o) this.
Proof.
  intros [t Ht]. eexists. unfold exited, run_heap. cbn [tasks].
  rewrite list_lookup_alter, decide_True, Ht by done. done.
Qed.

Lemma exited_live w this signal o :
  live w signal → live (exited w this signal o) signal.
Proof.
  destruct signal as [s|]; [|done]. intros (sg & Hs & Ha).
  eexists. unfold exited, run_heap. cbn [signals].
  rewrite list_lookup_alter, decide_True, Hs by done. done.
Qed.

Lemma exited_launches w this signal o :
  is_Some (tasks w !! this) →
  launches w (command (task w this)) →
  launches (exited w this signal o)
    (command (task (exited w this signal o) this)).
Proof.
  intros [t Ht] Hl. unfold exited.
  rewrite (run_heap_task _ _ _ _ _ _ _ t Ht). cbn [command].
  unfold launches in *. rewrite (spawn_throws_executor w) by done.
  unfold task in Hl. by rewrite Ht in Hl.
Qed.

Lemma remove_first_snoc_fresh (l : list Listener) (x : Listener) :
  x ∉ l → remove_first Listener_beq x (l ++ [x]) = l.
Proof.
  induction l as [|y l IH]; intros Hx; cbn.
  - by rewrite Listener_beq_refl.
  - apply not_elem_of_cons in Hx. destruct Hx as [Hne Hx].
    destruct (Listener_beq x y) eqn:Hb; [|by rewrite IH].
    exfalso. apply Hne.
    destruct x, y; cbn in Hb; try done;
      repeat (apply andb_true_iff in Hb; destruct Hb as [? Hb]);
      repeat match goal with
             | H : Nat.eqb _ _ = true |- _ => apply Nat.eqb_eq in H
             | H : Z.eqb _ _ = true |- _ => apply Z.eqb_eq in H
             end; congruence.
Qed.

(** X10: a call of [run] on a task without an execution in flight, with no
    signal or with one that is not aborted, and for a command that [spawn]
    launches, spawns exactly one child process, for the command of the
    task.  It returns a new, pending promise; the task is then running and
    holds the child process; the signal, if any, has got one more abort
    listener.  Other tasks, the managers, the earlier child processes and
    promises and the arrays are as before. *)
Theorem run_launches_one w this signal :
  idle w this → live w signal → launches w (command (task w this)) →
  let w1 := fst (run this signal w) in
  let p := snd (run this signal w) in
  let c := length (children w) in
  p = length (promises w)
  ∧ promise_state w1 p = None
  ∧ children w1
    = children w ++ [{| spawnfile := command (task w this);
                        listeners := run_registrations this signal c p;
                        kills := [] |}]
  ∧ task w1 this
    = {| id := id (task w this); command := command (task w this);
         _childProcess := Some c; _isRunning := true |}
  ∧ (∀ other, other ≠ this → tasks w1 !! other = tasks w !! other)
  ∧ match signal with
    | Some s => signal_listeners w1 s = signal_listeners w s ++ [onAbort c]
                ∧ signal_aborted w1 s = false
                ∧ ∀ s', s' ≠ s → signals w1 !! s' = signals w !! s'
    | None => signals w1 = signals w
    end
  ∧ managers w1 = managers w
  ∧ arrays w1 = arrays w
  ∧ ∀ q, q < length (promises w) → promises w1 !! q = promises w !! q.
Proof.
  intros Hidle Hlive Hl. rewrite run_launched by done. cbn [fst snd].
  destruct Hidle as (t & Ht & Hidle).
  split; [done|]. split.
  { unfold promise_state, launched, run_heap. cbn [promises].
    by rewrite lookup_snoc_last. }
  split; [done|]. split.
  { unfold launched. rewrite (run_heap_task _ _ _ _ _ _ _ t Ht).
    unfold task. by rewrite Ht. }
  split.
  { intros other Hne. unfold launched, run_heap. cbn [tasks].
    by rewrite list_lookup_alter_ne. }
  split.
  { destruct signal as [s|]; [|done]. destruct Hlive as (sg & Hs & Ha).
    unfold signal_listeners, signal_aborted, launched, run_heap.
    cbn [signals]. rewrite !list_lookup_alter, !decide_True, Hs by done.
    cbn. split; [done|]. split; [done|]. intros s' Hne.
    by rewrite list_lookup_alter_ne. }
  split; [done|]. split; [done|].
  intros q Hq. unfold launched, run_heap. cbn [promises].
  by rewrite lookup_app_l.
Qed.

Lemma run_launches_one_witness :
  let w := task_and_signal 1 "sleep 5" in
  promise_state (fst (run 0 (Some 0) w)) (snd (run 0 (Some 0) w)) = None
  ∧ children (fst (run 0 (Some 0) w))
    = [{| spawnfile := "sleep 5";
          listeners := run_registrations 0 (Some 0) 0 0;
          kills := [] |}].
Proof.
  destruct (run_launches_one (task_and_signal 1 "sleep 5") 0 (Some 0))
    as (Hp & Hstate & Hch & _).
  - eexists. split; reflexivity.
  - eexists. split; reflexivity.
  - reflexivity.
  - split; [exact Hstate|]. rewrite Hch, Hp. reflexivity.
Defined.

Lemma run_while_running w this signal :
  already_aborted signal w = false →
  _isRunning (task w this) = true →
  run this signal w = new_Promise (Some (Rejected ProcessAlreadyRunning)) w.
Proof. intros Ha Hr. unfold run. by rewrite Ha, Hr. Qed.

(** X11: once [run] has got past its two checks on a task, a second [run]
    on the same task is rejected with "Process is already running",
    whether the first has launched a child process or [spawn] has thrown:
    it spawns nothing and changes neither the task, the signals nor the
    first promise.  When the first [run] has launched a child process, its
    promise is still pending. *)
Theorem run_twice_rejected w this signal signal' :
  idle w this → live w signal → live w signal' →
  let w1 := fst (run this signal w) in
  let p1 := snd (run this signal w) in
  let w2 := fst (run this signal' w1) in
  let p2 := snd (run this signal' w1) in
  promise_state w2 p2 = Some (Rejected ProcessAlreadyRunning)
  ∧ promise_state w2 p1 = promise_state w1 p1
  ∧ (launches w (command (task w this)) → promise_state w2 p1 = None)
  ∧ children w2 = children w1
  ∧ tasks w2 = tasks w1
  ∧ signals w2 = signals w1.
Proof.
  intros Hidle Hlive Hlive'.
  assert (Hrun : ∀ w1 o,
    tasks w1 = alter (λ t, {| id := id t; command := command t;
                              _childProcess := o t; _isRunning := true |})
                 this (tasks w) →
    (∀ s, signal_aborted w1 s = signal_aborted w s) →
    ∀ p1, let w2 := fst (run this signal' w1) in
          let p2 := snd (run this signal' w1) in
          promise_state w1 p1 = promises w1 !! length (promises w) ≫= state →
          p1 = length (promises w) → p1 < length (promises w1) →
          promise_state w2 p2 = Some (Rejected ProcessAlreadyRunning)
          ∧ promise_state w2 p1 = promise_state w1 p1
          ∧ children w2 = children w1
          ∧ tasks w2 = tasks w1
          ∧ signals w2 = signals w1).
  { intros w1 o Hts Hab p1 w2 p2 _ -> Hlt. subst w2 p2.
    destruct Hidle as (t & Ht & Hidle).
    rewrite run_while_running.
    - cbn [new_Promise fst snd].
      unfold promise_state, with_promises.
      cbn [promises children tasks signals].
      rewrite lookup_snoc_last. split; [done|]. split; [|done].
      by rewrite lookup_app_l.
    - destruct signal' as [s'|]; [|done]. destruct Hlive' as (sg & Hs & Ha).
      unfold already_aborted. rewrite Hab. unfold signal_aborted.
      by rewrite Hs.
    - unfold task. by rewrite Hts, list_lookup_alter, decide_True, Ht. }
  destruct (spawn_throws w (command (task w this))) as [thrown|] eqn:Hs.
  - rewrite (run_refused w this signal thrown) by done. cbn [fst snd].
    destruct (Hrun (refused w this thrown) _childProcess)
      with (p1 := length (promises w)) as (H1 & H2 & H3 & H4 & H5);
      [done|done|done|done|unfold refused; cbn; rewrite length_app; cbn; lia|].
    split; [done|]. split; [done|]. split; [|done].
    unfold launches. by rewrite Hs.
  - rewrite run_launched by done. cbn [fst snd].
    destruct (Hrun (launched w this signal None)
                (λ _, Some (length (children w))))
      with (p1 := length (promises w)) as (H1 & H2 & H3 & H4 & H5);
      [done| |done|done|unfold launched, run_heap; cbn; rewrite length_app;
                        cbn; lia|].
    { intros s. unfold signal_aborted, launched, run_heap. cbn [signals].
      destruct signal as [s0|]; [|done]. rewrite list_lookup_alter.
      destruct (decide (s0 = s)) as [->|]; [|done].
      by destruct (signals w !! s). }
    split; [done|]. split; [done|]. split; [|done].
    intros _. rewrite H2. unfold promise_state, launched, run_heap.
    cbn [promises]. by rewrite lookup_snoc_last.
Qed.

Lemma run_twice_rejected_witness :
  let w := task_and_signal 1 "sleep 5" in
  let w1 := fst (run 0 (Some 0) w) in
  promise_state (fst (run 0 None w1)) (snd (run 0 None w1))
  = Some (Rejected ProcessAlreadyRunning)
  ∧ promise_state (fst (run 0 None w1)) (snd (run 0 (Some 0) w)) = None
  ∧ children (fst (run 0 None w1)) = children w1.
Proof.
  destruct (run_twice_rejected (task_and_signal 1 "sleep 5") 0 (Some 0) None)
    as (H1 & _ & H2 & H3 & _).
  - eexists. split; reflexivity.
  - eexists. split; reflexivity.
  - done.
  - split; [exact H1|]. split; [apply H2; reflexivity|exact H3].
Defined.

Lemma exit_outcome_spec code sg :
  (code = Some 0%Z → exit_outcome code sg = Resolved)
  ∧ (code ≠ Some 0%Z → sg = None ∨ sg = Some "SIGABRT" →
     exit_outcome code sg = Rejected (ProcessAborted sg))
  ∧ (code ≠ Some 0%Z → sg ≠ None → sg ≠ Some "SIGABRT" →
     exit_outcome code sg = Rejected (ProcessFailed code)).
Proof.
  unfold exit_outcome. repeat split.
  - intros ->. done.
  - intros Hc Hs. apply is_SIGABRT_or_null_spec in Hs. rewrite Hs.
    destruct (is_zero code) eqn:Hz; [|done]. by apply is_zero_spec in Hz.
  - intros Hc Hs1 Hs2.
    destruct (is_zero code) eqn:Hz; [by apply is_zero_spec in Hz|].
    destruct (is_SIGABRT_or_null sg) eqn:Hs; [|done].
    apply is_SIGABRT_or_null_spec in Hs. by destruct Hs.
Qed.

Lemma exited_observe w this signal o t :
  tasks w !! this = Some t →
  promise_state (exited w this signal o) (length (promises w)) = o
  ∧ task (exited w this signal o) this
    = {| id := id t; command := command t;
         _childProcess := None; _isRunning := false |}
  ∧ child_listeners (exited w this signal o) (length (children w)) = []
  ∧ child_kills (exited w this signal o) (length (children w)) = [].
Proof.
  intros Ht. unfold exited. split; [|split; [|split]].
  - unfold promise_state, run_heap. cbn [promises].
    by rewrite lookup_snoc_last.
  - by rewrite (run_heap_task _ _ _ _ _ _ _ t Ht).
  - apply run_heap_listeners.
  - unfold child_kills, run_heap. cbn [children].
    by rewrite lookup_snoc_last.
Qed.

Lemma exited_signal_listeners w this s o :
  onAbort (length (children w)) ∉ signal_listeners w s →
  signal_listeners (exited w this (Some s) o) s = signal_listeners w s.
Proof.
  intros Hfresh. unfold signal_listeners, exited, run_heap in *.
  cbn [signals]. rewrite list_lookup_alter, decide_True by done.
  destruct (signals w !! s) as [sg|]; [|done]. cbn in *.
  by apply remove_first_snoc_fresh.
Qed.

(** X12: when the child process that a run has launched reports its exit,
    the promise of the run is settled by the report: resolved for exit code
    0, rejected
    with "Process aborted" for another code with the signal SIGABRT or no
    signal, rejected with "Process failed" otherwise.  The task is idle
    again and holds no child process, the child process has no listener
    left and was never killed, the abort listener is off the signal, and a
    new [run] on the task is accepted and spawns a new child process. *)
Theorem run_exit_settles_and_cleans w this signal code sg :
  idle w this → live w signal → launches w (command (task w this)) →
  let c := length (children w) in
  let p := snd (run this signal w) in
  let w2 := deliver (fst (run this signal w)) (Exit c code sg) in
  (code = Some 0%Z → promise_state w2 p = Some Resolved)
  ∧ (code ≠ Some 0%Z → sg = None ∨ sg = Some "SIGABRT" →
     promise_state w2 p = Some (Rejected (ProcessAborted sg)))
  ∧ (code ≠ Some 0%Z → sg ≠ None → sg ≠ Some "SIGABRT" →
     promise_state w2 p = Some (Rejected (ProcessFailed code)))
  ∧ task w2 this
    = {| id := id (task w this); command := command (task w this);
         _childProcess := None; _isRunning := false |}
  ∧ child_listeners w2 c = []
  ∧ child_kills w2 c = []
  ∧ (∀ s, signal = Some s → onAbort c ∉ signal_listeners w s →
          signal_listeners w2 s = signal_listeners w s)
  ∧ promise_state (fst (run this signal w2)) (snd (run this signal w2)) = None
  ∧ length (children (fst (run this signal w2))) = length (children w) + 2.
Proof.
  intros Hidle Hlive Hl c p w2. subst c p w2.
  rewrite run_launched by done. cbn [fst snd].
  destruct Hidle as (t & Ht & Hidle).
  rewrite launched_exit by (by eexists). cbn [settle].
  destruct (exited_observe w this signal (Some (exit_outcome code sg)) t Ht)
    as (Hp & Htask & Hls & Hks).
  destruct (exit_outcome_spec code sg) as (H0 & H1 & H2).
  rewrite Hp, Htask, Hls, Hks.
  split; [intros Hc; by rewrite H0|].
  split; [intros Hc Hs; by rewrite H1|].
  split; [intros Hc Hs1 Hs2; by rewrite H2|].
  split; [unfold task; by rewrite Ht|].
  split; [done|]. split; [done|].
  split; [intros s ->; apply exited_signal_listeners|].
  rewrite run_launched;
    [|apply exited_idle; by eexists|by apply exited_live
     |apply exited_launches; [by eexists|done]].
  cbn [fst snd]. split.
  - unfold promise_state, launched, run_heap. cbn [promises].
    by rewrite lookup_snoc_last.
  - unfold launched, exited, run_heap. cbn [children].
    rewrite !length_app. cbn. lia.
Qed.

Lemma run_exit_settles_and_cleans_witness :
  let w := task_and_signal 1 "exit 7" in
  let w2 := deliver (fst (run 0 (Some 0) w)) (Exit 0 (Some 7%Z) None) in
  promise_state w2 (snd (run 0 (Some 0) w))
  = Some (Rejected (ProcessAborted None))
  ∧ task w2 0 = new_task 1 "exit 7".
Proof.
  destruct (run_exit_settles_and_cleans (task_and_signal 1 "exit 7") 0
              (Some 0) (Some 7%Z) None)
    as (_ & H1 & _ & H2 & _).
  - eexists. split; reflexivity.
  - eexists. split; reflexivity.
  - reflexivity.
  - split; [apply H1; [discriminate|by left]|exact H2].
Defined.

(** X13: once the child process of a run has reported its exit, further
    reports for that child process (a second 'exit', a 'close', an 'error')
    change nothing in the heap.  (When [spawn] has thrown there is no such
    child process, and the reports change nothing either.) *)
Theorem run_exit_then_inert w this signal code sg e :
  idle w this → live w signal →
  let c := length (children w) in
  let w2 := deliver (fst (run this signal w)) (Exit c code sg) in
  (∃ code' sg', e = Exit c code' sg' ∨ e = Close c code' sg')
  ∨ (∃ err, e = ErrorEvent c err) →
  deliver w2 e = w2.
Proof.
  intros Hidle Hlive c w2 He. subst c w2.
  destruct (spawn_throws w (command (task w this))) as [thrown|] eqn:Hs.
  - rewrite (run_refused w this signal thrown) by done. cbn [fst deliver].
    assert (Hno : ∀ ev a, emit (length (children w)) ev a
                    (refused w this thrown) = refused w this thrown).
    { intros ev a. apply emit_no_child. cbn. apply lookup_ge_None. lia. }
    rewrite Hno.
    destruct He as [(code' & sg' & [-> | ->])|(err & ->)]; apply Hno.
  - rewrite run_launched by done. cbn [fst].
    destruct Hidle as (t & Ht & Hidle).
    rewrite launched_exit by (by eexists).
    assert (Hls : ∀ ev a, emit (length (children w)) ev a
                    (exited w this signal
                       (settle None (exit_outcome code sg)))
                  = exited w this signal
                      (settle None (exit_outcome code sg))).
    { intros ev a. unfold emit, exited. by rewrite run_heap_listeners. }
    destruct He as [(code' & sg' & [-> | ->])|(err & ->)]; apply Hls.
Qed.

Lemma run_exit_then_inert_witness :
  let w := task_and_signal 1 "exit 0" in
  let w2 := deliver (fst (run 0 None w)) (Exit 0 (Some 0%Z) None) in
  deliver w2 (ErrorEvent 0 "late") = w2.
Proof.
  apply (run_exit_then_inert (task_and_signal 1 "exit 0") 0 None
           (Some 0%Z) None (ErrorEvent 0 "late")).
  - eexists. split; reflexivity.
  - exact I.
  - right. by eexists.
Defined.

(** X14: when the executor reports an error for the child process that a
    run has launched and the exit afterwards, the promise is rejected with the executor's
    error at the first report and keeps that outcome, whatever the exit
    report says; the cleanup that the error report skipped is done at the
    exit report, and a new [run] on the task is then accepted. *)
Theorem run_error_then_exit w this signal err code sg :
  idle w this → live w signal → launches w (command (task w this)) →
  let c := length (children w) in
  let p := snd (run this signal w) in
  let w2 := deliver (fst (run this signal w)) (ErrorEvent c err) in
  let w3 := deliver w2 (Exit c code sg) in
  promise_state w2 p = Some (Rejected (ExecutorError err))
  ∧ _isRunning (task w2 this) = true
  ∧ promise_state w3 p = Some (Rejected (ExecutorError err))
  ∧ task w3 this
    = {| id := id (task w this); command := command (task w this);
         _childProcess := None; _isRunning := false |}
  ∧ child_listeners w3 c = []
  ∧ promise_state (fst (run this signal w3)) (snd (run this signal w3)) = None.
Proof.
  intros Hidle Hlive Hl c p w2 w3. subst c p w2 w3.
  rewrite run_launched by done. cbn [fst snd].
  destruct Hidle as (t & Ht & Hidle).
  rewrite launched_error, launched_exit by (by eexists). cbn [settle].
  destruct (exited_observe w this signal
              (Some (Rejected (ExecutorError err))) t Ht)
    as (Hp & Htask & Hls & _).
  rewrite Hp, Htask, Hls.
  split.
  { unfold promise_state, launched, run_heap. cbn [promises].
    by rewrite lookup_snoc_last. }
  split; [unfold launched; by rewrite (run_heap_task _ _ _ _ _ _ _ t Ht)|].
  split; [done|]. split; [unfold task; by rewrite Ht|]. split; [done|].
  rewrite run_launched;
    [|apply exited_idle; by eexists|by apply exited_live
     |apply exited_launches; [by eexists|done]].
  cbn [fst snd]. unfold promise_state, launched, run_heap. cbn [promises].
  by rewrite lookup_snoc_last.
Qed.

Lemma run_error_then_exit_witness :
  let w := task_and_signal 1 "x" in
  let w2 := deliver (fst (run 0 None w)) (ErrorEvent 0 "spawn EAGAIN") in
  let w3 := deliver w2 (Exit 0 (Some 0%Z) None) in
  promise_state w3 (snd (run 0 None w))
  = Some (Rejected (ExecutorError "spawn EAGAIN"))
  ∧ task w3 0 = new_task 1 "x".
Proof.
  destruct (run_error_then_exit (task_and_signal 1 "x") 0 None
              "spawn EAGAIN" (Some 0%Z) None)
    as (_ & _ & H1 & H2 & _).
  - eexists. split; reflexivity.
  - exact I.
  - reflexivity.
  - split; [exact H1|exact H2].
Defined.

(** ** memoize *)

Lemma memoize_world w this :
  memoize this w
  = (with_tasks (λ ts, ts ++ [new_task (id (task w this))
                                (command (task w this))]) w,
     length (tasks w)).
Proof.
  destruct w as [ts ms cs ss prs ars ex]. unfold memoize. heap_cbv'.
  cbn [new_PredictedProcess]. heap_cbv'. by rewrite !alter_snoc.
Qed.

(** X15: [memoize] creates a new task object with the id and the command of
    the one it is called on, idle and without a child process, whatever the
    state of the original, and changes nothing else.  The copy has its own
    running flag: [run] on it gets past the check of the flag even while
    the original is running, sets the flag of the copy and leaves the
    original as it is; when [spawn] launches the command, it spawns a child
    process for the same command and returns a pending promise. *)
Theorem memoize_independent w this signal :
  is_Some (tasks w !! this) → live w signal →
  let w' := fst (memoize this w) in
  let M := snd (memoize this w) in
  let w1 := fst (run M signal w') in
  M = length (tasks w)
  ∧ M ≠ this
  ∧ tasks w'
    = tasks w ++ [new_task (id (task w this)) (command (task w this))]
  ∧ children w' = children w
  ∧ signals w' = signals w
  ∧ promises w' = promises w
  ∧ managers w' = managers w
  ∧ task w1 this = task w this
  ∧ _isRunning (task w1 M) = true
  ∧ (launches w (command (task w this)) →
     promise_state w1 (snd (run M signal w')) = None
     ∧ (spawnfile <$> children w1)
       = (spawnfile <$> children w) ++ [command (task w this)]).
Proof.
  intros [t Ht] Hlive w' M w1. subst w' M w1.
  rewrite memoize_world. cbn [fst snd].
  set (w' := with_tasks _ w).
  assert (Hm : tasks w' !! length (tasks w)
               = Some (new_task (id (task w this)) (command (task w this)))).
  { unfold w', with_tasks. cbn [tasks]. apply lookup_snoc_last. }
  assert (Hidle : idle w' (length (tasks w))) by (by eexists).
  assert (Hlive' : live w' signal) by (by destruct signal).
  assert (Hcmd : command (task w' (length (tasks w))) = command (task w this)).
  { unfold task at 1. by rewrite Hm. }
  apply lookup_lt_Some in Ht as Hlt.
  split; [done|]. split; [lia|]. do 5 (split; [done|]).
  destruct (spawn_throws w (command (task w this))) as [thrown|] eqn:Hs.
  - rewrite (run_refused w' _ signal thrown);
      [|done|done|by rewrite Hcmd, (spawn_throws_executor w)].
    cbn [fst snd]. split; [|split].
    + unfold task, refused. cbn [tasks].
      rewrite list_lookup_alter_ne by lia.
      unfold w', with_tasks. cbn [tasks]. by rewrite lookup_app_l.
    + unfold task, refused. cbn [tasks].
      by rewrite list_lookup_alter, decide_True, Hm.
    + unfold launches. by rewrite Hs.
  - rewrite run_launched;
      [|done|done|unfold launches; by rewrite Hcmd, (spawn_throws_executor w)].
    cbn [fst snd]. split; [|split].
    + unfold task, launched, run_heap. cbn [tasks].
      rewrite list_lookup_alter_ne by lia.
      unfold w', with_tasks. cbn [tasks]. by rewrite lookup_app_l.
    + unfold launched. by rewrite (run_heap_task _ _ _ _ _ _ _ _ Hm).
    + intros _. split.
      * unfold promise_state, launched, run_heap. cbn [promises].
        by rewrite lookup_snoc_last.
      * unfold launched, run_heap. cbn [children].
        rewrite fmap_app. cbn. by rewrite Hcmd.
Qed.

Lemma memoize_independent_witness :
  let w := fst (run 0 None (task_and_signal 1 "sleep 5")) in
  _isRunning (task w 0) = true
  ∧ snd (memoize 0 w) = 1
  ∧ promise_state (fst (run 1 None (fst (memoize 0 w))))
      (snd (run 1 None (fst (memoize 0 w)))) = None.
Proof.
  split; [by vm_compute|].
  destruct (memoize_independent
              (fst (run 0 None (task_and_signal 1 "sleep 5"))) 0 None)
    as (H1 & _ & _ & _ & _ & _ & _ & _ & _ & H2).
  - by eexists.
  - exact I.
  - split; [|apply H2; by vm_compute]. rewrite H1. by vm_compute.
Defined.

(** ** The invariant of the task objects *)

Lemma tasks_reject p e w : tasks (reject p e w) = tasks w.
Proof.
  unfold reject. destruct (promises w !! p) as [[[o|] rs]|]; try done.
  assert (H : ∀ w0, tasks (foldl (λ w a, push a e w) w0 rs) = tasks w0).
  { induction rs as [|a rs IH]; intros w0; [done|]. cbn [foldl].
    by rewrite IH. }
  by rewrite H.
Qed.

Lemma tasks_resolve p w : tasks (resolve p w) = tasks w.
Proof. unfold resolve. by destruct (promises w !! p) as [[[o|] rs]|]. Qed.

Lemma consistent_alter w w' this (f : PredictedProcess → PredictedProcess) :
  (∀ t, is_Some (_childProcess (f t)) → _isRunning (f t) = true) →
  tasks w' = alter f this (tasks w) →
  consistent w → consistent w'.
Proof.
  intros Hf Hts Hw that t. rewrite Hts, list_lookup_alter.
  destruct (decide (this = that)) as [->|]; [|apply Hw].
  destruct (tasks w !! that); [|done]. cbn. intros [= <-]. apply Hf.
Qed.

Lemma consistent_same w w' :
  tasks w' = tasks w → consistent w → consistent w'.
Proof. intros Hts Hw that t. rewrite Hts. apply Hw. Qed.

Lemma call_consistent l a w : consistent w → consistent (call l a w).
Proof.
  intros Hw. destruct l as [this p|c|s c|p|i p|c p].
  - destruct a as [code signal|err|]; cbn [call]; try done.
    eapply (consistent_alter
              (match _childProcess (task w this) with
               | Some c => removeAllListeners c w
               | None => w
               end) _ this
              (λ t, {| id := id t; command := command t;
                       _childProcess := None; _isRunning := false |})).
    + by intros t [? ?].
    + destruct (is_zero code); [|destruct (is_SIGABRT_or_null signal)];
        rewrite ?tasks_resolve, ?tasks_reject;
        unfold set_isRunning, set_childProcess, with_tasks; cbn [tasks];
        by rewrite list_alter_alter_eq.
    + apply (consistent_same w); [|done].
      by destruct (_childProcess (task w this)).
  - by apply (consistent_same w); [destruct a|].
  - by apply (consistent_same w); [destruct a|].
  - destruct a as [code signal|err|]; cbn [call]; try done.
    apply (consistent_same w); [apply tasks_reject|done].
  - destruct a as [code signal|err|]; cbn [call]; try done.
    apply (consistent_same w); [|done].
    destruct (is_zero code); [apply tasks_resolve|apply tasks_reject].
  - apply (consistent_same w); [|done].
    destruct a; cbn [call]; by rewrite tasks_reject.
Qed.

Lemma emit_consistent c ev a w : consistent w → consistent (emit c ev a w).
Proof.
  unfold emit. generalize (filter (λ r, EventName_beq (event r) ev = true)
                             (child_listeners w c)).
  intros rs. revert w. induction rs as [|r rs IH]; intros w Hw; [done|].
  cbn [foldl]. apply IH, call_consistent.
  destruct (once r); [|done]. by apply (consistent_same w).
Qed.

Lemma abort_consistent s w : consistent w → consistent (abort s w).
Proof.
  intros Hw. unfold abort. destruct (signal_aborted w s); [done|].
  generalize (signal_listeners w s). intros ls.
  assert (H : ∀ w0, consistent w0 →
            consistent (foldl (λ w l, call l NoArgs w) w0 ls)).
  { induction ls as [|l ls IH]; intros w0 Hw0; [done|].
    cbn [foldl]. by apply IH, call_consistent. }
  apply H. by apply (consistent_same w).
Qed.

Lemma tasks_runAll this signal w : tasks (fst (runAll this signal w)) = tasks w.
Proof.
  unfold runAll.
  assert (Hloop : ∀ procs w0 (ps : list nat),
            tasks (fst (foldl (runAll_spawn signal) (w0, ps) procs))
            = tasks w0).
  { induction procs as [|p procs IH]; intros w0 ps; [done|].
    cbn [foldl].
    destruct (runAll_spawn_spec signal w0 ps p) as (_ & Hts & _).
    destruct (runAll_spawn signal (w0, ps) p) as [w1 ps1].
    by rewrite IH. }
  specialize (Hloop (manager w this) w []).
  destruct (foldl (runAll_spawn signal) (w, []) (manager w this))
    as [w1 ps]. cbn [fst] in Hloop. cbn [new_array fst snd].
  assert (Hcatch : ∀ ps w0 a, tasks (foldl (catch a) w0 ps) = tasks w0).
  { clear. induction ps as [|p ps IH]; intros w0 a; [done|].
    cbn [foldl]. rewrite IH. unfold catch.
    by destruct (promise_state w0 p) as [[]|]. }
  by rewrite Hcatch.
Qed.

Lemma perform_consistent w a : consistent w → consistent (perform w a).
Proof.
  intros Hw. destruct a as [i cmd|this signal|this|ps|m p|m i|m signal| |e];
    cbn [perform].
  - intros that t. cbn. intros Ht.
    apply lookup_app_Some in Ht. destruct Ht as [Ht|[_ Ht]]; [by eapply Hw|].
    destruct (that - length (tasks w)) as [|n]; [|done].
    injection Ht as <-. cbn. by intros [? ?].
  - unfold run. destruct (already_aborted signal w); [done|].
    destruct (_isRunning (task w this)); [done|].
    change (new_Promise None (set_isRunning this true w))
      with (fst (new_Promise None (set_isRunning this true w)),
            length (promises w)).
    cbv beta iota zeta. unfold spawn.
    destruct (spawn_throws _ _) as [thrown|]; cbn [fst].
    + apply (consistent_alter w _ this
               (λ t, {| id := id t; command := command t;
                        _childProcess := _childProcess t;
                        _isRunning := true |})); [done| |done].
      by rewrite tasks_reject.
    + apply (consistent_alter w _ this
               (λ t, {| id := id t; command := command t;
                        _childProcess := Some (length (children w));
                        _isRunning := true |})); [done| |done].
      destruct w as [ts ms cs ss prs ars ex].
      destruct signal as [s|]; heap_cbv'; by rewrite list_alter_alter_eq.
  - rewrite memoize_world. cbn [fst]. intros that t. cbn. intros Ht.
    apply lookup_app_Some in Ht. destruct Ht as [Ht|[_ Ht]]; [by eapply Hw|].
    destruct (that - length (tasks w)) as [|n]; [|done].
    injection Ht as <-. cbn. by intros [? ?].
  - done.
  - done.
  - done.
  - apply (consistent_same w); [apply tasks_runAll|done].
  - done.
  - destruct e; cbn [deliver];
      by apply emit_consistent || by apply abort_consistent.
Qed.

(** X16: a task that holds a child process is running, in every heap the
    program can reach: the property holds in the empty heap and is kept by
    every constructor and method call and by every event, in any order,
    whether [spawn] launches the commands or throws. *)
Theorem consistent_always w actions :
  consistent w → consistent (foldl perform w actions).
Proof.
  revert w. induction actions as [|a actions IH]; intros w Hw; [done|].
  cbn [foldl]. by apply IH, perform_consistent.
Qed.

Lemma consistent_always_witness :
  consistent
    (foldl perform empty_world
       [do_new 1 "sleep 5"; do_new_AbortSignal; do_run 0 (Some 0);
        do_event (ErrorEvent 0 "x"); do_memoize 0; do_run 1 (Some 0);
        do_event (Abort 0); do_event (Exit 1 None (Some "SIGABRT"));
        do_new 2 ""; do_run 2 None]).
Proof.
  apply consistent_always. intros this t H. done.
Defined.

(** ** Cancellation of a run *)

Lemma abort_unlistened s w :
  signal_listeners w s = [] → signal_aborted w s = false →
  abort s w = mark_aborted s w.
Proof. intros Hl Ha. unfold abort. by rewrite Ha, Hl. Qed.

(** X17: when the signal of a run that has launched a child process is
    triggered (the signal having no other listener), the task sends SIGABRT
    to its child process, once,
    and nothing else happens: the promise stays pending, the task stays
    running and keeps its listeners.  Triggering the signal again does
    nothing. *)
Theorem run_abort_in_flight w this s :
  idle w this → live w (Some s) → launches w (command (task w this)) →
  signal_listeners w s = [] →
  let c := length (children w) in
  let p := snd (run this (Some s) w) in
  let w1 := fst (run this (Some s) w) in
  let w2 := deliver w1 (Abort s) in
  child_kills w2 c = ["SIGABRT"]
  ∧ promise_state w2 p = None
  ∧ tasks w2 = tasks w1
  ∧ child_listeners w2 c = child_listeners w1 c
  ∧ signal_aborted w2 s = true
  ∧ deliver w2 (Abort s) = w2.
Proof.
  intros Hidle Hlive Hlaunch Hls c p w1 w2. subst c p w1 w2.
  rewrite run_launched by done. cbn [fst snd deliver].
  destruct Hlive as (sg & Hs & Ha).
  assert (Hl : abort_listeners sg = []).
  { unfold signal_listeners in Hls. by rewrite Hs in Hls. }
  assert (Habort : abort s (launched w this (Some s) None)
                   = kill (length (children w)) "SIGABRT"
                       (mark_aborted s (launched w this (Some s) None))).
  { unfold abort, signal_aborted, signal_listeners, launched, run_heap.
    cbn [signals]. rewrite !list_lookup_alter, !decide_True, Hs by done.
    cbn. by rewrite Ha, Hl. }
  rewrite Habort. clear Habort.
  destruct w as [ts ms cs ss prs ars ex]. cbn [signals] in Hs.
  split; [|split; [|split; [done|split; [|split]]]].
  - heap_cbv'. by rewrite alter_snoc, lookup_snoc_last.
  - heap_cbv'. by rewrite lookup_snoc_last.
  - heap_cbv'. by rewrite alter_snoc, !lookup_snoc_last.
  - heap_cbv'. by rewrite !list_lookup_alter, !decide_True, Hs by done.
  - unfold abort.
    replace (signal_aborted _ s) with true; [done|].
    heap_cbv'. by rewrite !list_lookup_alter, !decide_True, Hs by done.
Qed.

Lemma run_abort_in_flight_witness :
  let w := task_and_signal 1 "sleep 5" in
  let w2 := deliver (fst (run 0 (Some 0) w)) (Abort 0) in
  child_kills w2 0 = ["SIGABRT"]
  ∧ promise_state w2 (snd (run 0 (Some 0) w)) = None.
Proof.
  destruct (run_abort_in_flight (task_and_signal 1 "sleep 5") 0 0)
    as (H1 & H2 & _).
  - eexists. split; reflexivity.
  - eexists. split; reflexivity.
  - reflexivity.
  - reflexivity.
  - split; [exact H1|exact H2].
Defined.

(** X18: when the signal of a run is triggered after the child process has
    reported its exit (the signal having no other listener), nothing is
    killed and nothing changes but the flag of the signal: the abort
    listener of the run was removed at the exit.  (When [spawn] has thrown
    no abort listener was added, and the same holds.) *)
Theorem run_abort_after_exit w this s code sg :
  idle w this → live w (Some s) → signal_listeners w s = [] →
  let c := length (children w) in
  let w2 := deliver (fst (run this (Some s) w)) (Exit c code sg) in
  let w3 := deliver w2 (Abort s) in
  children w3 = children w2
  ∧ promises w3 = promises w2
  ∧ tasks w3 = tasks w2
  ∧ signal_listeners w3 s = []
  ∧ signal_aborted w3 s = true.
Proof.
  intros Hidle Hlive Hls c w2 w3. subst c w2 w3.
  destruct Hlive as (sg0 & Hs & Ha).
  assert (Hmark : ∀ w2,
    signal_listeners w2 s = [] → signal_aborted w2 s = false →
    is_Some (signals w2 !! s) →
    let w3 := deliver w2 (Abort s) in
    children w3 = children w2 ∧ promises w3 = promises w2
    ∧ tasks w3 = tasks w2 ∧ signal_listeners w3 s = []
    ∧ signal_aborted w3 s = true).
  { intros w2 Hl2 Ha2 [sg2 Hs2]. cbn [deliver].
    rewrite abort_unlistened by done. do 3 (split; [done|]).
    unfold signal_listeners, signal_aborted, mark_aborted, with_signals in *.
    cbn [signals]. rewrite list_lookup_alter, decide_True by done.
    rewrite Hs2 in *. by split. }
  destruct (spawn_throws w (command (task w this))) as [thrown|] eqn:Hthrows.
  - rewrite (run_refused w this (Some s) thrown);
      [|done|by eexists|done].
    cbn [fst]. cbn [deliver].
    rewrite emit_no_child by (cbn; apply lookup_ge_None; lia).
    apply Hmark; [done| |by eexists].
    unfold signal_aborted. cbn [refused signals]. by rewrite Hs.
  - rewrite run_launched; [|done|by eexists|done]. cbn [fst].
    destruct Hidle as (t & Ht & Hidle).
    rewrite launched_exit by (by eexists).
    apply Hmark.
    + rewrite exited_signal_listeners; [done|].
      rewrite Hls. apply not_elem_of_nil.
    + unfold signal_aborted, exited, run_heap. cbn [signals].
      by rewrite list_lookup_alter, decide_True, Hs.
    + unfold exited, run_heap. cbn [signals].
      rewrite list_lookup_alter, decide_True, Hs by done. by eexists.
Qed.

Lemma run_abort_after_exit_witness :
  let w := task_and_signal 1 "exit 0" in
  let w2 := deliver (fst (run 0 (Some 0) w)) (Exit 0 (Some 0%Z) None) in
  children (deliver w2 (Abort 0)) = children w2
  ∧ promises (deliver w2 (Abort 0)) = promises w2.
Proof.
  destruct (run_abort_after_exit (task_and_signal 1 "exit 0") 0 0
              (Some 0%Z) None)
    as (H1 & H2 & _).
  - eexists. split; reflexivity.
  - eexists. split; reflexivity.
  - reflexivity.
  - split; [exact H1|exact H2].
Defined.

(** ** When spawn throws *)

(** X19: when [spawn] throws in [run] (for the empty command, say), the
    promise [run] returns is rejected with what was thrown; no child
    process is spawned and no listener is added; the task is left marked
    as running although it holds no child process of this run, and a
    further [run] on it, with any signal that is not aborted or with none,
    is rejected with "Process is already running". *)
Theorem run_spawn_throws w this signal thrown :
  idle w this → live w signal →
  spawn_throws w (command (task w this)) = Some thrown →
  let w1 := fst (run this signal w) in
  let p := snd (run this signal w) in
  promise_state w1 p = Some (Rejected thrown)
  ∧ children w1 = children w
  ∧ signals w1 = signals w
  ∧ task w1 this
    = {| id := id (task w this); command := command (task w this);
         _childProcess := _childProcess (task w this); _isRunning := true |}
  ∧ ∀ signal', live w signal' →
      promise_state (fst (run this signal' w1)) (snd (run this signal' w1))
      = Some (Rejected ProcessAlreadyRunning)
      ∧ tasks (fst (run this signal' w1)) = tasks w1
      ∧ children (fst (run this signal' w1)) = children w.
Proof.
  intros Hidle Hlive Hs w1 p. subst w1 p.
  rewrite (run_refused w this signal thrown) by done. cbn [fst snd].
  destruct Hidle as (t & Ht & Hidle).
  assert (Htask : task (refused w this thrown) this
                  = {| id := id t; command := command t;
                       _childProcess := _childProcess t;
                       _isRunning := true |}).
  { unfold task, refused. cbn [tasks].
    by rewrite list_lookup_alter, decide_True, Ht. }
  split.
  { unfold promise_state, refused. cbn [promises].
    by rewrite lookup_snoc_last. }
  split; [done|]. split; [done|]. split.
  { rewrite Htask. unfold task. by rewrite Ht. }
  intros signal' Hlive'. rewrite run_while_running.
  - cbn [new_Promise fst snd]. unfold promise_state, with_promises.
    cbn [promises children tasks]. by rewrite lookup_snoc_last.
  - by apply live_not_aborted.
  - by rewrite Htask.
Qed.

Lemma run_spawn_throws_witness :
  let w := task_and_signal 1 "" in
  let w1 := fst (run 0 (Some 0) w) in
  promise_state w1 (snd (run 0 (Some 0) w))
  = Some (Rejected (ERR_INVALID_ARG_VALUE ""))
  ∧ children w1 = []
  ∧ _isRunning (task w1 0) = true
  ∧ promise_state (fst (run 0 None w1)) (snd (run 0 None w1))
    = Some (Rejected ProcessAlreadyRunning).
Proof.
  destruct (run_spawn_throws (task_and_signal 1 "") 0 (Some 0)
              (ERR_INVALID_ARG_VALUE ""))
    as (H1 & H2 & _ & H3 & H4).
  - eexists. split; reflexivity.
  - eexists. split; reflexivity.
  - reflexivity.
  - split; [exact H1|]. split; [exact H2|].
    split; [by rewrite H3|]. by apply (H4 None).
Defined.

(** X20: when [spawn] throws for a process of the manager in [runAll], the
    promise made for that process is among those [runAll] awaits and stays
    pending whatever the executor reports and whether or not the signal
    is triggered: [runAll] never settles. *)
Theorem runAll_spawn_throws ts procs withSignal (j : nat) process :
  procs !! j = Some process →
  ¬ launches (group ts procs) (command (task (group ts procs) process)) →
  j ∈ ra_promises (snd (started ts procs withSignal))
  ∧ ∀ trace,
      promise_state (observed ts procs withSignal trace) j = None
      ∧ outcome ts procs withSignal trace = None.
Proof.
  intros Hj Hno.
  destruct (runAll_unlaunched 0 (context withSignal) (group ts procs) j
              process (bounded_group ts procs) Hj Hno)
    as (Hin & Hout & Hp).
  change (length (promises (group ts procs)) + j) with j in *.
  split; [exact Hin|]. intros trace. split.
  - destruct (after_out_of_reach _ trace _ Hout) as [_ Hp'].
    unfold observed, started. by rewrite Hp'.
  - by apply (runAll_unlaunched_pending 0 _ (group ts procs) j process);
      [apply bounded_group| |].
Qed.

Lemma runAll_spawn_throws_witness :
  let ts := [new_task 1 "exit 0"; new_task 2 ""] in
  outcome ts [0; 1] true [Close 0 (Some 0%Z) None; Abort 0] = None.
Proof.
  apply (runAll_spawn_throws [new_task 1 "exit 0"; new_task 2 ""] [0; 1]
           true 1 1).
  - reflexivity.
  - vm_compute. discriminate.
Defined.

(** *** The flag is never reset *)

Lemma call_dwindles l a w c :
  child_listeners (call l a w) c ⊆ child_listeners w c.
Proof.
  destruct (settles l) as [q|] eqn:Hl.
  - apply (call_shrinks (S q) l a w). rewrite Hl. intros [= H]. lia.
  - apply (call_shrinks 0 l a w). by rewrite Hl.
Qed.

(** Only the exit listener of a task writes to the task. *)
Lemma call_task l a w this :
  (∀ p, l ≠ onExit this p) →
  tasks (call l a w) !! this = tasks w !! this.
Proof.
  intros Hl. destruct l as [that q|c|s c|q|i q|c q].
  - assert (Hne : that ≠ this) by (intros ->; by apply (Hl q)).
    destruct a as [code signal|err|]; cbn [call]; try done.
    destruct (is_zero code); [|destruct (is_SIGABRT_or_null signal)];
      rewrite ?tasks_resolve, ?tasks_reject;
      unfold set_isRunning, set_childProcess, with_tasks; cbn [tasks];
      rewrite !list_lookup_alter_ne by done;
      by destruct (_childProcess (task w that)).
  - by destruct a.
  - by destruct a.
  - destruct a as [code signal|err|]; cbn [call]; try done.
    by rewrite tasks_reject.
  - destruct a as [code signal|err|]; cbn [call]; try done.
    destruct (is_zero code); by rewrite ?tasks_resolve, ?tasks_reject.
  - destruct a; cbn [call]; by rewrite tasks_reject.
Qed.

(** An exit listener does nothing when the signal calls it. *)
Lemma call_NoArgs_tasks l w : tasks (call l NoArgs w) = tasks w.
Proof. destruct l; cbn [call]; try done. by rewrite tasks_reject. Qed.

(** No event touches a task of which no exit listener is registered, nor
    registers one. *)
Lemma deliver_unheld w this e :
  unheld w this →
  unheld (deliver w e) this ∧ tasks (deliver w e) !! this = tasks w !! this.
Proof.
  intros Hw.
  assert (Hemit : ∀ c ev a,
            unheld (emit c ev a w) this
            ∧ tasks (emit c ev a w) !! this = tasks w !! this).
  { intros c ev a. unfold emit.
    assert (Hrs : ∀ r, r ∈ filter (λ r, EventName_beq (event r) ev = true)
                             (child_listeners w c) →
                       ∀ p, listener r ≠ onExit this p).
    { intros r Hr p. apply list_elem_of_filter in Hr. apply (Hw c), Hr. }
    revert Hrs. generalize (filter (λ r, EventName_beq (event r) ev = true)
                              (child_listeners w c)).
    intros rs. revert w Hw.
    induction rs as [|r rs IH]; intros w0 Hw0 Hrs; [done|].
    cbn [foldl].
    set (w1 := if once r then remove_registration c r w0 else w0).
    assert (H1 : (∀ c', child_listeners w1 c' ⊆ child_listeners w0 c')
                 ∧ tasks w1 = tasks w0).
    { unfold w1. destruct (once r); [|done]. split; [|done].
      intros c'. apply (shrinks_children 0 w0). intros ch.
      apply remove_first_subseteq. }
    destruct H1 as [Hsub Hts].
    destruct (IH (call (listener r) a w1)) as [Hu Ht].
    - intros c' r' p Hr'. apply (Hw0 c').
      by apply call_dwindles, Hsub in Hr'.
    - intros r' Hr'. by apply Hrs, list_elem_of_further.
    - split; [exact Hu|]. rewrite Ht, call_task, Hts; [done|].
      apply Hrs, list_elem_of_here. }
  destruct e as [c code sg|c code sg|c err|s]; cbn [deliver]; try apply Hemit.
  unfold abort. destruct (signal_aborted w s); [done|].
  generalize (signal_listeners w s). intros ls.
  set (w1 := with_signals _ w).
  assert (H : ∀ w0, (∀ c', child_listeners w0 c' ⊆ child_listeners w c')
                    ∧ tasks w0 = tasks w →
            (∀ c', child_listeners (foldl (λ w l, call l NoArgs w) w0 ls) c'
                   ⊆ child_listeners w c')
            ∧ tasks (foldl (λ w l, call l NoArgs w) w0 ls) = tasks w).
  { induction ls as [|l ls IH]; intros w0 [Hsub Hts]; [done|].
    cbn [foldl]. apply IH. split.
    - intros c' x Hx. by apply call_dwindles, Hsub in Hx.
    - by rewrite call_NoArgs_tasks. }
  destruct (H w1) as [Hsub Hts]; [done|].
  split; [|by rewrite Hts].
  intros c' r p Hr. apply (Hw c'). by apply Hsub.
Qed.

Lemma after_unheld this trace : ∀ w,
  unheld w this →
  unheld (after trace w) this
  ∧ tasks (after trace w) !! this = tasks w !! this.
Proof.
  induction trace as [|e trace IH]; intros w Hw; [done|].
  cbn [after foldl]. destruct (deliver_unheld w this e Hw) as [Hu Ht].
  destruct (IH (deliver w e) Hu) as [Hu' Ht'].
  split; [done|]. unfold after in Ht'. by rewrite Ht'.
Qed.

(** X21: when [spawn] has thrown in [run] on a task of which no exit
    listener is registered (no earlier execution of it is in flight), no
    event ever resets the flag of the task: whatever the executor reports
    and whatever signals are triggered afterwards, the task is still marked
    as running, and [run] on it spawns nothing and is rejected, with
    "Process is already running" or, for a signal that is aborted by then,
    with "AbortSignal already aborted". *)
Theorem run_spawn_throws_for_good w this signal thrown trace signal' :
  idle w this → live w signal → unheld w this →
  spawn_throws w (command (task w this)) = Some thrown →
  let w2 := after trace (fst (run this signal w)) in
  let r := run this signal' w2 in
  _isRunning (task w2 this) = true
  ∧ children (fst r) = children w2
  ∧ tasks (fst r) = tasks w2
  ∧ (promise_state (fst r) (snd r) = Some (Rejected ProcessAlreadyRunning)
     ∨ promise_state (fst r) (snd r)
       = Some (Rejected AbortSignalAlreadyAborted)).
Proof.
  intros Hidle Hlive Hu Hs w2 r. subst w2 r.
  rewrite (run_refused w this signal thrown) by done. cbn [fst].
  destruct Hidle as (t & Ht & Hidle).
  destruct (after_unheld this trace (refused w this thrown)) as [_ Htask].
  { intros c r p Hr. by apply (Hu c). }
  assert (Hrun : _isRunning (task (after trace (refused w this thrown)) this)
                 = true).
  { unfold task. rewrite Htask. unfold refused. cbn [tasks].
    by rewrite list_lookup_alter, decide_True, Ht. }
  split; [exact Hrun|]. unfold run.
  destruct (already_aborted signal' _).
  - cbn [new_Promise fst snd]. do 2 (split; [done|]). right.
    unfold promise_state, with_promises. cbn [promises].
    by rewrite lookup_snoc_last.
  - rewrite Hrun. cbn [new_Promise fst snd]. do 2 (split; [done|]). left.
    unfold promise_state, with_promises. cbn [promises].
    by rewrite lookup_snoc_last.
Qed.

Lemma run_spawn_throws_for_good_witness :
  let w := task_and_signal 1 "" in
  let w2 := after [Exit 0 (Some 0%Z) None; Abort 0]
              (fst (run 0 (Some 0) w)) in
  _isRunning (task w2 0) = true
  ∧ children (fst (run 0 None w2)) = children w2.
Proof.
  destruct (run_spawn_throws_for_good (task_and_signal 1 "") 0 (Some 0)
              (ERR_INVALID_ARG_VALUE "")
              [Exit 0 (Some 0%Z) None; Abort 0] None)
    as (H1 & H2 & _).
  - eexists. split; reflexivity.
  - eexists. split; reflexivity.
  - intros c r p Hr. destruct c; by apply not_elem_of_nil in Hr.
  - reflexivity.
  - split; [exact H1|exact H2].
Defined.
